(** * URI matching and request-message construction of the gRPC gateway

    A shallow embedding of [server/v2/api/grpcgateway/uri.go]: the template
    compiler [patternToRegex], the matcher [matchURI] and the two message
    builders [createMessageFromJSON] and [createMessage], together with the
    part of Go's [strings], [regexp], [io] and [reflect] packages they call.

    Go strings are byte sequences and are modelled as [string] (a list of
    8-bit [ascii]).  The [regexp] package refuses a pattern that is not
    valid UTF-8 and matches rune by rune; the matcher below reads bytes.
    The classes of this file only test bytes below 128 ([/], [}], newline,
    word bytes), and a byte below 128 is never part of a longer rune, so
    the two readings find the same match where a repeated class is
    followed by such a byte or by the end of the text.  The results that
    say which paths a template matches are stated for templates whose
    literal text is ASCII. *)

From Stdlib Require Import Ascii String NArith ZArith Lia.
From stdpp Require Import gmap strings list fin_maps.


(** ** Outcome of a call: a normal return or a run-time panic *)

Inductive outcome (A : Type) : Type :=
| Returns (a : A)
| Panics.
Arguments Returns {A} a.
Arguments Panics {A}.

#[global] Instance outcome_ret : MRet outcome := fun A a => Returns a.
#[global] Instance outcome_bind : MBind outcome := fun A B f m =>
  match m with
  | Returns a => f a
  | Panics => Panics
  end.

(** [xs[i]] on a possibly nil slice: out of range is a panic. *)
Definition index {A} (xs : option (list A)) (i : nat) : outcome A :=
  match xs with
  | Some l => match l !! i with Some x => Returns x | None => Panics end
  | None => Panics
  end.

(** ** package strings *)

Fixpoint ContainsByte (s : string) (c : ascii) : bool :=
  match s with
  | EmptyString => false
  | String d s' => Ascii.eqb d c || ContainsByte s' c
  end.

(** [strings.TrimRight(s, cutset)]: [s] without every trailing byte that
    occurs in [cutset]. *)
Fixpoint TrimRight (s cutset : string) : string :=
  match s with
  | EmptyString => EmptyString
  | String c s' =>
      match TrimRight s' cutset with
      | EmptyString => if ContainsByte cutset c then EmptyString else String c EmptyString
      | t => String c t
      end
  end.

(** ** package unicode/utf8 *)

Module utf8.

Definition RuneError : N := 65533. (* U+FFFD, the replacement character *)

Definition byte (c : ascii) : N := N_of_ascii c.

(** The table [first] together with [acceptRanges]: for the first byte
    of a sequence of more than one byte, the length of the sequence and
    the range of its second byte; [None] for a byte that begins no such
    sequence. *)
Definition first (s0 : N) : option (nat * N * N) :=
  if (s0 <? 194)%N then None                              (* 0x80-0xC1 *)
  else if (s0 <? 224)%N then Some (2, 128%N, 191%N)         (* 0xC2-0xDF *)
  else if (s0 =? 224)%N then Some (3, 160%N, 191%N)         (* 0xE0 *)
  else if (s0 =? 237)%N then Some (3, 128%N, 159%N)         (* 0xED *)
  else if (s0 <? 240)%N then Some (3, 128%N, 191%N)         (* 0xE1-0xEF *)
  else if (s0 =? 240)%N then Some (4, 144%N, 191%N)         (* 0xF0 *)
  else if (s0 <? 244)%N then Some (4, 128%N, 191%N)         (* 0xF1-0xF3 *)
  else if (s0 =? 244)%N then Some (4, 128%N, 143%N)         (* 0xF4 *)
  else None.                                              (* 0xF5-0xFF *)

Definition within (lo hi : N) (c : ascii) : bool :=
  (lo <=? byte c)%N && (byte c <=? hi)%N.

(** [utf8.DecodeRuneInString]: the first rune of [s] and its width in
    bytes.  An encoding that is not valid, or is cut short, gives
    [(RuneError, 1)], and the empty string [(RuneError, 0)]. *)
Definition DecodeRuneInString (s : string) : N * nat :=
  match s with
  | EmptyString => (RuneError, 0)
  | String c0 rest =>
      let s0 := byte c0 in
      if (s0 <? 128)%N then (s0, 1)
      else
        match first s0 with
        | None => (RuneError, 1)
        | Some (sz, lo, hi) =>
            match rest with
            | String c1 rest1 =>
                if negb (within lo hi c1) then (RuneError, 1)
                else if sz <=? 2
                then (N.lor (N.shiftl (N.land s0 31) 6) (N.land (byte c1) 63), 2)
                else
                  match rest1 with
                  | String c2 rest2 =>
                      if negb (within 128 191 c2) then (RuneError, 1)
                      else if sz <=? 3
                      then (N.lor (N.shiftl (N.land s0 15) 12)
                              (N.lor (N.shiftl (N.land (byte c1) 63) 6)
                                 (N.land (byte c2) 63)), 3)
                      else
                        match rest2 with
                        | String c3 _ =>
                            if negb (within 128 191 c3) then (RuneError, 1)
                            else (N.lor (N.shiftl (N.land s0 7) 18)
                                    (N.lor (N.shiftl (N.land (byte c1) 63) 12)
                                       (N.lor (N.shiftl (N.land (byte c2) 63) 6)
                                          (N.land (byte c3) 63))), 4)
                        | EmptyString => (RuneError, 1)
                        end
                  | EmptyString => (RuneError, 1)
                  end
            | EmptyString => (RuneError, 1)
            end
        end
  end.

End utf8.

(** ** package regexp: syntax *)

Module regexp.

(** The single-byte tests that occur in the patterns of this file. *)
Inductive class : Type :=
| Literal (c : ascii)      (* the byte [c], written [c] or [\c] *)
| AnyCharNotNL             (* [.] *)
| NotChar (c : ascii)      (* [[^c]] *)
| WordChar.                (* [\w] *)

(** The parsed expression, named after the operators of [regexp/syntax].
    Repetition is applied to single-byte tests only. *)
Inductive Regexp : Type :=
| EmptyMatch
| Char (c : class)
| Repeat (c : class) (min : nat) (greedy : bool)   (* [c+], [c+?], [c*], [c*?] *)
| Concat (r1 r2 : Regexp)
| Capture (i : nat) (r : Regexp)
| BeginText                                        (* [^] *)
| EndText.                                         (* [$] *)

Definition between (lo hi c : ascii) : bool :=
  (N_of_ascii lo <=? N_of_ascii c)%N && (N_of_ascii c <=? N_of_ascii hi)%N.

Definition isalnum (c : ascii) : bool :=
  between "0" "9" c || between "A" "Z" c || between "a" "z" c.

Definition isword (c : ascii) : bool := isalnum c || Ascii.eqb c "_".

Definition accepts (k : class) (c : ascii) : bool :=
  match k with
  | Literal d => Ascii.eqb c d
  | AnyCharNotNL => negb (Ascii.eqb c "010")
  | NotChar d => negb (Ascii.eqb c d)
  | WordChar => isword c
  end.

(** [specialBytes]: the bytes that [QuoteMeta] escapes. *)
Definition special (c : ascii) : bool := ContainsByte "\.+*?()|[]{}^$" c.

(** [regexp.QuoteMeta]. *)
Fixpoint QuoteMeta (s : string) : string :=
  match s with
  | EmptyString => EmptyString
  | String c s' =>
      if special c then String "\" (String c (QuoteMeta s'))
      else String c (QuoteMeta s')
  end.

Inductive token : Type :=
| TChar (c : class)
| TOpen | TClose
| TPlus | TStar | TQuest
| TBol | TEol.

(** [checkUTF8] of [regexp/syntax]: the text is decoded rune by rune, and
    an encoding that is not valid is the error [ErrInvalidUTF8].  [skip]
    counts the bytes of the rune decoded last that are still to be passed
    over ([s = s[size:]]). *)
Fixpoint checkUTF8 (s : string) (skip : nat) : bool :=
  match s with
  | EmptyString => true
  | String _ s' =>
      match skip with
      | S n => checkUTF8 s' n
      | O =>
          let '(rune, size) := utf8.DecodeRuneInString s in
          if (rune =? utf8.RuneError)%N && (size =? 1)%nat then false
          else checkUTF8 s' (size - 1)
      end
  end.

(** Lexical structure of a pattern.  [\c] with [c] an ASCII punctuation
    byte is the literal [c]; [\w] is the word class; a bracket expression
    is read only in the form [[^c]]; a rune above 127 is the sequence of
    its bytes.  Alternation, counted repetition and the other escapes are
    outside the fragment ([None]). *)
Fixpoint lex (p : string) : option (list token) :=
  match p with
  | EmptyString => Some []
  | String c rest =>
      if Ascii.eqb c "\" then
        match rest with
        | String e rest' =>
            if Ascii.eqb e "w" then cons (TChar WordChar) <$> lex rest'
            else if negb (isalnum e) && (N_of_ascii e <? 128)%N
            then cons (TChar (Literal e)) <$> lex rest'
            else None
        | EmptyString => None
        end
      else if Ascii.eqb c "[" then
        match rest with
        | String c1 (String x (String c3 rest')) =>
            if Ascii.eqb c1 "^" && Ascii.eqb c3 "]" && negb (ContainsByte "\[]^-" x)
            then cons (TChar (NotChar x)) <$> lex rest'
            else None
        | _ => None
        end
      else if Ascii.eqb c "." then cons (TChar AnyCharNotNL) <$> lex rest
      else if Ascii.eqb c "(" then cons TOpen <$> lex rest
      else if Ascii.eqb c ")" then cons TClose <$> lex rest
      else if Ascii.eqb c "+" then cons TPlus <$> lex rest
      else if Ascii.eqb c "*" then cons TStar <$> lex rest
      else if Ascii.eqb c "?" then cons TQuest <$> lex rest
      else if Ascii.eqb c "^" then cons TBol <$> lex rest
      else if Ascii.eqb c "$" then cons TEol <$> lex rest
      else if Ascii.eqb c "|" || Ascii.eqb c "{" || Ascii.eqb c "]" then None
      else cons (TChar (Literal c)) <$> lex rest
  end.

Definition concat (rs : list Regexp) : Regexp := foldr Concat EmptyMatch rs.

(** The parser keeps the items of the sequence being read in [cur] (last
    item first) and one frame per open parenthesis in [stack]; capture
    groups are numbered by their opening parenthesis, from 1. *)
Fixpoint parse (ts : list token) (stack : list (nat * list Regexp))
    (cur : list Regexp) (ncap : nat) : option Regexp :=
  match ts with
  | [] => match stack with [] => Some (concat (rev cur)) | _ :: _ => None end
  | TOpen :: ts' => parse ts' ((S ncap, cur) :: stack) [] (S ncap)
  | TClose :: ts' =>
      match stack with
      | (i, outer) :: stack' => parse ts' stack' (Capture i (concat (rev cur)) :: outer) ncap
      | [] => None
      end
  | TBol :: ts' => parse ts' stack (BeginText :: cur) ncap
  | TEol :: ts' => parse ts' stack (EndText :: cur) ncap
  | TChar c :: TPlus :: TQuest :: ts' => parse ts' stack (Repeat c 1 false :: cur) ncap
  | TChar c :: TPlus :: ts' => parse ts' stack (Repeat c 1 true :: cur) ncap
  | TChar c :: TStar :: TQuest :: ts' => parse ts' stack (Repeat c 0 false :: cur) ncap
  | TChar c :: TStar :: ts' => parse ts' stack (Repeat c 0 true :: cur) ncap
  | TChar c :: ts' => parse ts' stack (Char c :: cur) ncap
  | _ => None
  end.

(** [regexp.MustCompile]: panics when the pattern is not valid UTF-8 or
    does not parse.  The parser meets an encoding that is not valid as it
    reads the pattern; every error is a panic, so the check of the whole
    pattern is made first. *)
Definition MustCompile (p : string) : outcome Regexp :=
  if checkUTF8 p 0 then
    match lex p ≫= (fun ts => parse ts [] [] 0) with
    | Some re => Returns re
    | None => Panics
    end
  else Panics.

(** [Regexp.NumSubexp]. *)
Fixpoint NumSubexp (re : Regexp) : nat :=
  match re with
  | Concat r1 r2 => NumSubexp r1 + NumSubexp r2
  | Capture _ r => S (NumSubexp r)
  | _ => 0
  end.

(** ** package regexp: matching *)

(** Byte offsets [(start, end)] recorded for the capture groups, the most
    recent binding first. *)
Definition captures : Type := list (nat * (nat * nat)).

Fixpoint cap_lookup (i : nat) (caps : captures) : option (nat * nat) :=
  match caps with
  | [] => None
  | (j, se) :: caps' => if Nat.eqb i j then Some se else cap_lookup i caps'
  end.

Section Backtrack.
Context {R : Type}.

(** [c+], [c*] (greedy: take a byte first, give it back on failure) and
    [c+?], [c*?] (lazy: try the continuation first), on the input [s]
    that starts at offset [pos]. *)
Fixpoint repeat (c : class) (greedy : bool) (min : nat) (s : string) (pos : nat)
    (k : string -> nat -> option R) : option R :=
  let stop := match min with O => k s pos | S _ => None end in
  let more :=
    match s with
    | String a s' =>
        if accepts c a then repeat c greedy (Nat.pred min) s' (S pos) k else None
    | EmptyString => None
    end in
  if greedy
  then match more with Some r => Some r | None => stop end
  else match stop with Some r => Some r | None => more end.

(** The backtracking search, whose first success is the match the
    package reports (leftmost-first semantics). *)
Fixpoint backtrack (re : Regexp) (s : string) (pos : nat) (caps : captures)
    (k : string -> nat -> captures -> option R) : option R :=
  match re with
  | EmptyMatch => k s pos caps
  | Char c =>
      match s with
      | String a s' => if accepts c a then k s' (S pos) caps else None
      | EmptyString => None
      end
  | Repeat c min greedy => repeat c greedy min s pos (fun s' pos' => k s' pos' caps)
  | Concat r1 r2 =>
      backtrack r1 s pos caps (fun s' pos' caps' => backtrack r2 s' pos' caps' k)
  | Capture i r =>
      backtrack r s pos caps (fun s' pos' caps' => k s' pos' ((i, (pos, pos')) :: caps'))
  | BeginText => if Nat.eqb pos 0 then k s pos caps else None
  | EndText => match s with EmptyString => k s pos caps | String _ _ => None end
  end.
End Backtrack.

(** A match of [re] that starts exactly at offset [pos], where [s] is the
    input from [pos] on: the end offset and the captures. *)
Definition matchAt (re : Regexp) (s : string) (pos : nat) : option (nat * captures) :=
  backtrack re s pos [] (fun _ e caps => Some (e, caps)).

(** The leftmost match at or after [pos]. *)
Fixpoint search (re : Regexp) (s : string) (pos : nat) : option (nat * nat * captures) :=
  match matchAt re s pos with
  | Some (e, caps) => Some (pos, e, caps)
  | None =>
      match s with
      | String _ s' => search re s' (S pos)
      | EmptyString => None
      end
  end.

Definition slice (s : string) (b e : nat) : string := substring b (e - b) s.

(** [Regexp.FindStringSubmatch]: [None] is the nil slice; otherwise the
    whole match followed by one entry per capture group, empty for a group
    that took no part in the match. *)
Definition FindStringSubmatch (re : Regexp) (s : string) : option (list string) :=
  match search re s 0 with
  | Some (b, e, caps) =>
      Some (slice s b e ::
            map (fun i => match cap_lookup i caps with
                          | Some (b', e') => slice s b' e'
                          | None => EmptyString
                          end) (seq 1 (NumSubexp re)))
  | None => None
  end.

Section Replace.
Context {St : Type}.
Variable re : Regexp.
(** The callback, with the variables it captures and updates as state. *)
Variable repl : string -> St -> outcome (string * St).
Variable src : string.

(** Left-to-right scan of [src]; [s] is the input from offset [pos] on
    and [skip] the number of bytes of [s] that still belong to the match
    replaced last.  The patterns given to it in this file match at least
    four bytes, and the package's rule for empty matches is left out: an
    empty match counts as no match. *)
Fixpoint replaceAll (s : string) (pos skip : nat) (st : St) : outcome (string * St) :=
  match s with
  | EmptyString => Returns (EmptyString, st)
  | String c s' =>
      match skip with
      | S n => replaceAll s' (S pos) n st
      | O =>
          match matchAt re s pos with
          | Some (e, _) =>
              if e <=? pos then
                '(out, st') ← replaceAll s' (S pos) 0 st;
                Returns (String c out, st')
              else
                '(r, st1) ← repl (slice src pos e) st;
                '(out, st2) ← replaceAll s' (S pos) (e - pos - 1) st1;
                Returns (r +:+ out, st2)
          | None =>
              '(out, st') ← replaceAll s' (S pos) 0 st;
              Returns (String c out, st')
          end
      end
  end.
End Replace.

(** [Regexp.ReplaceAllStringFunc] with a callback that updates state. *)
Definition ReplaceAllStringFunc {St} (re : Regexp) (src : string)
    (repl : string -> St -> outcome (string * St)) (st : St) : outcome (string * St) :=
  replaceAll re repl src src 0 0 st.

End regexp.

(** ** package grpcgateway: matching *)

(** [URIMatch] contains information related to a URI match: the fully
    qualified name of the input type of the query method, and the wildcard
    params found in the request (a nil map when there are none). *)
Record URIMatch : Type := {
  QueryInputName : string;
  Params : gmap string string
}.

#[global] Instance URIMatch_eq_dec : EqDecision URIMatch.
Proof. solve_decision. Defined.

(** [HasParams] reports whether the [URIMatch] has any params. *)
Definition HasParams (uri : URIMatch) : bool := (0 <? size (Params uri))%nat.

(** A [range] over a Go map visits every entry once, in an order that the
    language leaves open and that may differ from one loop to the next. *)
Definition rangeOrder {V} (m : gmap string V) (order : list (string * V)) : Prop :=
  order ≡ₚ map_to_list m.

(** [patternToRegex] converts a URI pattern with wildcards to a regex
    pattern; it returns the pattern and the slice of wildcard names.  The
    two callbacks append to [wildcardNames], which is threaded as state. *)
Definition patternToRegex (pattern : string) : outcome (string * list string) :=
  let escaped := regexp.QuoteMeta pattern in
  let wildcardNames : list string := [] in
  (* extract and replace {param=**} patterns *)
  r1 ← regexp.MustCompile "\\\{([^}]+?)=\\\*\\\*\\}";
  '(escaped, wildcardNames) ←
    regexp.ReplaceAllStringFunc r1 escaped (fun matched wildcardNames =>
      re ← regexp.MustCompile "\\\{(.+?)=";
      name ← index (regexp.FindStringSubmatch re matched) 1;
      mret ("(.+)", wildcardNames ++ [name])) wildcardNames;
  (* extract and replace {param} patterns *)
  r2 ← regexp.MustCompile "\\\{([^}]+)\\}";
  '(escaped, wildcardNames) ←
    regexp.ReplaceAllStringFunc r2 escaped (fun matched wildcardNames =>
      re ← regexp.MustCompile "\\\{(.*?)\\}";
      name ← index (regexp.FindStringSubmatch re matched) 1;
      mret ("([^/]+)", wildcardNames ++ [name])) wildcardNames;
  mret ("^" +:+ escaped +:+ "$", wildcardNames).

(** [for i, name := range wildcardNames { params[name] = matches[i+1] }] *)
Fixpoint fillParams (wildcardNames : list string) (i : nat) (matches : list string)
    (params : gmap string string) : outcome (gmap string string) :=
  match wildcardNames with
  | [] => Returns params
  | name :: rest =>
      v ← index (Some matches) (i + 1);
      fillParams rest (S i) matches (<[name := v]> params)
  end.

(** One turn of the loop of [matchURI] over the pattern map: [Some] is the
    match the function returns at once, [None] goes on to the next entry. *)
Definition tryPattern (uri : string) (entry : string * string) : outcome (option URIMatch) :=
  let '(getPattern, queryInputName) := entry in
  let getPattern := TrimRight getPattern "/" in
  '(regexPattern, wildcardNames) ← patternToRegex getPattern;
  regex ← regexp.MustCompile regexPattern;
  match regexp.FindStringSubmatch regex uri with
  | Some matches =>
      if (1 <? length matches)%nat then
        (* first match is the full string, subsequent matches are capture groups *)
        params ← fillParams wildcardNames 0 matches ∅;
        mret (Some {| QueryInputName := queryInputName; Params := params |})
      else mret None
  | None => mret None
  end.

Fixpoint rangePatterns (uri : string) (order : list (string * string)) : outcome (option URIMatch) :=
  match order with
  | [] => Returns None
  | entry :: rest =>
      r ← tryPattern uri entry;
      match r with
      | Some m => Returns (Some m)
      | None => rangePatterns uri rest
      end
  end.

(** [matchURI] attempts to find a match for the given URI; if no match is
    found, nil ([None]) is returned.  [order] is the order in which this
    call's [range] visits [getPatternToQueryInputName]. *)
Definition matchURI (order : list (string * string)) (uri : string)
    (getPatternToQueryInputName : gmap string string) : outcome (option URIMatch) :=
  let uri := TrimRight uri "/" in
  (* for simple cases where there are no wildcards, we can just do a map lookup. *)
  match getPatternToQueryInputName !! uri with
  | Some inputName => Returns (Some {| QueryInputName := inputName; Params := ∅ |})
  | None =>
      (* attempt to find a match in the pattern map. *)
      rangePatterns uri order
  end.

(** ** package grpcgateway: building the request message *)

Definition MaxBodySize : Z := Z.shiftl 1 20. (* 1 MB *)

(** [*p] on a possibly nil pointer. *)
Definition deref {A} (p : option A) : outcome A :=
  match p with
  | Some a => Returns a
  | None => Panics
  end.

(** The request body, an [io.ReadCloser]: the bytes it has yet to yield
    and the number of [Close] calls it has received. *)
Record ReadCloser : Type := {
  unread : list Byte.byte;
  closeCalls : nat
}.

Definition Close (body : ReadCloser) : ReadCloser :=
  {| unread := unread body; closeCalls := S (closeCalls body) |}.

(** [Read(p)] on the body, with [len] the length of [p]: the bytes stored
    in [p], whether the error is [io.EOF], and the body afterwards.  The
    body yields as many of its unread bytes as [p] takes, and [io.EOF]
    once none is left. *)
Definition Read (body : ReadCloser) (len : nat) : list Byte.byte * bool * ReadCloser :=
  match unread body with
  | [] => ([], true, body)
  | _ :: _ =>
      (take len (unread body), false,
       {| unread := drop len (unread body); closeCalls := closeCalls body |})
  end.

Module io.

(** [io.LimitedReader]: [R] is the underlying reader and [N] the number
    of bytes remaining. *)
Record LimitedReader : Type := {
  R : ReadCloser;
  N : Z
}.

(** [io.LimitReader(r, n)]: a reader that reads from [r] but stops with
    [io.EOF] after [n] bytes. *)
Definition LimitReader (r : ReadCloser) (n : Z) : LimitedReader := {| R := r; N := n |}.

(** [LimitedReader.Read]. *)
Definition Read (l : LimitedReader) (len : nat) : list Byte.byte * bool * LimitedReader :=
  if (N l <=? 0)%Z then ([], true, l)
  else
    let len := if (N l <? Z.of_nat len)%Z then Z.to_nat (N l) else len in
    let '(p, eof, r) := Read (R l) len in
    (p, eof, {| R := r; N := N l - Z.of_nat (length p) |}).

End io.

(** A function that is handed an [io.Reader], such as a decoder: it
    returns, or it calls [Read] with a buffer of [len] bytes and goes on
    with the bytes stored in it and with whether [io.EOF] came back. *)
Inductive reading (A : Type) : Type :=
| Return (a : A)
| ReadThen (len : nat) (k : list Byte.byte -> bool -> reading A).
Arguments Return {A} a.
Arguments ReadThen {A} len k.

(** The function running on a limited reader: its result and the reader
    afterwards. *)
Fixpoint readFrom {A} (f : reading A) (l : io.LimitedReader) : A * io.LimitedReader :=
  match f with
  | Return a => (a, l)
  | ReadThen len k => let '(p, eof, l') := io.Read l len in readFrom (k p eof) l'
  end.

(** The errors built with [fmt.Errorf]; [err] is the wrapped cause. *)
Inductive error : Type :=
| ErrUnknownRequestType             (* unknown request type *)
| ErrCreateInstance                 (* failed to create message instance *)
| ErrParsingBody (err : string)     (* error parsing body: %w *)
| ErrCreateDecoder (err : string)   (* failed to create decoder: %w *)
| ErrDecodeParams (err : string).   (* failed to decode params: %w *)

(** A Go result pair [(msg, err)] of which one side is nil. *)
Inductive result (A : Type) : Type :=
| Ok (a : A)
| Err (e : error).
Arguments Ok {A} a.
Arguments Err {A} e.

(** [reflect.StructField], with the tag already split into its
    [key:"value"] pairs. *)
Record StructField : Type := {
  Name : string;
  Tag : gmap string string
}.

(** [StructTag.Get]: the empty string when the key is absent. *)
Definition Get (tag : gmap string string) (key : string) : string :=
  default EmptyString (tag !! key).

Section Builder.
(** The collaborators of the builders: the gogoproto type registry,
    reflection, the JSON codec and the mapstructure decoder.  Registered
    types are pointers to generated structs. *)
Variable Message : Type.
Variable rtype : Type.
(** [gogoproto.MessageType]; [None] is the nil type. *)
Variable MessageType : string -> option rtype.
(** [reflect.New(requestType.Elem()).Interface().(gogoproto.Message)];
    [None] when the type assertion fails. *)
Variable New : rtype -> option Message.
(** [jsonpb.Unmarshal] into the message, as a function of the reader it
    is given: the error, or the message after decoding into it. *)
Variable Unmarshal : Message -> reading (string + Message).
(** The fields of [reflect.ValueOf(msg).Elem().Type()], in order. *)
Variable fieldsOf : Message -> list StructField.
(** [mapstructure.NewDecoder] with [Result: msg] and weakly typed input:
    its error, if any. *)
Variable NewDecoder : Message -> option string.
(** [decoder.Decode(fieldMap)]: the error, or the message after decoding. *)
Variable Decode : Message -> gmap string string -> string + Message.

(** [createMessageFromJSON] creates a message from the [URIMatch] given
    the JSON body in the http request; it returns the body as the reads
    of the decoder and the deferred call leave it.  The deferred [Close]
    is registered after the two early returns, and runs on the returns
    that follow it. *)
Definition createMessageFromJSON (match_ : option URIMatch) (body : ReadCloser)
    : outcome (result Message * ReadCloser) :=
  m ← deref match_;
  match MessageType (QueryInputName m) with
  | None => mret (Err ErrUnknownRequestType, body)
  | Some requestType =>
      match New requestType with
      | None => mret (Err ErrCreateInstance, body)
      | Some msg =>
          let deferred := Close in
          let limitedReader := io.LimitReader body MaxBodySize in
          let '(err, limitedReader) := readFrom (Unmarshal msg) limitedReader in
          match err with
          | inl err => mret (Err (ErrParsingBody err), deferred (io.R limitedReader))
          | inr msg => mret (Ok msg, deferred (io.R limitedReader))
          end
      end
  end.

(** The inner loop of [createMessage]: attempt to match the wildcard name
    [key] to a protobuf struct tag; the first field whose tag names it
    receives [value] in [fieldMap]. *)
Fixpoint matchField (fields : list StructField) (key value : string)
    (fieldMap : gmap string string) : outcome (gmap string string) :=
  match fields with
  | [] => Returns fieldMap
  | field :: rest =>
      let tag := Get (Tag field) "protobuf" in
      re ← regexp.MustCompile "name=(\w+)";
      let nameMatch := default [] (regexp.FindStringSubmatch re tag) in
      if (1 <? length nameMatch)%nat then
        name ← index (Some nameMatch) 1;
        if String.eqb name key
        then Returns (<[Name field := value]> fieldMap) (* break *)
        else matchField rest key value fieldMap
      else matchField rest key value fieldMap
  end.

(** [for key, value := range match.Params], in the order [order]. *)
Fixpoint rangeParams (fields : list StructField) (order : list (string * string))
    (fieldMap : gmap string string) : outcome (gmap string string) :=
  match order with
  | [] => Returns fieldMap
  | (key, value) :: rest =>
      fieldMap ← matchField fields key value fieldMap;
      rangeParams fields rest fieldMap
  end.

(** [createMessage] creates a message from the given [URIMatch].  If the
    match has params, the message is populated with the values of those
    params; otherwise an empty message is returned.  [order] is the order
    in which the [range] visits [match.Params]. *)
Definition createMessage (order : list (string * string)) (match_ : option URIMatch)
    : outcome (result Message) :=
  m ← deref match_;
  match MessageType (QueryInputName m) with
  | None => mret (Err ErrUnknownRequestType)
  | Some requestType =>
      match New requestType with
      | None => mret (Err ErrCreateInstance)
      | Some msg =>
          if HasParams m then
            fieldMap ← rangeParams (fieldsOf msg) order ∅;
            match NewDecoder msg with
            | Some err => mret (Err (ErrCreateDecoder err))
            | None =>
                match Decode msg fieldMap with
                | inl err => mret (Err (ErrDecodeParams err))
                | inr msg => mret (Ok msg)
                end
            end
          else mret (Ok msg)
      end
  end.
End Builder.

(** ** A registry to run the builders on

    One registered type, the balance query of the bank module, whose
    generated struct has the string fields [Address] and [Denom].  A
    message is the map from field names to the values set so far; the JSON
    codec reads one buffer of 512 bytes and accepts the empty object only,
    and the lenient decoder stores the strings it is given. *)
Module bank.
Definition Message : Type := gmap string string.

Definition QueryBalanceRequest : list StructField :=
  [ {| Name := "Address";
       Tag := {[ "protobuf" := "bytes,1,opt,name=address,proto3";
                 "json" := "address,omitempty" ]} |};
    {| Name := "Denom";
       Tag := {[ "protobuf" := "bytes,2,opt,name=denom,proto3";
                 "json" := "denom,omitempty" ]} |} ]%string.

Definition MessageType (name : string) : option (list StructField) :=
  if String.eqb name "cosmos.bank.v1beta1.QueryBalanceRequest"
  then Some QueryBalanceRequest else None.

Definition New (t : list StructField) : option Message := Some ∅.

Definition Unmarshal (msg : Message) : reading (string + Message) :=
  ReadThen 512 (fun p _ =>
    match p with
    | [Byte.x7b; Byte.x7d] => Return (inr msg)
    | _ => Return (inl "invalid JSON"%string)
    end).

Definition fieldsOf (msg : Message) : list StructField := QueryBalanceRequest.

Definition NewDecoder (msg : Message) : option string := None.

Definition Decode (msg : Message) (fieldMap : gmap string string) : string + Message :=
  inr (fieldMap ∪ msg).

Definition createMessageFromJSON :=
  createMessageFromJSON Message (list StructField) MessageType New Unmarshal.

Definition createMessage :=
  createMessage Message (list StructField) MessageType New fieldsOf NewDecoder Decode.
End bank.

(** The loop of [matchURI] stops at this entry for this request path: it
    returns the entry's match, or panics on it. *)
Definition candidate (uri : string) (entry : string * string) : Prop :=
  tryPattern (TrimRight uri "/") entry ≠ Returns None.

(** The wildcard names [patternToRegex] finds in a table key, and the
    number of capture groups of the pattern it is compiled to. *)
Definition wildcardsOf (getPattern : string) : outcome (list string) :=
  '(_, wildcardNames) ← patternToRegex (TrimRight getPattern "/");
  mret wildcardNames.

Definition captureGroups (getPattern : string) : outcome nat :=
  '(regexPattern, _) ← patternToRegex (TrimRight getPattern "/");
  regex ← regexp.MustCompile regexPattern;
  mret (regexp.NumSubexp regex).

(** The tokens and the items of a pattern that is the literal text [s]. *)
Definition literalTokens (s : string) : list regexp.token :=
  map (fun c => regexp.TChar (regexp.Literal c)) (list_ascii_of_string s).

Definition literalItems (s : string) : list regexp.Regexp :=
  map (fun c => regexp.Char (regexp.Literal c)) (list_ascii_of_string s).

(** The serialization name of a field, as [createMessage] reads it from the
    protobuf tag, and the field that a parameter key selects: the first one
    whose serialization name is the key. *)
Definition serializationName (field : StructField) : option string :=
  match regexp.MustCompile "name=(\w+)" with
  | Returns re =>
      match regexp.FindStringSubmatch re (Get (Tag field) "protobuf") with
      | Some (_ :: name :: _) => Some name
      | _ => None
      end
  | Panics => None
  end.

Definition fieldNamed (fields : list StructField) (key : string) : option StructField :=
  List.find (fun field => match serializationName field with
                          | Some name => String.eqb name key
                          | None => false
                          end) fields.

(** The result that [createMessageFromJSON] makes of what the decoder
    returns. *)
Definition bodyResult {Message} (err : string + Message) : result Message :=
  match err with
  | inl err => Err (ErrParsingBody err)
  | inr msg => Ok msg
  end.

(** The function reading the body itself, without a limit. *)
Fixpoint readFromBody {A} (f : reading A) (body : ReadCloser) : A * ReadCloser :=
  match f with
  | Return a => (a, body)
  | ReadThen len k => let '(p, eof, body') := Read body len in readFromBody (k p eof) body'
  end.

(** What a limited reader still has to offer: the first [N] unread bytes
    of its underlying reader. *)
Definition cut (l : io.LimitedReader) : ReadCloser :=
  {| unread := take (Z.to_nat (io.N l)) (unread (io.R l));
     closeCalls := closeCalls (io.R l) |}.

(** The body cut after its first [MaxBodySize] bytes. *)
Definition truncated (body : ReadCloser) : ReadCloser :=
  cut (io.LimitReader body MaxBodySize).

(** The text is valid UTF-8, and the text has no byte above 127. *)
Definition validUTF8 (s : string) : bool := regexp.checkUTF8 s 0.

(** [regexp/syntax] also refuses a pattern beyond its size limits
    ([ErrLarge], reached by tens of megabytes of literal text), which
    [regexp.MustCompile] above does not model.  The results that say that
    the pattern of a key compiles are stated for keys of at most 2^16
    bytes, far below those limits. *)
Definition routeSized (getPattern : string) : bool :=
  (Z.of_nat (String.length getPattern) <=? 2 ^ 16)%Z.

Fixpoint isASCII (s : string) : bool :=
  match s with
  | EmptyString => true
  | String c s' => (utf8.byte c <? 128)%N && isASCII s'
  end.

Definition headASCII (s : string) : bool :=
  match s with
  | EmptyString => true
  | String c _ => (utf8.byte c <? 128)%N
  end.

(** [strings.CutPrefix]: the rest of [s] after [prefix], when [s] starts with it. *)
Fixpoint CutPrefix (s prefix : string) {struct prefix} : option string :=
  match prefix with
  | EmptyString => Some s
  | String c prefix' =>
      match s with
      | String a s' => if Ascii.eqb a c then CutPrefix s' prefix' else None
      | EmptyString => None
      end
  end.

(** ** Templates by their parts

    A template as a sequence of literal texts and wildcards, the way
    [patternToRegex] is meant to read it: [{name}] takes one path segment
    and [{name=**}] the rest of the path. *)
Inductive segment : Type :=
| Lit (text : string)
| Single (name : string)
| Multi (name : string).

Fixpoint allWord (s : string) : bool :=
  match s with
  | EmptyString => true
  | String c s' => regexp.isword c && allWord s'
  end.

(** A literal text has no opening brace; a wildcard name is a non-empty
    run of word bytes. *)
Definition wellFormed (seg : segment) : bool :=
  match seg with
  | Lit text => negb (ContainsByte text "{")
  | Single name | Multi name => (0 <? String.length name) && allWord name
  end.

(** The template as it is written in the table. *)
Definition render (seg : segment) : string :=
  match seg with
  | Lit text => text
  | Single name => "{" +:+ name +:+ "}"
  | Multi name => "{" +:+ name +:+ "=**}"
  end.

(** The template after [QuoteMeta], after the first pass and after the
    second pass of [patternToRegex]. *)
Definition escaped (seg : segment) : string :=
  match seg with
  | Lit text => regexp.QuoteMeta text
  | Single name => "\{" +:+ name +:+ "\}"
  | Multi name => "\{" +:+ name +:+ "=\*\*\}"
  end.

Definition afterMulti (seg : segment) : string :=
  match seg with
  | Lit text => regexp.QuoteMeta text
  | Single name => "\{" +:+ name +:+ "\}"
  | Multi name => "(.+)"
  end.

Definition afterSingle (seg : segment) : string :=
  match seg with
  | Lit text => regexp.QuoteMeta text
  | Single name => "([^/]+)"
  | Multi name => "(.+)"
  end.

Definition joined (f : segment -> string) (segs : list segment) : string :=
  foldr (fun seg rest => f seg +:+ rest) EmptyString segs.

Definition multiNames (segs : list segment) : list string :=
  omap (fun seg => match seg with Multi name => Some name | _ => None end) segs.

Definition singleNames (segs : list segment) : list string :=
  omap (fun seg => match seg with Single name => Some name | _ => None end) segs.

(** The wildcard names in the order of the template. *)
Definition templateNames (segs : list segment) : list string :=
  omap (fun seg => match seg with
                   | Single name | Multi name => Some name
                   | Lit _ => None
                   end) segs.

(** No suffix of [a +:+ s] that begins inside [a] is matched by [re]. *)
Fixpoint silent (re : regexp.Regexp) (a s : string) : Prop :=
  match a with
  | EmptyString => True
  | String c a' =>
      (forall pos, regexp.matchAt re (String c (a' +:+ s)) pos = None) /\ silent re a' s
  end.

(** The text begins with an escaped opening brace, the only place where
    the two wildcard patterns can begin to match. *)
Definition startsWild (x : string) : bool :=
  match x with
  | String c x' =>
      Ascii.eqb c "\" && match x' with
                         | String d _ => Ascii.eqb d "{"
                         | EmptyString => false
                         end
  | EmptyString => false
  end.

Fixpoint quiet (a s : string) : bool :=
  match a with
  | EmptyString => true
  | String c a' => negb (startsWild (String c (a' +:+ s))) && quiet a' s
  end.

Definition headNotBrace (x : string) : bool :=
  match x with
  | String c _ => negb (Ascii.eqb c "{")
  | EmptyString => true
  end.

(** The tokens and the items of the pattern of a template; the capture
    groups are numbered from [ncap + 1] on. *)
Definition groupTokens (c : regexp.class) : list regexp.token :=
  [regexp.TOpen; regexp.TChar c; regexp.TPlus; regexp.TClose].

Definition partTokens (seg : segment) : list regexp.token :=
  match seg with
  | Lit text => literalTokens text
  | Single _ => groupTokens (regexp.NotChar "/")
  | Multi _ => groupTokens regexp.AnyCharNotNL
  end.

Definition group (i : nat) (c : regexp.class) : regexp.Regexp :=
  regexp.Capture i (regexp.concat [regexp.Repeat c 1 true]).

Fixpoint partItems (segs : list segment) (ncap : nat) : list regexp.Regexp :=
  match segs with
  | [] => []
  | Lit text :: rest => literalItems text ++ partItems rest ncap
  | Single _ :: rest => group (S ncap) (regexp.NotChar "/") :: partItems rest (S ncap)
  | Multi _ :: rest => group (S ncap) regexp.AnyCharNotNL :: partItems rest (S ncap)
  end.

(** The expression that the pattern of a template is compiled to. *)
Definition compiled (segs : list segment) : regexp.Regexp :=
  regexp.concat (regexp.BeginText :: partItems segs 0 ++ [regexp.EndText]).

(** The token may follow a literal without changing how it is parsed. *)
Definition noQuantifier (ts : list regexp.token) : bool :=
  match ts with
  | regexp.TPlus :: _ | regexp.TStar :: _ => false
  | _ => true
  end.

(** No single-segment wildcard comes before a multi-segment one. *)
Fixpoint multiFirst (segs : list segment) : bool :=
  match segs with
  | [] => true
  | Single _ :: rest => match multiNames rest with [] => true | _ :: _ => false end
  | _ :: rest => multiFirst rest
  end.

(** A wildcard name that the two passes of [patternToRegex] find as one
    single-segment wildcard: not empty, without braces and without [=]. *)
Definition plainName (n : string) : bool :=
  (0 <? String.length n) && negb (ContainsByte n "{") && negb (ContainsByte n "}")
  && negb (ContainsByte n "=").

(** A plain name without a line feed, the one byte that [.] leaves out. *)
Definition freeName (n : string) : bool :=
  plainName n && negb (ContainsByte n "010").

(** * Properties *)

(** ** Strings *)

(** On the side of the request path the trailing separator is immaterial,
    for every table. *)
Lemma TrimRight_trailing_separator (s : string) :
  TrimRight (s +:+ "/") "/" = TrimRight s "/".
Proof.
  induction s as [|c s IH]; [reflexivity|].
  change (String c s +:+ "/") with (String c (s +:+ "/")).
  cbn [TrimRight]. rewrite IH. reflexivity.
Qed.

Lemma TrimRight_clean (seg : string) :
  seg ≠ EmptyString -> ContainsByte seg "/" = false ->
  TrimRight seg "/" = seg.
Proof.
  induction seg as [|c seg IH]; intros Hne Hclean; [congruence|].
  cbn [ContainsByte] in Hclean. apply orb_false_iff in Hclean as [Hc Hclean].
  cbn [TrimRight]. destruct seg as [|c' seg'].
  - cbn [TrimRight ContainsByte]. rewrite Ascii.eqb_sym, Hc. reflexivity.
  - rewrite IH by (congruence || exact Hclean). reflexivity.
Qed.

Lemma TrimRight_after_prefix (p seg : string) :
  seg ≠ EmptyString -> ContainsByte seg "/" = false ->
  TrimRight (p +:+ seg) "/" = p +:+ seg.
Proof.
  intros Hne Hclean. induction p as [|c p IH].
  - apply TrimRight_clean; assumption.
  - change (String c p +:+ seg) with (String c (p +:+ seg)).
    cbn [TrimRight]. rewrite IH.
    destruct (p +:+ seg) eqn:Happ; [|reflexivity].
    exfalso. destruct p; [apply Hne; exact Happ | discriminate Happ].
Qed.

Lemma CutPrefix_Some (s prefix rest : string) :
  CutPrefix s prefix = Some rest <-> s = prefix +:+ rest.
Proof.
  revert s. induction prefix as [|c prefix IH]; intros s.
  - change (Some s = Some rest <-> s = rest).
    split; [intros [= ->]; reflexivity | intros ->; reflexivity].
  - change (String c prefix +:+ rest) with (String c (prefix +:+ rest)).
    destruct s as [|a s]; cbn [CutPrefix].
    + split; [discriminate | intros H; discriminate H].
    + destruct (Ascii.eqb_spec a c) as [->|Hne].
      * rewrite IH. split; [intros ->; reflexivity | intros [= ->]; reflexivity].
      * split; [discriminate | intros [= -> _]; congruence].
Qed.

Lemma substring_all (s : string) : substring 0 (String.length s) s = s.
Proof. induction s as [|a s IH]; simpl; [reflexivity | rewrite IH; reflexivity]. Qed.

Lemma substring_after_prefix (p s : string) :
  substring (String.length p) (String.length s) (p +:+ s) = s.
Proof.
  induction p as [|c p IH]; [apply substring_all | exact IH].
Qed.

(** ** Valid UTF-8 *)

Lemma append_length (a b : string) :
  String.length (a +:+ b) = String.length a + String.length b.
Proof.
  induction a as [|c a IH]; [reflexivity|].
  change (String c a +:+ b) with (String c (a +:+ b)). cbn [String.length].
  rewrite IH. reflexivity.
Qed.

Lemma append_assoc (a b c : string) : (a +:+ b) +:+ c = a +:+ (b +:+ c).
Proof.
  induction a as [|x a IH]; [reflexivity|].
  change (String x a +:+ b) with (String x (a +:+ b)).
  change (String x (a +:+ b) +:+ c) with (String x ((a +:+ b) +:+ c)).
  rewrite IH. reflexivity.
Qed.

Lemma append_empty_r (a : string) : a +:+ "" = a.
Proof.
  induction a as [|c a IH]; [reflexivity|].
  change (String c a +:+ "") with (String c (a +:+ "")). rewrite IH. reflexivity.
Qed.

Example DecodeRuneInString_examples :
  utf8.DecodeRuneInString "a" = (97%N, 1) /\
  utf8.DecodeRuneInString (String "195" (String "169" "/")) = (233%N, 2) /\
  utf8.DecodeRuneInString (String "226" (String "130" (String "172" ""))) = (8364%N, 3) /\
  utf8.DecodeRuneInString (String "239" (String "191" (String "189" ""))) = (utf8.RuneError, 3) /\
  utf8.DecodeRuneInString (String "255" "") = (utf8.RuneError, 1) /\
  utf8.DecodeRuneInString (String "195" "/") = (utf8.RuneError, 1) /\
  utf8.DecodeRuneInString (String "192" (String "128" "")) = (utf8.RuneError, 1) /\
  utf8.DecodeRuneInString (String "237" (String "160" (String "128" ""))) = (utf8.RuneError, 1).
Proof. repeat split; vm_compute; reflexivity. Qed.

Example validUTF8_examples :
  validUTF8 (String "195" (String "169" "/{x}")) = true /\
  validUTF8 (String "239" (String "191" (String "189" ""))) = true /\
  validUTF8 (String "195" "/{x}") = false /\
  validUTF8 (String "255" "") = false.
Proof. repeat split; vm_compute; reflexivity. Qed.

Lemma first_range (s0 : N) (sz : nat) (lo hi : N) :
  utf8.first s0 = Some (sz, lo, hi) -> (128 <= lo)%N /\ 2 <= sz <= 4.
Proof.
  unfold utf8.first.
  repeat match goal with
         | |- context [if ?b then _ else _] => destruct b
         end; intros [= <- <- <-]; lia.
Qed.

Lemma within_high (lo hi : N) (c : ascii) :
  (128 <= lo)%N -> (utf8.byte c <? 128)%N = true -> utf8.within lo hi c = false.
Proof.
  intros Hlo Hc. apply N.ltb_lt in Hc. unfold utf8.within.
  apply andb_false_iff. left. apply N.leb_gt. lia.
Qed.

Lemma DecodeRuneInString_ascii (c : ascii) (s : string) :
  (utf8.byte c <? 128)%N = true ->
  utf8.DecodeRuneInString (String c s) = (utf8.byte c, 1).
Proof. intros H. cbn [utf8.DecodeRuneInString]. rewrite H. reflexivity. Qed.

(** A text that follows does not change the rune that is decoded, when
    it begins with a byte below 128. *)
Lemma DecodeRuneInString_append (a b : string) :
  a <> EmptyString -> headASCII b = true ->
  utf8.DecodeRuneInString (a +:+ b) = utf8.DecodeRuneInString a.
Proof.
  intros Ha Hb. destruct a as [|c0 a]; [congruence|].
  change (String c0 a +:+ b) with (String c0 (a +:+ b)).
  cbn [utf8.DecodeRuneInString].
  destruct (utf8.byte c0 <? 128)%N; [reflexivity|].
  destruct (utf8.first (utf8.byte c0)) as [[[sz lo] hi]|] eqn:Hfirst; [|reflexivity].
  apply first_range in Hfirst as [Hlo _].
  assert (Hhead : forall lo', (128 <= lo')%N ->
            match b with
            | String c _ => utf8.within lo' hi c = false
            | EmptyString => True
            end).
  { intros lo' Hlo'. destruct b as [|c b]; [exact I|].
    apply within_high; [exact Hlo' | exact Hb]. }
  destruct a as [|c1 a].
  { change ("" +:+ b) with b. destruct b as [|c b]; [reflexivity|].
    rewrite (Hhead lo Hlo). reflexivity. }
  change (String c1 a +:+ b) with (String c1 (a +:+ b)). cbv beta iota.
  destruct (negb (utf8.within lo hi c1)); [reflexivity|].
  destruct (sz <=? 2); [reflexivity|].
  assert (Hhead' : match b with
                   | String c _ => utf8.within 128 191 c = false
                   | EmptyString => True
                   end).
  { destruct b as [|c b]; [exact I|]. apply within_high; [lia | exact Hb]. }
  destruct a as [|c2 a].
  { change ("" +:+ b) with b. destruct b as [|c b]; [reflexivity|].
    rewrite Hhead'. reflexivity. }
  change (String c2 a +:+ b) with (String c2 (a +:+ b)). cbv beta iota.
  destruct (negb (utf8.within 128 191 c2)); [reflexivity|].
  destruct (sz <=? 3); [reflexivity|].
  destruct a as [|c3 a].
  { change ("" +:+ b) with b. destruct b as [|c b]; [reflexivity|].
    rewrite Hhead'. reflexivity. }
  change (String c3 a +:+ b) with (String c3 (a +:+ b)). reflexivity.
Qed.

(** The width of a rune is at least one byte and at most the length of
    the text, and a rune of width one that is not an error is below 128. *)
Lemma DecodeRuneInString_size (c : ascii) (s : string) (rune : N) (size : nat) :
  utf8.DecodeRuneInString (String c s) = (rune, size) ->
  1 <= size <= S (String.length s).
Proof.
  cbn [utf8.DecodeRuneInString].
  destruct (utf8.byte c <? 128)%N; [intros [= <- <-]; lia|].
  destruct (utf8.first (utf8.byte c)) as [[[sz lo] hi]|]; [|intros [= <- <-]; lia].
  destruct s as [|c1 s]; [intros [= <- <-]; cbn; lia|].
  destruct (negb (utf8.within lo hi c1)); [intros [= <- <-]; cbn; lia|].
  destruct (sz <=? 2); [intros [= <- <-]; cbn; lia|].
  destruct s as [|c2 s]; [intros [= <- <-]; cbn; lia|].
  destruct (negb (utf8.within 128 191 c2)); [intros [= <- <-]; cbn; lia|].
  destruct (sz <=? 3); [intros [= <- <-]; cbn; lia|].
  destruct s as [|c3 s]; [intros [= <- <-]; cbn; lia|].
  destruct (negb (utf8.within 128 191 c3)); intros [= <- <-]; cbn; lia.
Qed.

Lemma checkUTF8_ascii_head (c : ascii) (s : string) :
  (utf8.byte c <? 128)%N = true ->
  regexp.checkUTF8 (String c s) 0 = regexp.checkUTF8 s 0.
Proof.
  intros H. cbn [regexp.checkUTF8]. rewrite (DecodeRuneInString_ascii c s H).
  apply N.ltb_lt in H.
  destruct (N.eqb_spec (utf8.byte c) utf8.RuneError) as [Heq|_];
    [unfold utf8.RuneError in Heq; lia | reflexivity].
Qed.

Lemma checkUTF8_ascii (a b : string) :
  isASCII a = true -> regexp.checkUTF8 (a +:+ b) 0 = regexp.checkUTF8 b 0.
Proof.
  induction a as [|c a IH]; intros H; [reflexivity|].
  cbn [isASCII] in H. apply andb_true_iff in H as [Hc H].
  change (String c a +:+ b) with (String c (a +:+ b)).
  rewrite (checkUTF8_ascii_head c _ Hc). exact (IH H).
Qed.

(** Validity is decided part by part where the second part begins with a
    byte below 128. *)
Lemma checkUTF8_append (b : string) :
  headASCII b = true ->
  forall a skip, skip <= String.length a ->
    regexp.checkUTF8 (a +:+ b) skip = regexp.checkUTF8 a skip && regexp.checkUTF8 b 0.
Proof.
  intros Hb. induction a as [|c a IH]; intros skip Hskip.
  - cbn [String.length] in Hskip. replace skip with 0 by lia. reflexivity.
  - change (String c a +:+ b) with (String c (a +:+ b)).
    cbn [String.length] in Hskip. cbn [regexp.checkUTF8].
    destruct skip as [|n]; [|apply IH; lia].
    change (String c (a +:+ b)) with (String c a +:+ b).
    rewrite DecodeRuneInString_append by (congruence || exact Hb).
    destruct (utf8.DecodeRuneInString (String c a)) as [rune size] eqn:Hdec.
    apply DecodeRuneInString_size in Hdec.
    destruct ((rune =? utf8.RuneError)%N && (size =? 1)); [reflexivity|].
    apply IH. lia.
Qed.

Lemma validUTF8_append (a b : string) :
  headASCII b = true -> validUTF8 (a +:+ b) = validUTF8 a && validUTF8 b.
Proof. intros Hb. apply checkUTF8_append; [exact Hb | lia]. Qed.

Lemma special_ascii (c : ascii) : regexp.special c = true -> (utf8.byte c <? 128)%N = true.
Proof.
  destruct c as [[] [] [] [] [] [] [] []]; try reflexivity; intros H; discriminate H.
Qed.

Lemma validUTF8_QuoteMeta_after (t : string) : forall h,
  validUTF8 (h +:+ regexp.QuoteMeta t) = validUTF8 (h +:+ t).
Proof.
  induction t as [|c t IH]; intros h; [reflexivity|].
  cbn [regexp.QuoteMeta]. destruct (regexp.special c) eqn:Hc.
  - apply special_ascii in Hc.
    rewrite !validUTF8_append by (cbn [headASCII]; first [exact Hc | reflexivity]).
    f_equal. unfold validUTF8.
    rewrite (checkUTF8_ascii_head "\") by reflexivity.
    rewrite !(checkUTF8_ascii_head c) by exact Hc.
    exact (IH EmptyString).
  - change (String c (regexp.QuoteMeta t)) with (String c "" +:+ regexp.QuoteMeta t).
    change (String c t) with (String c "" +:+ t).
    rewrite <- !append_assoc. apply IH.
Qed.

Lemma validUTF8_QuoteMeta (t : string) : validUTF8 (regexp.QuoteMeta t) = validUTF8 t.
Proof. exact (validUTF8_QuoteMeta_after t EmptyString). Qed.

Lemma isASCII_valid (s : string) : isASCII s = true -> validUTF8 s = true.
Proof.
  intros H. unfold validUTF8. rewrite <- (append_empty_r s).
  rewrite (checkUTF8_ascii s "" H). reflexivity.
Qed.

Lemma validUTF8_anchored (x : string) : validUTF8 ("^" +:+ x +:+ "$") = validUTF8 x.
Proof.
  unfold validUTF8. rewrite (checkUTF8_ascii "^") by reflexivity.
  fold (validUTF8 (x +:+ "$")). rewrite validUTF8_append by reflexivity.
  apply andb_true_r.
Qed.

Lemma validUTF8_literal_pattern (t : string) :
  validUTF8 ("^" +:+ regexp.QuoteMeta t +:+ "$") = validUTF8 t.
Proof. rewrite validUTF8_anchored. apply validUTF8_QuoteMeta. Qed.

Lemma TrimRight_split (s : string) :
  exists tail, s = TrimRight s "/" +:+ tail /\ isASCII tail = true.
Proof.
  induction s as [|c s (tail & IH & Htail)]; [exists EmptyString; split; reflexivity|].
  cbn [TrimRight]. destruct (TrimRight s "/") as [|d t] eqn:Htrim.
  - change ("" +:+ tail) with tail in IH. subst tail.
    destruct (ContainsByte "/" c) eqn:Hc.
    + exists (String c s). split; [reflexivity|].
      cbn [isASCII]. rewrite Htail, andb_true_r.
      cbn [ContainsByte] in Hc. rewrite orb_false_r in Hc.
      apply Ascii.eqb_eq in Hc. subst c. reflexivity.
    + exists s. split; [reflexivity | exact Htail].
  - exists tail. split; [|exact Htail].
    change (String c (String d t) +:+ tail) with (String c (String d t +:+ tail)).
    rewrite <- IH. reflexivity.
Qed.

Lemma isASCII_head (s : string) : isASCII s = true -> headASCII s = true.
Proof.
  destruct s as [|c s]; [reflexivity|]. cbn [isASCII headASCII].
  intros H. apply andb_true_iff in H as [H _]. exact H.
Qed.

Lemma validUTF8_TrimRight (s : string) : validUTF8 (TrimRight s "/") = validUTF8 s.
Proof.
  destruct (TrimRight_split s) as (tail & Hs & Htail).
  rewrite Hs at 2. rewrite validUTF8_append by (apply isASCII_head; exact Htail).
  rewrite (isASCII_valid tail Htail). symmetry. apply andb_true_r.
Qed.

(** ** The outcome monad and the regexp model *)

Lemma bind_Returns {A B} (a : A) (f : A -> outcome B) : Returns a ≫= f = f a.
Proof. reflexivity. Qed.

Lemma bind_Returns_inv {A B} (m : outcome A) (f : A -> outcome B) (b : B) :
  m ≫= f = Returns b -> exists a, m = Returns a /\ f a = Returns b.
Proof.
  destruct m as [a|]; simpl; intros H; [exists a; auto | discriminate].
Qed.

Lemma FindStringSubmatch_length (re : regexp.Regexp) (s : string) (ms : list string) :
  regexp.FindStringSubmatch re s = Some ms -> length ms = S (regexp.NumSubexp re).
Proof.
  unfold regexp.FindStringSubmatch.
  destruct (regexp.search re s 0) as [[[b e] caps]|]; [|discriminate].
  intros [= <-]. simpl. rewrite length_map, length_seq. reflexivity.
Qed.

Lemma search_unfold (re : regexp.Regexp) (s : string) (pos : nat) :
  regexp.search re s pos
  = match regexp.matchAt re s pos with
    | Some (e, caps) => Some (pos, e, caps)
    | None => match s with
              | String _ s' => regexp.search re s' (S pos)
              | EmptyString => None
              end
    end.
Proof. destruct s; reflexivity. Qed.

Lemma search_anchored (r : regexp.Regexp) (s : string) (pos : nat) :
  0 < pos -> regexp.search (regexp.Concat regexp.BeginText r) s pos = None.
Proof.
  revert pos. induction s as [|a s IH]; intros pos Hpos; simpl;
    unfold regexp.matchAt; simpl; destruct pos as [|pos]; try lia; simpl.
  - reflexivity.
  - apply IH. lia.
Qed.

Lemma backtrack_literal_prefix {R} (p : string) (r : regexp.Regexp) (s : string)
    (pos : nat) (caps : regexp.captures)
    (k : string -> nat -> regexp.captures -> option R) :
  regexp.backtrack (foldr regexp.Concat r (literalItems p)) s pos caps k
  = match CutPrefix s p with
    | Some rest => regexp.backtrack r rest (pos + String.length p) caps k
    | None => None
    end.
Proof.
  revert s pos. induction p as [|c p IH]; intros s pos.
  - simpl. rewrite Nat.add_0_r. reflexivity.
  - change (literalItems (String c p))
      with (regexp.Char (regexp.Literal c) :: literalItems p).
    cbn [foldr regexp.backtrack CutPrefix regexp.accepts].
    destruct s as [|a s]; [reflexivity|].
    destruct (Ascii.eqb a c); [|reflexivity].
    rewrite IH. cbn [String.length]. rewrite Nat.add_succ_r. reflexivity.
Qed.

Lemma repeat_until_end {R} (d : ascii) (s : string) (f : nat -> R)
    (k : string -> nat -> option R) :
  (forall s' p', k s' p' = match s' with
                           | EmptyString => Some (f p')
                           | String _ _ => None
                           end) ->
  forall min pos,
    regexp.repeat (regexp.NotChar d) true min s pos k
    = if negb (ContainsByte s d) && (min <=? String.length s)
      then Some (f (pos + String.length s)) else None.
Proof.
  intros Hk. induction s as [|a s IH]; intros min pos.
  - cbn [regexp.repeat ContainsByte String.length negb andb].
    rewrite Nat.add_0_r. destruct min; [apply Hk | reflexivity].
  - cbn [regexp.repeat ContainsByte String.length regexp.accepts].
    rewrite Hk. rewrite IH.
    replace (match min with 0 => None | S _ => None end) with (@None R)
      by (destruct min; reflexivity).
    destruct (Ascii.eqb a d); simpl; [destruct min; reflexivity|].
    rewrite Nat.add_succ_r.
    replace (Nat.pred min <=? String.length s) with (min <=? S (String.length s)).
    + destruct (negb (ContainsByte s d) && (min <=? S (String.length s)));
        reflexivity.
    + destruct min; reflexivity.
Qed.

Lemma special_escape (c : ascii) (rest : string) :
  regexp.special c = true ->
  regexp.lex (String "\" (String c rest))
  = cons (regexp.TChar (regexp.Literal c)) <$> regexp.lex rest.
Proof.
  destruct c as [[] [] [] [] [] [] [] []]; intros H; vm_compute in H;
    try discriminate H; reflexivity.
Qed.

Lemma plain_literal (c : ascii) (rest : string) :
  regexp.special c = false ->
  regexp.lex (String c rest)
  = cons (regexp.TChar (regexp.Literal c)) <$> regexp.lex rest.
Proof.
  destruct c as [[] [] [] [] [] [] [] []]; intros H; vm_compute in H;
    try discriminate H; reflexivity.
Qed.

Lemma lex_QuoteMeta (t rest : string) :
  regexp.lex (regexp.QuoteMeta t +:+ rest)
  = app (literalTokens t) <$> regexp.lex rest.
Proof.
  induction t as [|c t IH].
  - change (regexp.QuoteMeta "" +:+ rest) with rest.
    destruct (regexp.lex rest); reflexivity.
  - change (regexp.QuoteMeta (String c t))
      with (if regexp.special c
            then String "\" (String c (regexp.QuoteMeta t))
            else String c (regexp.QuoteMeta t)).
    destruct (regexp.special c) eqn:Hc.
    + change (String "\" (String c (regexp.QuoteMeta t)) +:+ rest)
        with (String "\" (String c (regexp.QuoteMeta t +:+ rest))).
      rewrite special_escape by exact Hc. rewrite IH.
      destruct (regexp.lex rest); reflexivity.
    + change (String c (regexp.QuoteMeta t) +:+ rest)
        with (String c (regexp.QuoteMeta t +:+ rest)).
      rewrite plain_literal by exact Hc. rewrite IH.
      destruct (regexp.lex rest); reflexivity.
Qed.

Lemma parse_literals (cs : list ascii) (cur : list regexp.Regexp) :
  regexp.parse (map (fun c => regexp.TChar (regexp.Literal c)) cs ++ [regexp.TEol]) [] cur 0
  = Some (regexp.concat
            (rev (regexp.EndText ::
                  rev (map (fun c => regexp.Char (regexp.Literal c)) cs) ++ cur))).
Proof.
  revert cur. induction cs as [|c cs IH]; intros cur.
  - reflexivity.
  - destruct cs as [|c' cs'].
    + reflexivity.
    + change (regexp.parse
                (map (fun c => regexp.TChar (regexp.Literal c)) (c' :: cs') ++ [regexp.TEol])
                [] (regexp.Char (regexp.Literal c) :: cur) 0
              = Some (regexp.concat
                        (rev (regexp.EndText ::
                              rev (map (fun c => regexp.Char (regexp.Literal c))
                                     (c :: c' :: cs')) ++ cur)))).
      rewrite IH. cbn [map rev]. rewrite <- !app_assoc. reflexivity.
Qed.

Lemma NumSubexp_concat (rs : list regexp.Regexp) :
  Forall (fun r => regexp.NumSubexp r = 0) rs ->
  regexp.NumSubexp (regexp.concat rs) = 0.
Proof.
  induction 1 as [|r rs Hr _ IH]; simpl; [reflexivity|].
  rewrite Hr, IH. reflexivity.
Qed.

(** The pattern of a template without wildcards compiles, to an expression
    without capture groups. *)
Lemma MustCompile_invalid (p : string) :
  validUTF8 p = false -> regexp.MustCompile p = Panics.
Proof. unfold validUTF8, regexp.MustCompile. intros ->. reflexivity. Qed.

Lemma MustCompile_literal (t : string) :
  validUTF8 t = true ->
  exists re, regexp.MustCompile ("^" +:+ regexp.QuoteMeta t +:+ "$") = Returns re /\
             regexp.NumSubexp re = 0.
Proof.
  intros Hvalid. rewrite <- validUTF8_literal_pattern in Hvalid.
  unfold regexp.MustCompile. unfold validUTF8 in Hvalid. rewrite Hvalid.
  change ("^" +:+ regexp.QuoteMeta t +:+ "$")
    with (String "^" (regexp.QuoteMeta t +:+ "$")).
  assert (Hlex : regexp.lex (String "^" (regexp.QuoteMeta t +:+ "$"))
                 = Some (regexp.TBol :: literalTokens t ++ [regexp.TEol])).
  { change (regexp.lex (String "^" (regexp.QuoteMeta t +:+ "$")))
      with (cons regexp.TBol <$> regexp.lex (regexp.QuoteMeta t +:+ "$")).
    rewrite lex_QuoteMeta. reflexivity. }
  rewrite Hlex. simpl. unfold literalTokens. rewrite parse_literals.
  eexists. split; [reflexivity|].
  apply NumSubexp_concat. apply Forall_rev. constructor; [reflexivity|].
  apply Forall_app. split.
  - apply Forall_rev. apply Forall_forall. intros r Hr.
    apply list_elem_of_fmap in Hr as (c & -> & _). reflexivity.
  - repeat constructor.
Qed.

(** ** Pattern compilation *)

Section ReplaceFacts.
Variable re : regexp.Regexp.
Variable repl : string -> list string -> outcome (string * list string).
Variable src : string.
(** Each call of the callback appends one name. *)
Hypothesis repl_appends : forall matched names r names',
  repl matched names = Returns (r, names') -> length names' = S (length names).

Lemma replaceAll_grows (s : string) : forall pos skip names out names',
  regexp.replaceAll re repl src s pos skip names = Returns (out, names') ->
  length names <= length names'.
Proof.
  induction s as [|c s IH]; intros pos skip names out names' H; simpl in H.
  - injection H as _ <-. lia.
  - destruct skip as [|n].
    + destruct (regexp.matchAt re (String c s) pos) as [[e caps]|].
      * destruct (e <=? pos).
        -- apply bind_Returns_inv in H as ([out1 names1] & H1 & H2).
           injection H2 as _ <-. eapply IH; exact H1.
        -- apply bind_Returns_inv in H as ([r names1] & H1 & H2).
           apply bind_Returns_inv in H2 as ([out2 names2] & H2 & H3).
           injection H3 as _ <-.
           apply repl_appends in H1. apply IH in H2. lia.
      * apply bind_Returns_inv in H as ([out1 names1] & H1 & H2).
        injection H2 as _ <-. eapply IH; exact H1.
    + eapply IH; exact H.
Qed.

Lemma replaceAll_unchanged (s : string) : forall pos names out names',
  regexp.replaceAll re repl src s pos 0 names = Returns (out, names') ->
  length names' <= length names -> out = s.
Proof.
  induction s as [|c s IH]; intros pos names out names' H Hlen; simpl in H.
  - injection H as <- _. reflexivity.
  - destruct (regexp.matchAt re (String c s) pos) as [[e caps]|].
    + destruct (e <=? pos).
      * apply bind_Returns_inv in H as ([out1 names1] & H1 & H2).
        injection H2 as <- <-. f_equal. eapply IH; [exact H1 | exact Hlen].
      * apply bind_Returns_inv in H as ([r names1] & H1 & H2).
        apply bind_Returns_inv in H2 as ([out2 names2] & H2 & H3).
        injection H3 as _ <-.
        apply repl_appends in H1. apply replaceAll_grows in H2. lia.
    + apply bind_Returns_inv in H as ([out1 names1] & H1 & H2).
      injection H2 as <- <-. f_equal. eapply IH; [exact H1 | exact Hlen].
Qed.
End ReplaceFacts.

Lemma callback_appends (pattern group : string) (matched : string)
    (names : list string) (r : string) (names' : list string) :
  (re ← regexp.MustCompile pattern;
   name ← index (regexp.FindStringSubmatch re matched) 1;
   mret (group, names ++ [name])) = Returns (r, names') ->
  length names' = S (length names).
Proof.
  intros H.
  apply bind_Returns_inv in H as (re & _ & H).
  apply bind_Returns_inv in H as (name & _ & H).
  injection H as _ <-. rewrite length_app. simpl. lia.
Qed.

(** A template in which [patternToRegex] finds no wildcard is compiled to
    its own escaped text between the two anchors. *)
Lemma patternToRegex_literal (t p : string) :
  patternToRegex t = Returns (p, []) -> p = "^" +:+ regexp.QuoteMeta t +:+ "$".
Proof.
  unfold patternToRegex. intros H.
  apply bind_Returns_inv in H as (r1 & _ & H).
  apply bind_Returns_inv in H as ([escaped1 names1] & Hpass1 & H).
  apply bind_Returns_inv in H as (r2 & _ & H).
  apply bind_Returns_inv in H as ([escaped2 names2] & Hpass2 & H).
  injection H as <- ->.
  unfold regexp.ReplaceAllStringFunc in Hpass1, Hpass2.
  assert (Hnames1 : names1 = []).
  { apply replaceAll_grows in Hpass2; [|intros ? ? ? ?; apply callback_appends].
    destruct names1; [reflexivity | simpl in Hpass2; lia]. }
  subst names1.
  apply replaceAll_unchanged in Hpass2;
    [| intros ? ? ? ?; apply callback_appends | simpl; lia].
  apply replaceAll_unchanged in Hpass1;
    [| intros ? ? ? ?; apply callback_appends | simpl; lia].
  subst. reflexivity.
Qed.

(** C1: the names come out in pass order, not in template order.  For the
    template [{a}/{b=**}] the compiled pattern has the group of [a] first
    and the group of [b] second, while the name list is [b; a]; on the path
    [x/y/z] the parameter [a] receives [y/z], the text of the second group,
    and [b] receives [x]. *)
Theorem wildcard_names_in_pass_order :
  patternToRegex "{a}/{b=**}" = Returns ("^([^/]+)/(.+)$"%string, ["b"; "a"]%string) /\
  rangeOrder ({[ "{a}/{b=**}" := "T" ]} : gmap string string)
    [("{a}/{b=**}", "T")]%string /\
  matchURI [("{a}/{b=**}", "T")]%string "x/y/z" {[ "{a}/{b=**}" := "T" ]}%string
  = Returns (Some {| QueryInputName := "T";
                     Params := {[ "a" := "y/z"; "b" := "x" ]}%string |}).
Proof.
  split; [ | split ].
  - vm_compute. reflexivity.
  - unfold rangeOrder. rewrite map_to_list_singleton. reflexivity.
  - vm_compute. reflexivity.
Qed.

(** When both kinds of wildcard occur in template order [**] first, the
    names and the groups do line up. *)
Example wildcard_names_aligned_when_multi_first :
  matchURI [("{b=**}/{a}", "T")]%string "x/y/z" {[ "{b=**}/{a}" := "T" ]}%string
  = Returns (Some {| QueryInputName := "T";
                     Params := {[ "a" := "z"; "b" := "x/y" ]}%string |}).
Proof. vm_compute. reflexivity. Qed.

(** ** The loop over the pattern map *)

Lemma rangeOrder_singleton {V} (k : string) (v : V) (order : list (string * V)) :
  rangeOrder {[ k := v ]} order -> order = [(k, v)].
Proof.
  unfold rangeOrder. rewrite map_to_list_singleton.
  apply Permutation_singleton_r.
Qed.

Lemma rangeOrder_elem_of {V} (m : gmap string V) order k v :
  rangeOrder m order -> (k, v) ∈ order <-> m !! k = Some v.
Proof.
  unfold rangeOrder. intros Hp. rewrite Hp. apply elem_of_map_to_list.
Qed.

Lemma rangeOrder_NoDup_keys {V} (m : gmap string V) (order : list (string * V)) :
  rangeOrder m order -> NoDup (order.*1).
Proof.
  unfold rangeOrder. intros ->. apply NoDup_fst_map_to_list.
Qed.

Lemma tryPattern_decides (uri : string) (entry : string * string) :
  tryPattern uri entry = Returns None \/ tryPattern uri entry ≠ Returns None.
Proof.
  destruct (tryPattern uri entry) as [[m|]|]; [right | left | right]; congruence.
Qed.

Lemma rangePatterns_all_none (uri : string) (order : list (string * string)) :
  (forall e, e ∈ order -> tryPattern uri e = Returns None) ->
  rangePatterns uri order = Returns None.
Proof.
  induction order as [|entry rest IH]; intros Hall; simpl.
  - reflexivity.
  - rewrite (Hall entry) by (left). simpl.
    apply IH. intros e He. apply Hall. right. exact He.
Qed.

Lemma rangePatterns_only (uri : string) (order : list (string * string))
    (e : string * string) :
  e ∈ order ->
  (forall e', e' ∈ order -> e' ≠ e -> tryPattern uri e' = Returns None) ->
  rangePatterns uri order = tryPattern uri e.
Proof.
  induction order as [|entry rest IH]; intros Hin Hothers.
  - inversion Hin.
  - simpl. destruct (decide (entry = e)) as [->|Hne].
    + destruct (tryPattern uri e) as [[m|]|] eqn:He; simpl; try reflexivity.
      apply rangePatterns_all_none. intros e' He'.
      destruct (decide (e' = e)) as [->|Hne']; [exact He|].
      apply Hothers; [right; exact He' | exact Hne'].
    + rewrite (Hothers entry) by (left || exact Hne). simpl.
      apply IH.
      * apply elem_of_cons in Hin as [Heq|Hin]; [congruence | exact Hin].
      * intros e' He' Hne'. apply Hothers; [right; exact He' | exact Hne'].
Qed.

Lemma rangePatterns_some_candidate (uri : string) (order : list (string * string)) :
  (forall e, e ∈ order -> tryPattern uri e = Returns None) \/
  (exists e, e ∈ order /\ tryPattern uri e ≠ Returns None).
Proof.
  induction order as [|entry rest IH].
  - left. intros e He. inversion He.
  - destruct (tryPattern_decides uri entry) as [Hnone|Hsome].
    + destruct IH as [Hall|(e & He & Hsome)].
      * left. intros e He. apply elem_of_cons in He as [->|He]; auto.
      * right. exists e. split; [right; exact He | exact Hsome].
    + right. exists entry. split; [left | exact Hsome].
Qed.

Lemma rangePatterns_order_irrelevant (uri : string) (o1 o2 : list (string * string)) :
  o1 ≡ₚ o2 ->
  (forall e1 e2, e1 ∈ o1 -> e2 ∈ o1 ->
     tryPattern uri e1 ≠ Returns None -> tryPattern uri e2 ≠ Returns None -> e1 = e2) ->
  rangePatterns uri o1 = rangePatterns uri o2.
Proof.
  intros Hperm Hunique.
  destruct (rangePatterns_some_candidate uri o1) as [Hall|(e & He & Hsome)].
  - rewrite (rangePatterns_all_none uri o1 Hall).
    symmetry. apply rangePatterns_all_none.
    intros e He. apply Hall. rewrite Hperm. exact He.
  - assert (Hothers : forall e', e' ∈ o1 -> e' ≠ e -> tryPattern uri e' = Returns None).
    { intros e' He' Hne. destruct (tryPattern_decides uri e') as [Hn|Hs]; [exact Hn|].
      exfalso. apply Hne. apply Hunique; assumption. }
    rewrite (rangePatterns_only uri o1 e He Hothers).
    symmetry. apply rangePatterns_only.
    + rewrite <- Hperm. exact He.
    + intros e' He' Hne. apply Hothers; [rewrite Hperm; exact He' | exact Hne].
Qed.

Lemma rangePatterns_skip (uri : string) (o1 o2 : list (string * string))
    (entry : string * string) :
  tryPattern uri entry = Returns None ->
  rangePatterns uri (o1 ++ entry :: o2) = rangePatterns uri (o1 ++ o2).
Proof.
  intros Hnone. induction o1 as [|e o1 IH]; simpl.
  - rewrite Hnone. reflexivity.
  - destruct (tryPattern uri e) as [[m|]|]; simpl; [reflexivity | exact IH | reflexivity].
Qed.

Lemma tryPattern_no_groups (uri getPattern queryInputName : string) :
  captureGroups getPattern = Returns 0 ->
  tryPattern uri (getPattern, queryInputName) = Returns None.
Proof.
  unfold captureGroups, tryPattern. intros H.
  apply bind_Returns_inv in H as ([regexPattern wildcardNames] & Hcompile & H).
  apply bind_Returns_inv in H as (regex & Hregex & H).
  injection H as Hzero.
  rewrite Hcompile. simpl. rewrite Hregex. simpl.
  destruct (regexp.FindStringSubmatch regex uri) as [matches|] eqn:Hfind; [|reflexivity].
  apply FindStringSubmatch_length in Hfind. rewrite Hfind, Hzero. reflexivity.
Qed.

Lemma captureGroups_literal (getPattern : string) :
  wildcardsOf getPattern = Returns [] ->
  captureGroups getPattern
  = if validUTF8 (TrimRight getPattern "/") then Returns 0 else Panics.
Proof.
  unfold wildcardsOf, captureGroups. intros H.
  apply bind_Returns_inv in H as ([regexPattern wildcardNames] & Hcompile & H).
  injection H as ->. rewrite Hcompile. simpl.
  apply patternToRegex_literal in Hcompile. subst regexPattern.
  destruct (validUTF8 (TrimRight getPattern "/")) eqn:Hvalid.
  - destruct (MustCompile_literal (TrimRight getPattern "/") Hvalid) as (re & -> & Hzero).
    simpl. rewrite Hzero. reflexivity.
  - rewrite MustCompile_invalid by (rewrite validUTF8_literal_pattern; exact Hvalid).
    reflexivity.
Qed.

(** The turn of the loop on a key in which no wildcard is found: no match
    when the key is valid UTF-8, and a panic of [regexp.MustCompile] when
    it is not. *)
Lemma tryPattern_literal (uri getPattern queryInputName : string) :
  wildcardsOf getPattern = Returns [] ->
  tryPattern uri (getPattern, queryInputName)
  = if validUTF8 (TrimRight getPattern "/") then Returns None else Panics.
Proof.
  intros H. pose proof (captureGroups_literal getPattern H) as Hgroups.
  destruct (validUTF8 (TrimRight getPattern "/")) eqn:Hvalid.
  - apply tryPattern_no_groups. exact Hgroups.
  - unfold wildcardsOf in H. unfold tryPattern.
    apply bind_Returns_inv in H as ([regexPattern wildcardNames] & Hcompile & H).
    injection H as ->. rewrite Hcompile, bind_Returns. cbv beta iota.
    apply patternToRegex_literal in Hcompile. subst regexPattern.
    rewrite MustCompile_invalid by (rewrite validUTF8_literal_pattern; exact Hvalid).
    reflexivity.
Qed.

(** ** Lookup and loop in [matchURI] *)

(** C5: when the trimmed request path is a key of the table, [matchURI]
    returns that key's type name with no parameters, whatever the order of
    the loop and whatever wildcard templates the table holds. *)
Theorem exact_match_priority (order : list (string * string)) (uri : string)
    (tbl : gmap string string) (inputName : string) :
  tbl !! TrimRight uri "/" = Some inputName ->
  matchURI order uri tbl = Returns (Some {| QueryInputName := inputName; Params := ∅ |}).
Proof.
  intros Hkey. unfold matchURI. rewrite Hkey. reflexivity.
Qed.

Lemma exact_match_priority_witness :
  matchURI [("a/{x}", "T2"); ("a/b", "T1")]%string "a/b"
    {[ "a/b" := "T1"; "a/{x}" := "T2" ]}%string
  = Returns (Some {| QueryInputName := "T1"; Params := ∅ |}).
Proof.
  apply exact_match_priority. vm_compute. reflexivity.
Defined.

(** C10: a table key whose compiled pattern has no capture group never
    yields a match in the loop of [matchURI], for any path, and the loop
    gives the same result without it.  A key in which no wildcard is
    found has such a pattern when it is valid UTF-8 (and of the size of a
    route); when it is not valid UTF-8, its pattern does not compile and
    its turn of the loop panics.  Either way the loop never returns a
    match for the key: it is only ever matched by the lookup of the
    trimmed path among the keys as they are stored. *)
Theorem literal_template_only_by_lookup (getPattern queryInputName : string) :
  captureGroups getPattern = Returns 0 \/ wildcardsOf getPattern = Returns [] ->
  (forall uri r, tryPattern uri (getPattern, queryInputName) <> Returns (Some r)) /\
  (captureGroups getPattern = Returns 0 ->
   (forall uri, tryPattern uri (getPattern, queryInputName) = Returns None) /\
   (forall uri o1 o2 tbl,
      matchURI (o1 ++ (getPattern, queryInputName) :: o2) uri tbl
      = matchURI (o1 ++ o2) uri tbl)) /\
  (wildcardsOf getPattern = Returns [] ->
   if validUTF8 getPattern
   then routeSized getPattern = true -> captureGroups getPattern = Returns 0
   else captureGroups getPattern = Panics /\
        (forall uri, tryPattern uri (getPattern, queryInputName) = Panics)).
Proof.
  intros Hliteral.
  assert (Hzero : captureGroups getPattern = Returns 0 ->
            forall uri, tryPattern uri (getPattern, queryInputName) = Returns None).
  { intros H uri. apply tryPattern_no_groups. exact H. }
  split; [ | split ].
  - intros uri r. destruct Hliteral as [H|H].
    + rewrite (Hzero H). discriminate.
    + rewrite (tryPattern_literal uri _ _ H).
      destruct (validUTF8 (TrimRight getPattern "/")); discriminate.
  - intros H. split; [exact (Hzero H)|].
    intros uri o1 o2 tbl. unfold matchURI.
    destruct (tbl !! TrimRight uri "/"); [reflexivity|].
    apply rangePatterns_skip. apply (Hzero H).
  - intros H. pose proof (captureGroups_literal _ H) as Hgroups.
    pose proof (fun uri => tryPattern_literal uri getPattern queryInputName H) as Htry.
    rewrite validUTF8_TrimRight in Hgroups.
    destruct (validUTF8 getPattern) eqn:Hvalid.
    + intros _. exact Hgroups.
    + split; [exact Hgroups|]. intros uri. rewrite Htry, validUTF8_TrimRight, Hvalid.
      reflexivity.
Qed.

Lemma literal_template_only_by_lookup_witness :
  (forall uri r, tryPattern uri ("a/b/", "T")%string <> Returns (Some r)) /\
  (captureGroups "a/b/" = Returns 0 ->
   (forall uri, tryPattern uri ("a/b/", "T")%string = Returns None) /\
   (forall uri o1 o2 tbl,
      matchURI (o1 ++ ("a/b/", "T")%string :: o2) uri tbl = matchURI (o1 ++ o2) uri tbl)) /\
  (wildcardsOf "a/b/" = Returns [] ->
   if validUTF8 "a/b/"
   then routeSized "a/b/" = true -> captureGroups "a/b/" = Returns 0
   else captureGroups "a/b/" = Panics /\
        (forall uri, tryPattern uri ("a/b/", "T")%string = Panics)).
Proof.
  apply (literal_template_only_by_lookup "a/b/" "T").
  right. vm_compute. reflexivity.
Defined.

(** A key that is not valid UTF-8, here the single byte 0xFF: the pattern
    made of it is refused by [regexp.MustCompile]. *)
Example key_not_valid_UTF8_panics :
  wildcardsOf (String "255" "") = Returns [] /\
  tryPattern "a" (String "255" "", "T"%string) = Panics /\
  matchURI [(String "255" "", "T"%string)] "a" {[ String "255" "" := "T"%string ]} = Panics.
Proof. repeat split; vm_compute; reflexivity. Qed.

(** A table whose keys all compile to patterns without capture groups is
    matched by lookup alone. *)
Lemma matchURI_literal_table (order : list (string * string)) (uri : string)
    (tbl : gmap string string) :
  (forall e, e ∈ order -> captureGroups e.1 = Returns 0) ->
  matchURI order uri tbl
  = Returns ((fun inputName => {| QueryInputName := inputName; Params := ∅ |})
               <$> tbl !! TrimRight uri "/").
Proof.
  intros Hall. unfold matchURI.
  destruct (tbl !! TrimRight uri "/"); [reflexivity|].
  simpl. apply rangePatterns_all_none.
  intros [k v] He. apply tryPattern_no_groups. exact (Hall _ He).
Qed.

Lemma matchURI_trailing_separator (order : list (string * string)) (uri : string)
    (tbl : gmap string string) :
  matchURI order (uri +:+ "/") tbl = matchURI order uri tbl.
Proof.
  unfold matchURI. rewrite TrimRight_trailing_separator. reflexivity.
Qed.

(** A wildcard template stored with a trailing separator is matched: the
    loop trims the key before compiling it. *)
Example wildcard_template_with_trailing_separator :
  matchURI [("a/{x}/", "T")]%string "a/1" {[ "a/{x}/" := "T" ]}%string
  = Returns (Some {| QueryInputName := "T"; Params := {[ "x" := "1" ]}%string |}).
Proof. vm_compute. reflexivity. Qed.

(** C3: a literal template stored with a trailing separator matches neither
    the path without the separator nor the path with it: the lookup is made
    with the trimmed path against the stored key, and the loop does not
    accept a pattern without capture groups. *)
Theorem literal_template_with_trailing_separator_unmatched :
  rangeOrder ({[ "a/b/" := "T" ]} : gmap string string) [("a/b/", "T")]%string /\
  matchURI [("a/b/", "T")]%string "a/b" {[ "a/b/" := "T" ]}%string = Returns None /\
  matchURI [("a/b/", "T")]%string "a/b/" {[ "a/b/" := "T" ]}%string = Returns None.
Proof.
  split; [ | split ].
  - unfold rangeOrder. rewrite map_to_list_singleton. reflexivity.
  - vm_compute. reflexivity.
  - vm_compute. reflexivity.
Qed.

(** C4, as stated, fails: the table below has two wildcard templates that
    match the path [a/b], and the two orders in which a loop may visit it
    give two different results. *)
Lemma matchURI_depends_on_range_order :
  rangeOrder ({[ "a/{x}" := "T1"; "{y}/b" := "T2" ]}%string : gmap string string)
    [("a/{x}", "T1"); ("{y}/b", "T2")]%string /\
  rangeOrder ({[ "a/{x}" := "T1"; "{y}/b" := "T2" ]}%string : gmap string string)
    [("{y}/b", "T2"); ("a/{x}", "T1")]%string /\
  matchURI [("a/{x}", "T1"); ("{y}/b", "T2")]%string "a/b"
    {[ "a/{x}" := "T1"; "{y}/b" := "T2" ]}%string
  = Returns (Some {| QueryInputName := "T1"; Params := {[ "x" := "b" ]}%string |}) /\
  matchURI [("{y}/b", "T2"); ("a/{x}", "T1")]%string "a/b"
    {[ "a/{x}" := "T1"; "{y}/b" := "T2" ]}%string
  = Returns (Some {| QueryInputName := "T2"; Params := {[ "y" := "a" ]}%string |}) /\
  matchURI [("a/{x}", "T1"); ("{y}/b", "T2")]%string "a/b"
    {[ "a/{x}" := "T1"; "{y}/b" := "T2" ]}%string
  ≠ matchURI [("{y}/b", "T2"); ("a/{x}", "T1")]%string "a/b"
      {[ "a/{x}" := "T1"; "{y}/b" := "T2" ]}%string.
Proof.
  assert (Hlist : map_to_list ({[ "a/{x}" := "T1"; "{y}/b" := "T2" ]}%string
                                 : gmap string string)
                  ≡ₚ [("a/{x}", "T1"); ("{y}/b", "T2")]%string).
  { rewrite map_to_list_insert by (vm_compute; reflexivity).
    rewrite map_to_list_singleton. reflexivity. }
  assert (H1 : matchURI [("a/{x}", "T1"); ("{y}/b", "T2")]%string "a/b"
                 {[ "a/{x}" := "T1"; "{y}/b" := "T2" ]}%string
               = Returns (Some {| QueryInputName := "T1";
                                  Params := {[ "x" := "b" ]}%string |}))
    by (vm_compute; reflexivity).
  assert (H2 : matchURI [("{y}/b", "T2"); ("a/{x}", "T1")]%string "a/b"
                 {[ "a/{x}" := "T1"; "{y}/b" := "T2" ]}%string
               = Returns (Some {| QueryInputName := "T2";
                                  Params := {[ "y" := "a" ]}%string |}))
    by (vm_compute; reflexivity).
  split; [ | split; [ | split; [ | split ] ] ].
  - unfold rangeOrder. rewrite Hlist. reflexivity.
  - unfold rangeOrder. rewrite Hlist. apply perm_swap.
  - exact H1.
  - exact H2.
  - rewrite H1, H2. intros Heq. inversion Heq.
Qed.

(** C4, amended: [matchURI] is a function of the path, the table and the
    order of the loop, and returns its result without writing to the table.
    Two calls on the same path and table agree whenever the trimmed path is
    a key of the table, or at most one entry of the table stops the loop. *)
Theorem matchURI_deterministic (uri : string) (tbl : gmap string string)
    (o1 o2 : list (string * string)) :
  rangeOrder tbl o1 -> rangeOrder tbl o2 ->
  is_Some (tbl !! TrimRight uri "/") \/
  (forall e1 e2, e1 ∈ o1 -> e2 ∈ o1 -> candidate uri e1 -> candidate uri e2 -> e1 = e2) ->
  matchURI o1 uri tbl = matchURI o2 uri tbl.
Proof.
  intros Ho1 Ho2 Hcase. unfold matchURI.
  destruct (tbl !! TrimRight uri "/") as [inputName|] eqn:Hkey; [reflexivity|].
  destruct Hcase as [[x Hx]|Hunique]; [discriminate|].
  apply rangePatterns_order_irrelevant.
  - unfold rangeOrder in Ho1, Ho2. rewrite Ho1, Ho2. reflexivity.
  - exact Hunique.
Qed.

Lemma matchURI_deterministic_witness :
  matchURI [("a/{x}", "T1"); ("b/{y}", "T2")]%string "a/c"
    {[ "a/{x}" := "T1"; "b/{y}" := "T2" ]}%string
  = matchURI [("b/{y}", "T2"); ("a/{x}", "T1")]%string "a/c"
      {[ "a/{x}" := "T1"; "b/{y}" := "T2" ]}%string.
Proof.
  assert (Hlist : map_to_list ({[ "a/{x}" := "T1"; "b/{y}" := "T2" ]}%string
                                 : gmap string string)
                  ≡ₚ [("a/{x}", "T1"); ("b/{y}", "T2")]%string).
  { rewrite map_to_list_insert by (vm_compute; reflexivity).
    rewrite map_to_list_singleton. reflexivity. }
  apply matchURI_deterministic.
  - unfold rangeOrder. rewrite Hlist. reflexivity.
  - unfold rangeOrder. rewrite Hlist. apply perm_swap.
  - right. intros e1 e2 He1 He2 Hc1 Hc2.
    assert (Hb : ~ candidate "a/c" ("b/{y}", "T2")%string).
    { intros Hc. apply Hc. vm_compute. reflexivity. }
    apply elem_of_cons in He1 as [->|He1]; apply elem_of_cons in He2 as [->|He2];
      try reflexivity;
      repeat match goal with
             | H : _ ∈ [_] |- _ => apply list_elem_of_singleton in H; subst
             | H : _ ∈ [] |- _ => inversion H
             end;
      try reflexivity; contradiction.
Defined.

(** ** The template [foo/bar/{baz}] on every path *)

Lemma baz_pattern :
  patternToRegex "foo/bar/{baz}" = Returns ("^foo/bar/([^/]+)$"%string, ["baz"%string]).
Proof. vm_compute. reflexivity. Qed.

Lemma baz_regex :
  regexp.MustCompile "^foo/bar/([^/]+)$"
  = Returns (regexp.Concat regexp.BeginText
               (foldr regexp.Concat
                  (regexp.Concat
                     (regexp.Capture 1
                        (regexp.Concat (regexp.Repeat (regexp.NotChar "/") 1 true)
                           regexp.EmptyMatch))
                     (regexp.Concat regexp.EndText regexp.EmptyMatch))
                  (literalItems "foo/bar/"))).
Proof. vm_compute. reflexivity. Qed.

Lemma tryPattern_baz (path inputName : string) :
  tryPattern path ("foo/bar/{baz}"%string, inputName)
  = Returns match CutPrefix path "foo/bar/" with
            | Some seg =>
                if negb (ContainsByte seg "/") && (1 <=? String.length seg)
                then Some {| QueryInputName := inputName;
                             Params := {[ "baz"%string := seg ]} |}
                else None
            | None => None
            end.
Proof.
  unfold tryPattern.
  change (TrimRight "foo/bar/{baz}" "/") with "foo/bar/{baz}"%string.
  rewrite baz_pattern, bind_Returns. cbv beta iota.
  rewrite baz_regex, bind_Returns.
  unfold regexp.FindStringSubmatch. rewrite search_unfold.
  unfold regexp.matchAt at 1. cbn [regexp.backtrack Nat.eqb].
  rewrite backtrack_literal_prefix.
  destruct (CutPrefix path "foo/bar/") as [seg|] eqn:Hcut.
  - cbn [regexp.backtrack].
    erewrite (repeat_until_end "/" seg
                (fun p' => (p', [(1, (0 + String.length "foo/bar/", p'))])));
      [|intros [|a s'] p'; reflexivity].
    destruct (negb (ContainsByte seg "/") && (1 <=? String.length seg)).
    + apply CutPrefix_Some in Hcut. subst path.
      assert (Hslice : regexp.slice ("foo/bar/" +:+ seg) (0 + String.length "foo/bar/")
                         (0 + String.length "foo/bar/" + String.length seg) = seg).
      { unfold regexp.slice.
        replace (0 + String.length "foo/bar/" + String.length seg
                 - (0 + String.length "foo/bar/")) with (String.length seg) by lia.
        apply substring_after_prefix. }
      match goal with
      | |- context [regexp.NumSubexp ?r] => change (regexp.NumSubexp r) with 1
      end.
      cbn [seq map regexp.cap_lookup Nat.eqb]. rewrite Hslice.
      reflexivity.
    + destruct path as [|a path]; [reflexivity|].
      rewrite search_anchored by lia. reflexivity.
  - destruct path as [|a path]; [reflexivity|].
    rewrite search_anchored by lia. reflexivity.
Qed.

(** C6: with the template [foo/bar/{baz}], the path [foo/bar/qux] yields
    the parameters [{baz: qux}] and the path [foo/bar/qux/extra] yields no
    match.  More generally the wildcard takes exactly one segment: every
    path [foo/bar/seg] with [seg] a non-empty text without separator is
    matched with [{baz: seg}] (the path that spells the template itself is
    found by the lookup, without parameters), and no other path is
    matched. *)
Theorem single_segment_wildcard (inputName : string) (order : list (string * string)) :
  rangeOrder {[ "foo/bar/{baz}"%string := inputName ]} order ->
  matchURI order "foo/bar/qux" {[ "foo/bar/{baz}"%string := inputName ]}
  = Returns (Some {| QueryInputName := inputName;
                     Params := {[ "baz" := "qux" ]}%string |}) /\
  matchURI order "foo/bar/qux/extra" {[ "foo/bar/{baz}"%string := inputName ]}
  = Returns None /\
  (forall seg : string,
     seg ≠ EmptyString -> ContainsByte seg "/" = false -> seg ≠ "{baz}"%string ->
     matchURI order ("foo/bar/" +:+ seg) {[ "foo/bar/{baz}"%string := inputName ]}
     = Returns (Some {| QueryInputName := inputName;
                        Params := {[ "baz"%string := seg ]} |})) /\
  (forall (uri : string) (r : URIMatch),
     matchURI order uri {[ "foo/bar/{baz}"%string := inputName ]} = Returns (Some r) ->
     exists seg : string,
       TrimRight uri "/" = "foo/bar/" +:+ seg /\
       seg ≠ EmptyString /\ ContainsByte seg "/" = false /\
       (Params r = {[ "baz"%string := seg ]} \/
        seg = "{baz}"%string /\ Params r = ∅)).
Proof.
  intros Horder. apply rangeOrder_singleton in Horder. subst order.
  split; [vm_compute; reflexivity | split; [vm_compute; reflexivity | split]].
  - intros seg Hne Hclean Hother. unfold matchURI.
    rewrite TrimRight_after_prefix by assumption.
    rewrite lookup_singleton_ne.
    + cbn [rangePatterns]. rewrite tryPattern_baz.
      rewrite (proj2 (CutPrefix_Some ("foo/bar/" +:+ seg) "foo/bar/" seg) eq_refl).
      rewrite Hclean.
      destruct seg as [|a seg]; [congruence | reflexivity].
    + intros Heq. apply Hother. symmetry.
      apply CutPrefix_Some in Heq. injection Heq as Heq. exact Heq.
  - intros uri r. unfold matchURI.
    destruct (({[ "foo/bar/{baz}"%string := inputName ]} : gmap string string)
                !! TrimRight uri "/") as [name|] eqn:Hkey.
    + apply lookup_singleton_Some in Hkey as [<- <-]. intros [= <-].
      exists "{baz}"%string.
      split; [reflexivity | split; [discriminate | split; [reflexivity|]]].
      right. split; reflexivity.
    + cbn [rangePatterns]. rewrite tryPattern_baz, bind_Returns.
      destruct (CutPrefix (TrimRight uri "/") "foo/bar/") as [seg|] eqn:Hcut;
        [|discriminate].
      destruct (negb (ContainsByte seg "/") && (1 <=? String.length seg)) eqn:Hok;
        [|discriminate].
      intros [= <-]. apply andb_true_iff in Hok as [Hclean Hlen].
      apply negb_true_iff in Hclean. apply Nat.leb_le in Hlen.
      exists seg. split; [apply CutPrefix_Some; exact Hcut|].
      split; [intros ->; simpl in Hlen; lia|].
      split; [exact Hclean | left; reflexivity].
Qed.

Lemma single_segment_wildcard_witness :
  matchURI [("foo/bar/{baz}", "T")]%string "foo/bar/qux" {[ "foo/bar/{baz}" := "T" ]}%string
  = Returns (Some {| QueryInputName := "T"; Params := {[ "baz" := "qux" ]}%string |}) /\
  matchURI [("foo/bar/{baz}", "T")]%string "foo/bar/qux/extra"
    {[ "foo/bar/{baz}" := "T" ]}%string
  = Returns None.
Proof.
  destruct (single_segment_wildcard "T" [("foo/bar/{baz}", "T")]%string)
    as (Hqux & Hextra & _).
  - unfold rangeOrder. rewrite map_to_list_singleton. reflexivity.
  - split; [exact Hqux | exact Hextra].
Defined.

(** The multi-segment wildcard takes the rest of the path, separators
    included. *)
Example multi_segment_wildcard :
  matchURI [("foo/{rest=**}", "T")]%string "foo/a/b/c" {[ "foo/{rest=**}" := "T" ]}%string
  = Returns (Some {| QueryInputName := "T"; Params := {[ "rest" := "a/b/c" ]}%string |}).
Proof. vm_compute. reflexivity. Qed.

(** ** Reading through the limit *)

Lemma drop_take_limit {A} (u : list A) (len n : nat) :
  drop len (take n u)
  = take (n - length (take (Nat.min len n) u)) (drop (Nat.min len n) u).
Proof.
  rewrite skipn_firstn_comm, length_take.
  destruct (Nat.le_gt_cases len n) as [Hle|Hgt].
  - rewrite (Nat.min_l len n Hle).
    destruct (Nat.le_gt_cases len (length u)) as [Hu|Hu].
    + rewrite (Nat.min_l _ _ Hu). reflexivity.
    + rewrite (drop_ge u len) by lia. rewrite !take_nil. reflexivity.
  - rewrite (Nat.min_r len n) by lia.
    replace (n - len) with 0 by lia. rewrite take_0.
    destruct (Nat.le_gt_cases n (length u)) as [Hu|Hu].
    + rewrite (Nat.min_l _ _ Hu), Nat.sub_diag, take_0. reflexivity.
    + rewrite (drop_ge u n) by lia. rewrite take_nil. reflexivity.
Qed.

(** One [Read] on the limited reader is one [Read] on what it still has to
    offer; the bytes it yields are taken off the underlying reader, and
    off the number of bytes remaining. *)
Lemma Read_limited (l : io.LimitedReader) (len : nat) :
  (0 <= io.N l)%Z ->
  exists p eof l',
    io.Read l len = (p, eof, l') /\
    Read (cut l) len = (p, eof, cut l') /\
    unread (io.R l) = p ++ unread (io.R l') /\
    closeCalls (io.R l') = closeCalls (io.R l) /\
    io.N l' = (io.N l - Z.of_nat (length p))%Z /\
    (0 <= io.N l')%Z.
Proof.
  destruct l as [[u calls] n]. cbn [io.N io.R unread closeCalls]. intros Hn.
  unfold io.Read, cut, Read. cbn [io.N io.R unread closeCalls].
  destruct (Z.leb_spec n 0) as [Hzero|Hpos].
  - assert (n = 0%Z) by lia. subst n.
    exists [], true, {| io.R := {| unread := u; closeCalls := calls |}; io.N := 0 |}.
    cbn [io.N io.R unread closeCalls app length].
    change (Z.to_nat 0) with 0. rewrite take_0. repeat split; lia.
  - destruct u as [|b u].
    + exists [], true, {| io.R := {| unread := []; closeCalls := calls |}; io.N := n |}.
      cbn [io.N io.R unread closeCalls app length]. rewrite take_nil, Z.sub_0_r.
      repeat split; lia.
    + set (body := b :: u).
      set (len' := if (n <? Z.of_nat len)%Z then Z.to_nat n else len).
      assert (Hlen' : len' = Nat.min len (Z.to_nat n)).
      { unfold len'. destruct (Z.ltb_spec n (Z.of_nat len)); lia. }
      exists (take len' body), false,
        {| io.R := {| unread := drop len' body; closeCalls := calls |};
           io.N := n - Z.of_nat (length (take len' body)) |}.
      cbn [io.N io.R unread closeCalls].
      assert (Hfirst : exists b' u', take (Z.to_nat n) body = b' :: u').
      { destruct (Z.to_nat n) as [|k] eqn:Hk; [lia|]. exists b, (take k u). reflexivity. }
      destruct Hfirst as (b' & u' & Hfirst).
      split; [reflexivity|]. split.
      * rewrite Hfirst, <- Hfirst. f_equal; [f_equal|].
        -- rewrite take_take, Hlen'. reflexivity.
        -- f_equal. rewrite drop_take_limit, <- Hlen'. f_equal.
           rewrite length_take. pose proof (length_take body len') as Hp.
           rewrite length_take in Hp. lia.
      * split; [symmetry; apply take_drop|]. split; [reflexivity|].
        split; [reflexivity|]. rewrite length_take. lia.
Qed.

(** A function that reads through the limit runs as it does on the body
    cut at the limit, and what it reads is a prefix of the body. *)
Lemma readFrom_cut {A} (f : reading A) : forall l : io.LimitedReader,
  (0 <= io.N l)%Z ->
  exists read,
    readFromBody f (cut l) = ((readFrom f l).1, cut (readFrom f l).2) /\
    unread (io.R l) = read ++ unread (io.R (readFrom f l).2) /\
    closeCalls (io.R (readFrom f l).2) = closeCalls (io.R l) /\
    io.N (readFrom f l).2 = (io.N l - Z.of_nat (length read))%Z /\
    (0 <= io.N (readFrom f l).2)%Z.
Proof.
  induction f as [a|len k IH]; intros l Hl.
  - exists []. cbn [readFrom readFromBody fst snd app length].
    repeat split; lia.
  - destruct (Read_limited l len Hl) as (p & eof & l' & Hio & Hcut & Hu & Hc & Hn & Hl').
    cbn [readFrom readFromBody]. rewrite Hio, Hcut.
    destruct (IH p eof l' Hl') as (read & Hrun & Hu' & Hc' & Hn' & Hpos).
    exists (p ++ read). rewrite Hrun, <- app_assoc, <- Hu', Hc', Hn', length_app.
    repeat split; [exact Hu | exact Hc | lia | lia].
Qed.

Lemma readFromBody_closeCalls {A} (f : reading A) : forall (u : list Byte.byte) (c1 c2 : nat),
  (readFromBody f {| unread := u; closeCalls := c1 |}).1
  = (readFromBody f {| unread := u; closeCalls := c2 |}).1 /\
  unread (readFromBody f {| unread := u; closeCalls := c1 |}).2
  = unread (readFromBody f {| unread := u; closeCalls := c2 |}).2.
Proof.
  induction f as [a|len k IH]; intros u c1 c2; [split; reflexivity|].
  cbn [readFromBody]. unfold Read. cbn [unread closeCalls].
  destruct u as [|b u]; apply IH.
Qed.

(** ** The message builders *)

Section BuilderFacts.
Variable Message : Type.
Variable rtype : Type.
Variable MessageType : string -> option rtype.
Variable New : rtype -> option Message.
Variable Unmarshal : Message -> reading (string + Message).
Variable fieldsOf : Message -> list StructField.
Variable NewDecoder : Message -> option string.
Variable Decode : Message -> gmap string string -> string + Message.

Local Abbreviation fromJSON := (createMessageFromJSON Message rtype MessageType New Unmarshal).
Local Abbreviation fromParams :=
  (createMessage Message rtype MessageType New fieldsOf NewDecoder Decode).

(** The deferred [Close] runs once when the instance was constructed,
    and not at all on the two returns that come before it. *)
Lemma createMessageFromJSON_close_calls (m : URIMatch) (body body' : ReadCloser)
    (res : result Message) :
  fromJSON (Some m) body = Returns (res, body') ->
  closeCalls body'
  = closeCalls body
    + match MessageType (QueryInputName m) ≫= New with Some _ => 1 | None => 0 end.
Proof.
  unfold createMessageFromJSON. simpl.
  destruct (MessageType (QueryInputName m)) as [requestType|]; simpl.
  - destruct (New requestType) as [msg|]; simpl.
    + destruct (readFrom_cut (Unmarshal msg) (io.LimitReader body MaxBodySize))
        as (read & _ & _ & Hcalls & _); [discriminate|].
      cbn [io.LimitReader io.R] in Hcalls.
      destruct (readFrom (Unmarshal msg) (io.LimitReader body MaxBodySize)) as [err l].
      cbn [snd] in Hcalls.
      destruct err; intros [= _ <-]; cbn [Close closeCalls]; lia.
    + intros [= _ <-]. lia.
  - intros [= _ <-]. lia.
Qed.

(** When the instance is constructed, the result is made of what the
    decoder returns on the body cut at [MaxBodySize]; the decoder reads a
    prefix of the body, the one it reads of the cut body, and the body
    is closed. *)
Lemma createMessageFromJSON_reads (m : URIMatch) (body : ReadCloser) (msg : Message) :
  MessageType (QueryInputName m) ≫= New = Some msg ->
  exists (read : list Byte.byte) (body' : ReadCloser),
    fromJSON (Some m) body
    = Returns (bodyResult (readFromBody (Unmarshal msg) (truncated body)).1, Close body') /\
    unread body = read ++ unread body' /\
    closeCalls body' = closeCalls body /\
    unread (truncated body)
    = read ++ unread (readFromBody (Unmarshal msg) (truncated body)).2 /\
    (Z.of_nat (length read) <= MaxBodySize)%Z.
Proof.
  intros Hmsg. unfold createMessageFromJSON. cbn [deref]. rewrite bind_Returns.
  destruct (MessageType (QueryInputName m)) as [requestType|]; [|discriminate].
  cbn [mbind option_bind] in Hmsg. rewrite Hmsg.
  destruct (readFrom_cut (Unmarshal msg) (io.LimitReader body MaxBodySize))
    as (read & Hrun & Hread & Hcalls & Hleft & Hpos); [discriminate|].
  fold (truncated body) in Hrun. rewrite Hrun.
  cbn [io.LimitReader io.R io.N] in Hread, Hcalls, Hleft.
  destruct (readFrom (Unmarshal msg) (io.LimitReader body MaxBodySize)) as [err l].
  cbn [fst snd] in *.
  exists read, (io.R l). split; [destruct err; reflexivity|].
  split; [exact Hread|]. split; [exact Hcalls|]. split; [|lia].
  unfold truncated, cut. cbn [io.LimitReader io.R io.N unread].
  rewrite Hread, Hleft.
  rewrite take_app_ge by lia. f_equal. f_equal. lia.
Qed.

(** C8: when the registry does not resolve the type name of the match,
    both builders return the unknown-request-type error to the caller;
    neither panics, and the body is left as it was. *)
Theorem unknown_type_is_an_error (m : URIMatch) (order : list (string * string))
    (body : ReadCloser) :
  MessageType (QueryInputName m) = None ->
  fromJSON (Some m) body = Returns (Err ErrUnknownRequestType, body) /\
  fromParams order (Some m) = Returns (Err ErrUnknownRequestType).
Proof.
  intros Hnil. unfold createMessageFromJSON, createMessage. simpl.
  rewrite Hnil. split; reflexivity.
Qed.

(** C7: the cap is 2^20 bytes.  When the instance is constructed, the
    decoder runs on the body through the limited reader exactly as it
    runs on the body cut to its first 2^20 bytes: the outcome is the one
    it gives on the cut body, so that a longer body is not refused and
    what lies beyond the cap has no effect; and the bytes read from the
    body are a prefix of it of at most 2^20 bytes, the same prefix that
    the decoder reads of the cut body. *)
Theorem body_read_is_capped (m : URIMatch) (body : ReadCloser) (msg : Message) :
  MessageType (QueryInputName m) ≫= New = Some msg ->
  MaxBodySize = (2 ^ 20)%Z /\
  unread (truncated body) = take (Z.to_nat (2 ^ 20)) (unread body) /\
  exists (read : list Byte.byte) (body' : ReadCloser),
    fromJSON (Some m) body
    = Returns (bodyResult (readFromBody (Unmarshal msg) (truncated body)).1, Close body') /\
    unread body = read ++ unread body' /\
    unread (truncated body)
    = read ++ unread (readFromBody (Unmarshal msg) (truncated body)).2 /\
    (Z.of_nat (length read) <= 2 ^ 20)%Z.
Proof.
  intros Hmsg.
  assert (Hcap : MaxBodySize = (2 ^ 20)%Z) by reflexivity.
  split; [exact Hcap|]. split; [reflexivity|].
  destruct (createMessageFromJSON_reads m body msg Hmsg)
    as (read & body' & Hrun & Hread & _ & Hcut & Hlen).
  exists read, body'. rewrite <- Hcap. repeat split; assumption.
Qed.
End BuilderFacts.

(** C2: on the return taken when the type name is not resolved, the body
    has received no [Close] call: the deferred call is registered only
    after the instance has been constructed. *)
Theorem body_left_open_on_early_return :
  bank.MessageType "no.such.Type" = None /\
  bank.createMessageFromJSON
    (Some {| QueryInputName := "no.such.Type"; Params := ∅ |})
    {| unread := [Byte.x7b; Byte.x7d]; closeCalls := 0 |}
  = Returns (Err ErrUnknownRequestType,
             {| unread := [Byte.x7b; Byte.x7d]; closeCalls := 0 |}).
Proof.
  split; reflexivity.
Qed.

(** After decoding, the bytes of the object have been read and the body
    has been closed once. *)
Example body_closed_once_after_decoding :
  bank.createMessageFromJSON
    (Some {| QueryInputName := "cosmos.bank.v1beta1.QueryBalanceRequest"; Params := ∅ |})
    {| unread := [Byte.x7b; Byte.x7d]; closeCalls := 0 |}
  = Returns (Ok ∅, {| unread := []; closeCalls := 1 |}).
Proof. reflexivity. Qed.

Lemma body_read_is_capped_witness :
  MaxBodySize = (2 ^ 20)%Z /\
  unread (truncated {| unread := [Byte.x7b; Byte.x7d]; closeCalls := 0 |})
  = take (Z.to_nat (2 ^ 20)) [Byte.x7b; Byte.x7d] /\
  exists (read : list Byte.byte) (body' : ReadCloser),
    bank.createMessageFromJSON
      (Some {| QueryInputName := "cosmos.bank.v1beta1.QueryBalanceRequest"; Params := ∅ |})
      {| unread := [Byte.x7b; Byte.x7d]; closeCalls := 0 |}
    = Returns (bodyResult
                 (readFromBody (bank.Unmarshal ∅)
                    (truncated {| unread := [Byte.x7b; Byte.x7d];
                                  closeCalls := 0 |})).1,
               Close body') /\
    [Byte.x7b; Byte.x7d] = read ++ unread body' /\
    unread (truncated {| unread := [Byte.x7b; Byte.x7d]; closeCalls := 0 |})
    = read ++ unread (readFromBody (bank.Unmarshal ∅)
                        (truncated {| unread := [Byte.x7b; Byte.x7d];
                                      closeCalls := 0 |})).2 /\
    (Z.of_nat (length read) <= 2 ^ 20)%Z.
Proof.
  unfold bank.createMessageFromJSON.
  apply (body_read_is_capped bank.Message (list StructField) bank.MessageType bank.New
           bank.Unmarshal
           {| QueryInputName := "cosmos.bank.v1beta1.QueryBalanceRequest"; Params := ∅ |}
           {| unread := [Byte.x7b; Byte.x7d]; closeCalls := 0 |} ∅).
  reflexivity.
Defined.

Lemma unknown_type_is_an_error_witness :
  bank.createMessageFromJSON
    (Some {| QueryInputName := "no.such.Type"; Params := {[ "address" := "a" ]}%string |})
    {| unread := []; closeCalls := 0 |}
  = Returns (Err ErrUnknownRequestType, {| unread := []; closeCalls := 0 |}) /\
  bank.createMessage [("address", "a")]%string
    (Some {| QueryInputName := "no.such.Type"; Params := {[ "address" := "a" ]}%string |})
  = Returns (Err ErrUnknownRequestType).
Proof.
  unfold bank.createMessageFromJSON, bank.createMessage.
  apply unknown_type_is_an_error. reflexivity.
Defined.

(** ** Parameters and fields *)

Lemma MustCompile_name : exists re, regexp.MustCompile "name=(\w+)" = Returns re.
Proof. eexists. vm_compute. reflexivity. Qed.

Lemma matchField_cons (field : StructField) (rest : list StructField)
    (key value : string) (fieldMap : gmap string string) :
  matchField (field :: rest) key value fieldMap
  = if match serializationName field with
       | Some name => String.eqb name key
       | None => false
       end
    then Returns (<[Name field := value]> fieldMap)
    else matchField rest key value fieldMap.
Proof.
  cbn [matchField]. unfold serializationName.
  destruct MustCompile_name as [re ->]. simpl.
  destruct (regexp.FindStringSubmatch re (Get (Tag field) "protobuf"))
    as [[|whole [|name groups]]|]; reflexivity.
Qed.

Lemma matchField_fieldNamed (fields : list StructField) (key value : string)
    (fieldMap : gmap string string) :
  matchField fields key value fieldMap
  = Returns (match fieldNamed fields key with
             | Some field => <[Name field := value]> fieldMap
             | None => fieldMap
             end).
Proof.
  induction fields as [|field rest IH]; [reflexivity|].
  rewrite matchField_cons. unfold fieldNamed. cbn [List.find].
  destruct (match serializationName field with
            | Some name => String.eqb name key
            | None => false
            end); [reflexivity | exact IH].
Qed.

Lemma fieldNamed_spec (fields : list StructField) (key : string) (field : StructField) :
  fieldNamed fields key = Some field ->
  field ∈ fields /\ serializationName field = Some key.
Proof.
  unfold fieldNamed. intros H. apply find_some in H as [Hin Hname].
  split; [apply list_elem_of_In; exact Hin|].
  destruct (serializationName field) as [name|]; [|discriminate].
  apply String.eqb_eq in Hname. congruence.
Qed.

Lemma NoDup_fmap_elem {A B} (f : A -> B) (l : list A) (x y : A) :
  NoDup (f <$> l) -> x ∈ l -> y ∈ l -> f x = f y -> x = y.
Proof.
  induction l as [|a l IH]; intros Hnd Hx Hy Hf; [inversion Hx|].
  rewrite fmap_cons in Hnd. apply NoDup_cons in Hnd as [Hnotin Hnd].
  apply elem_of_cons in Hx as [->|Hx]; apply elem_of_cons in Hy as [->|Hy].
  - reflexivity.
  - exfalso. apply Hnotin. rewrite Hf. apply list_elem_of_fmap. eauto.
  - exfalso. apply Hnotin. rewrite <- Hf. apply list_elem_of_fmap. eauto.
  - apply IH; assumption.
Qed.

(** With distinct field names, two keys that select a field of the same
    name are the same key. *)
Lemma fieldNamed_inj (fields : list StructField) (k1 k2 : string) (f1 f2 : StructField) :
  NoDup (Name <$> fields) ->
  fieldNamed fields k1 = Some f1 -> fieldNamed fields k2 = Some f2 ->
  Name f1 = Name f2 -> k1 = k2.
Proof.
  intros Hnd H1 H2 Hname.
  apply fieldNamed_spec in H1 as [Hin1 Hs1]. apply fieldNamed_spec in H2 as [Hin2 Hs2].
  assert (f1 = f2) by (eapply NoDup_fmap_elem; eassumption).
  subst. congruence.
Qed.

(** The field map after the loop over the params: a field name holds the
    value of the param whose key selects it, and what it held before when
    there is no such param. *)
Lemma rangeParams_lookup (fields : list StructField) (order : list (string * string)) :
  NoDup (Name <$> fields) -> NoDup (order.*1) ->
  forall fieldMap0, exists fieldMap,
    rangeParams fields order fieldMap0 = Returns fieldMap /\
    forall name,
      fieldMap !! name
      = match List.find (fun kv => bool_decide (Name <$> fieldNamed fields kv.1 = Some name))
                order with
        | Some kv => Some kv.2
        | None => fieldMap0 !! name
        end.
Proof.
  intros Hfields. induction order as [|[key value] rest IH]; intros Hkeys fieldMap0.
  - exists fieldMap0. split; reflexivity.
  - rewrite fmap_cons in Hkeys. apply NoDup_cons in Hkeys as [Hfresh Hkeys].
    cbn [rangeParams]. rewrite matchField_fieldNamed.
    destruct (IH Hkeys (match fieldNamed fields key with
                        | Some field => <[Name field := value]> fieldMap0
                        | None => fieldMap0
                        end)) as (fieldMap & Hrun & Hlookup).
    exists fieldMap. split; [exact Hrun|].
    intros name. rewrite Hlookup. cbn [List.find fst snd].
    destruct (bool_decide (Name <$> fieldNamed fields key = Some name)) eqn:Hsel.
    + apply bool_decide_eq_true in Hsel.
      destruct (fieldNamed fields key) as [field|] eqn:Hfield; [|discriminate].
      injection Hsel as Hname.
      destruct (List.find _ rest) as [[key' value']|] eqn:Hfind.
      * exfalso. apply find_some in Hfind as [Hin Hsel'].
        apply bool_decide_eq_true in Hsel'. cbn [fst] in Hsel'.
        destruct (fieldNamed fields key') as [field'|] eqn:Hfield'; [|discriminate].
        injection Hsel' as Hname'.
        assert (key = key').
        { eapply fieldNamed_inj; [exact Hfields | exact Hfield | exact Hfield' | congruence]. }
        subst key'. apply Hfresh. apply list_elem_of_fmap.
        exists (key, value'). split; [reflexivity | apply list_elem_of_In; exact Hin].
      * rewrite <- Hname. apply lookup_insert_eq.
    + apply bool_decide_eq_false in Hsel.
      destruct (List.find _ rest) as [[key' value']|]; [reflexivity|].
      destruct (fieldNamed fields key) as [field|]; [|reflexivity].
      apply lookup_insert_ne. intros Heq. apply Hsel. simpl. congruence.
Qed.

Section ParamFacts.
Variable Message : Type.
Variable rtype : Type.
Variable MessageType : string -> option rtype.
Variable New : rtype -> option Message.
Variable fieldsOf : Message -> list StructField.
Variable NewDecoder : Message -> option string.
Variable Decode : Message -> gmap string string -> string + Message.

Local Abbreviation fromParams :=
  (createMessage Message rtype MessageType New fieldsOf NewDecoder Decode).

(** C9: let [fieldMap] hold, under each field name, the value of the
    param whose key is the serialization name of that field, and nothing
    else.  When the decoder accepts [fieldMap], [createMessage] returns
    the message decoded from it: the params whose key names no field are
    left out and raise no error, and every other param is applied.  The
    field names of a struct are distinct. *)
Theorem unmatched_params_are_dropped (m : URIMatch) (order : list (string * string))
    (requestType : rtype) (msg msg' : Message) (fieldMap : gmap string string) :
  MessageType (QueryInputName m) = Some requestType ->
  New requestType = Some msg ->
  HasParams m = true ->
  rangeOrder (Params m) order ->
  NoDup (Name <$> fieldsOf msg) ->
  (forall name value,
     fieldMap !! name = Some value <->
     exists key field, Params m !! key = Some value /\
                       fieldNamed (fieldsOf msg) key = Some field /\
                       Name field = name) ->
  NewDecoder msg = None ->
  Decode msg fieldMap = inr msg' ->
  fromParams order (Some m) = Returns (Ok msg').
Proof.
  intros Htype Hnew Hparams Horder Hfields Hmap Hdecoder Hdecode.
  destruct (rangeParams_lookup (fieldsOf msg) order Hfields
              (rangeOrder_NoDup_keys _ _ Horder) ∅) as (collected & Hrun & Hlookup).
  assert (Hsame : collected = fieldMap).
  { apply map_eq. intros name. apply option_eq. intros value.
    rewrite Hmap, Hlookup. split.
    - destruct (List.find _ order) as [[key value']|] eqn:Hfind;
        [|rewrite lookup_empty; discriminate].
      intros [= ->]. apply find_some in Hfind as [Hin Hsel].
      apply bool_decide_eq_true in Hsel. cbn [fst] in Hsel.
      destruct (fieldNamed (fieldsOf msg) key) as [field|] eqn:Hfield; [|discriminate].
      injection Hsel as Hname.
      exists key, field. split; [|split; [exact Hfield | exact Hname]].
      apply (rangeOrder_elem_of _ _ _ _ Horder). apply list_elem_of_In. exact Hin.
    - intros (key & field & Hkey & Hfield & Hname).
      apply (rangeOrder_elem_of _ _ _ _ Horder) in Hkey.
      destruct (List.find _ order) as [[key' value']|] eqn:Hfind.
      + apply find_some in Hfind as [Hin Hsel].
        apply bool_decide_eq_true in Hsel. cbn [fst] in Hsel.
        destruct (fieldNamed (fieldsOf msg) key') as [field'|] eqn:Hfield'; [|discriminate].
        injection Hsel as Hname'.
        assert (key' = key).
        { eapply fieldNamed_inj;
            [exact Hfields | exact Hfield' | exact Hfield | congruence]. }
        subst key'. apply list_elem_of_In in Hin.
        apply (rangeOrder_elem_of _ _ _ _ Horder) in Hin, Hkey.
        cbn [snd]. congruence.
      + exfalso. apply list_elem_of_In in Hkey.
        apply (find_none _ _ Hfind) in Hkey.
        apply bool_decide_eq_false in Hkey. apply Hkey.
        cbn [fst]. rewrite Hfield. simpl. congruence. }
  subst collected.
  unfold createMessage. simpl. rewrite Htype, Hnew, Hparams, Hrun. simpl.
  rewrite Hdecoder, Hdecode. reflexivity.
Qed.
End ParamFacts.

Lemma unmatched_params_are_dropped_witness :
  bank.createMessage [("address", "cosmos1xyz"); ("bogus", "1")]%string
    (Some {| QueryInputName := "cosmos.bank.v1beta1.QueryBalanceRequest";
             Params := {[ "address" := "cosmos1xyz"; "bogus" := "1" ]}%string |})
  = Returns (Ok ({[ "Address" := "cosmos1xyz" ]}%string ∪ ∅)).
Proof.
  unfold bank.createMessage.
  apply (unmatched_params_are_dropped bank.Message (list StructField) bank.MessageType
           bank.New bank.fieldsOf bank.NewDecoder bank.Decode _ _
           bank.QueryBalanceRequest ∅ _ {[ "Address" := "cosmos1xyz" ]}%string).
  - reflexivity.
  - reflexivity.
  - vm_compute. reflexivity.
  - unfold rangeOrder. cbn [Params].
    rewrite map_to_list_insert by (vm_compute; reflexivity).
    rewrite map_to_list_singleton. reflexivity.
  - apply (bool_decide_unpack _). vm_compute. reflexivity.
  - intros name value. cbn [Params]. split.
    + intros Hlookup. apply lookup_singleton_Some in Hlookup as [<- <-].
      exists "address"%string, {| Name := "Address";
                                  Tag := {[ "protobuf" := "bytes,1,opt,name=address,proto3";
                                            "json" := "address,omitempty" ]}%string |}.
      split; [vm_compute; reflexivity | split; [vm_compute; reflexivity | reflexivity]].
    + intros (key & field & Hkey & Hfield & <-).
      apply lookup_insert_Some in Hkey as [[<- <-]|[Hne Hkey]].
      * vm_compute in Hfield. injection Hfield as <-. vm_compute. reflexivity.
      * apply lookup_singleton_Some in Hkey as [<- <-].
        vm_compute in Hfield. discriminate Hfield.
  - reflexivity.
  - reflexivity.
Defined.

(** * Further properties *)

(** ** Trailing separators of the request path *)

Lemma TrimRight_append_cutset (s tail cutset : string) :
  TrimRight tail cutset = EmptyString ->
  TrimRight (s +:+ tail) cutset = TrimRight s cutset.
Proof.
  intros Htail. induction s as [|c s IH].
  - exact Htail.
  - change (String c s +:+ tail) with (String c (s +:+ tail)).
    cbn [TrimRight]. rewrite IH. reflexivity.
Qed.

Lemma TrimRight_idempotent (s cutset : string) :
  TrimRight (TrimRight s cutset) cutset = TrimRight s cutset.
Proof.
  induction s as [|c s IH]; [reflexivity|].
  cbn [TrimRight]. destruct (TrimRight s cutset) as [|a t] eqn:Htrim.
  - destruct (ContainsByte cutset c) eqn:Hc; [reflexivity|].
    cbn [TrimRight]. rewrite Hc. reflexivity.
  - cbn [TrimRight] in *. rewrite IH. reflexivity.
Qed.

(** X1: any run of separators at the end of the request path is
    immaterial, for every table and every order of the loop; the path and
    its trimmed form are matched alike. *)
Theorem matchURI_trailing_separators (order : list (string * string))
    (uri slashes : string) (tbl : gmap string string) :
  TrimRight slashes "/" = EmptyString ->
  matchURI order (uri +:+ slashes) tbl = matchURI order uri tbl /\
  matchURI order (TrimRight uri "/") tbl = matchURI order uri tbl.
Proof.
  intros Hslashes. unfold matchURI.
  rewrite TrimRight_append_cutset by exact Hslashes.
  rewrite TrimRight_idempotent. split; reflexivity.
Qed.

Lemma matchURI_trailing_separators_witness :
  matchURI [("a/{x}", "T")]%string ("a/b" +:+ "///") {[ "a/{x}" := "T" ]}%string
  = matchURI [("a/{x}", "T")]%string "a/b" {[ "a/{x}" := "T" ]}%string /\
  matchURI [("a/{x}", "T")]%string (TrimRight "a/b" "/") {[ "a/{x}" := "T" ]}%string
  = matchURI [("a/{x}", "T")]%string "a/b" {[ "a/{x}" := "T" ]}%string.
Proof.
  apply matchURI_trailing_separators. reflexivity.
Defined.

(** ** What the loop returns *)

Lemma tryPattern_name (uri getPattern queryInputName : string) (r : URIMatch) :
  tryPattern uri (getPattern, queryInputName) = Returns (Some r) ->
  QueryInputName r = queryInputName.
Proof.
  unfold tryPattern. intros H.
  apply bind_Returns_inv in H as ([regexPattern wildcardNames] & _ & H).
  apply bind_Returns_inv in H as (regex & _ & H).
  destruct (regexp.FindStringSubmatch regex uri) as [matches|]; [|discriminate].
  destruct (1 <? length matches); [|discriminate].
  apply bind_Returns_inv in H as (params & _ & H).
  injection H as <-. reflexivity.
Qed.

Lemma rangePatterns_source (uri : string) (order : list (string * string)) (r : URIMatch) :
  rangePatterns uri order = Returns (Some r) ->
  exists e, e ∈ order /\ tryPattern uri e = Returns (Some r).
Proof.
  induction order as [|entry rest IH]; [discriminate|].
  cbn [rangePatterns]. intros H.
  apply bind_Returns_inv in H as ([m|] & Hentry & H).
  - injection H as <-. exists entry. split; [left | exact Hentry].
  - destruct (IH H) as (e & He & Htry). exists e. split; [right; exact He | exact Htry].
Qed.

(** X2: the type name of a match is always one the table holds: it is the
    value stored under the trimmed path (and then there are no params), or
    under the key whose turn of the loop produced the match. *)
Theorem matchURI_type_from_table (order : list (string * string)) (uri : string)
    (tbl : gmap string string) (r : URIMatch) :
  rangeOrder tbl order ->
  matchURI order uri tbl = Returns (Some r) ->
  (tbl !! TrimRight uri "/" = Some (QueryInputName r) /\ Params r = ∅) \/
  (tbl !! TrimRight uri "/" = None /\
   exists getPattern,
     tbl !! getPattern = Some (QueryInputName r) /\
     tryPattern (TrimRight uri "/") (getPattern, QueryInputName r) = Returns (Some r)).
Proof.
  intros Horder. unfold matchURI.
  destruct (tbl !! TrimRight uri "/") as [inputName|] eqn:Hkey.
  - intros [= <-]. left. split; reflexivity.
  - intros Hloop. right. split; [reflexivity|].
    apply rangePatterns_source in Hloop as ([getPattern queryInputName] & He & Htry).
    pose proof (tryPattern_name _ _ _ _ Htry) as Hname. subst queryInputName.
    exists getPattern. split; [|exact Htry].
    apply (rangeOrder_elem_of _ _ _ _ Horder). exact He.
Qed.

Lemma matchURI_type_from_table_witness :
  (({[ "a/{x}" := "T" ]}%string : gmap string string) !! TrimRight "a/b" "/"
   = Some "T"%string /\ ({[ "x" := "b" ]}%string : gmap string string) = ∅) \/
  (({[ "a/{x}" := "T" ]}%string : gmap string string) !! TrimRight "a/b" "/" = None /\
   exists getPattern,
     ({[ "a/{x}" := "T" ]}%string : gmap string string) !! getPattern = Some "T"%string /\
     tryPattern (TrimRight "a/b" "/") (getPattern, "T"%string)
     = Returns (Some {| QueryInputName := "T"; Params := {[ "x" := "b" ]}%string |})).
Proof.
  assert (Horder : rangeOrder ({[ "a/{x}" := "T" ]}%string : gmap string string)
                     [("a/{x}", "T")]%string).
  { unfold rangeOrder. rewrite map_to_list_singleton. reflexivity. }
  assert (Hmatch : matchURI [("a/{x}", "T")]%string "a/b" {[ "a/{x}" := "T" ]}%string
                   = Returns (Some {| QueryInputName := "T";
                                      Params := {[ "x" := "b" ]}%string |})).
  { vm_compute. reflexivity. }
  exact (matchURI_type_from_table _ _ _ _ Horder Hmatch).
Defined.

(** X3: the first key, in the order of the loop, at which the loop stops
    decides the call: its match is returned, or its panic is the panic of
    [matchURI], whatever the keys after it would have given. *)
Theorem matchURI_first_in_order (o1 o2 : list (string * string)) (entry : string * string)
    (uri : string) (tbl : gmap string string) :
  tbl !! TrimRight uri "/" = None ->
  (forall e, e ∈ o1 -> tryPattern (TrimRight uri "/") e = Returns None) ->
  candidate uri entry ->
  matchURI (o1 ++ entry :: o2) uri tbl = tryPattern (TrimRight uri "/") entry.
Proof.
  intros Hkey Hbefore Hstop. unfold matchURI. rewrite Hkey.
  unfold candidate in Hstop.
  induction o1 as [|e o1 IH]; cbn [app rangePatterns].
  - destruct (tryPattern (TrimRight uri "/") entry) as [[m|]|];
      [reflexivity | congruence | reflexivity].
  - rewrite (Hbefore e) by left. rewrite bind_Returns.
    apply IH. intros e' He'. apply Hbefore. right. exact He'.
Qed.

Lemma matchURI_first_in_order_witness :
  matchURI ([("b/{y}", "T0")] ++ ("a/{x}", "T1") :: [("{z}/b", "T2")]) "a/b"
    {[ "b/{y}" := "T0"; "a/{x}" := "T1"; "{z}/b" := "T2" ]}%string
  = tryPattern (TrimRight "a/b" "/") ("a/{x}", "T1")%string.
Proof.
  apply matchURI_first_in_order.
  - vm_compute. reflexivity.
  - intros e He. apply list_elem_of_singleton in He. subst e. vm_compute. reflexivity.
  - unfold candidate. vm_compute. discriminate.
Defined.

(** ** Table keys without a brace *)

Lemma ContainsByte_QuoteMeta_brace (t : string) :
  ContainsByte (regexp.QuoteMeta t) "{" = ContainsByte t "{".
Proof.
  induction t as [|c t IH]; [reflexivity|].
  cbn [regexp.QuoteMeta]. destruct (regexp.special c); cbn [ContainsByte];
    rewrite IH; reflexivity.
Qed.

Lemma ContainsByte_TrimRight (s cutset : string) (c : ascii) :
  ContainsByte s c = false -> ContainsByte (TrimRight s cutset) c = false.
Proof.
  induction s as [|a s IH]; intros H; [reflexivity|].
  cbn [ContainsByte] in H. apply orb_false_iff in H as [Ha Hs].
  cbn [TrimRight]. destruct (TrimRight s cutset) as [|b t] eqn:Htrim.
  - destruct (ContainsByte cutset a); [reflexivity|].
    cbn [ContainsByte]. rewrite Ha. reflexivity.
  - cbn [ContainsByte] in *. rewrite Ha. exact (IH Hs).
Qed.

Lemma matchAt_needs_brace (a : ascii) (r : regexp.Regexp) (s : string) (pos : nat) :
  ContainsByte s "{" = false ->
  regexp.matchAt
    (regexp.Concat (regexp.Char (regexp.Literal a))
       (regexp.Concat (regexp.Char (regexp.Literal "{")) r)) s pos = None.
Proof.
  intros H. unfold regexp.matchAt. cbn [regexp.backtrack regexp.accepts].
  destruct s as [|c s]; [reflexivity|].
  destruct (Ascii.eqb c a); [|reflexivity].
  destruct s as [|d s]; [reflexivity|].
  cbn [ContainsByte] in H. apply orb_false_iff in H as [_ H].
  apply orb_false_iff in H as [Hd _]. rewrite Hd. reflexivity.
Qed.

Lemma replaceAll_no_brace {St} (a : ascii) (r : regexp.Regexp)
    (repl : string -> St -> outcome (string * St)) (src s : string) (st : St) :
  ContainsByte s "{" = false ->
  forall pos,
    regexp.replaceAll
      (regexp.Concat (regexp.Char (regexp.Literal a))
         (regexp.Concat (regexp.Char (regexp.Literal "{")) r)) repl src s pos 0 st
    = Returns (s, st).
Proof.
  induction s as [|c s IH]; intros H pos; [reflexivity|].
  cbn [regexp.replaceAll]. rewrite matchAt_needs_brace by exact H.
  cbn [ContainsByte] in H. apply orb_false_iff in H as [_ H].
  rewrite IH by exact H. reflexivity.
Qed.

Lemma wildcard_patterns_start_with_brace :
  (exists r, regexp.MustCompile "\\\{([^}]+?)=\\\*\\\*\\}"
             = Returns (regexp.Concat (regexp.Char (regexp.Literal "\"))
                          (regexp.Concat (regexp.Char (regexp.Literal "{")) r))) /\
  (exists r, regexp.MustCompile "\\\{([^}]+)\\}"
             = Returns (regexp.Concat (regexp.Char (regexp.Literal "\"))
                          (regexp.Concat (regexp.Char (regexp.Literal "{")) r))).
Proof.
  split; eexists; vm_compute; reflexivity.
Qed.

Lemma patternToRegex_no_brace (t : string) :
  ContainsByte t "{" = false ->
  patternToRegex t = Returns ("^" +:+ regexp.QuoteMeta t +:+ "$", []).
Proof.
  intros H. unfold patternToRegex.
  destruct wildcard_patterns_start_with_brace as [[r1 ->] [r2 ->]].
  rewrite bind_Returns. unfold regexp.ReplaceAllStringFunc.
  rewrite replaceAll_no_brace by (rewrite ContainsByte_QuoteMeta_brace; exact H).
  rewrite bind_Returns. cbv beta iota. rewrite bind_Returns.
  rewrite replaceAll_no_brace by (rewrite ContainsByte_QuoteMeta_brace; exact H).
  reflexivity.
Qed.

(** X4: a table key without an opening brace is read as a literal: no
    wildcard name is found in it and its pattern is its escaped text
    between the anchors.  When the key is valid UTF-8 (and of the size of
    a route) the pattern compiles to an expression without capture group
    and the turn of the loop on the key returns no match, on any path;
    when the key is not valid UTF-8, [regexp.MustCompile] panics on the
    pattern, and so does the turn of the loop. *)
Theorem brace_free_key_is_literal (getPattern : string) :
  ContainsByte getPattern "{" = false ->
  patternToRegex (TrimRight getPattern "/")
  = Returns ("^" +:+ regexp.QuoteMeta (TrimRight getPattern "/") +:+ "$", []) /\
  if validUTF8 getPattern
  then routeSized getPattern = true ->
       captureGroups getPattern = Returns 0 /\
       (forall uri queryInputName,
          tryPattern uri (getPattern, queryInputName) = Returns None)
  else captureGroups getPattern = Panics /\
       (forall uri queryInputName,
          tryPattern uri (getPattern, queryInputName) = Panics).
Proof.
  intros H.
  assert (Hcompile : patternToRegex (TrimRight getPattern "/")
                     = Returns ("^" +:+ regexp.QuoteMeta (TrimRight getPattern "/") +:+ "$",
                                [])).
  { apply patternToRegex_no_brace. apply ContainsByte_TrimRight. exact H. }
  assert (Hnames : wildcardsOf getPattern = Returns []).
  { unfold wildcardsOf. rewrite Hcompile. reflexivity. }
  split; [exact Hcompile|].
  pose proof (captureGroups_literal _ Hnames) as Hgroups.
  pose proof (fun uri q => tryPattern_literal uri getPattern q Hnames) as Htry.
  rewrite validUTF8_TrimRight in Hgroups.
  destruct (validUTF8 getPattern) eqn:Hvalid.
  - intros _. split; [exact Hgroups|]. intros uri queryInputName.
    rewrite Htry, validUTF8_TrimRight, Hvalid. reflexivity.
  - split; [exact Hgroups|]. intros uri queryInputName.
    rewrite Htry, validUTF8_TrimRight, Hvalid. reflexivity.
Qed.

Lemma brace_free_key_is_literal_witness :
  patternToRegex (TrimRight "a.b/c/" "/")
  = Returns ("^" +:+ regexp.QuoteMeta (TrimRight "a.b/c/" "/") +:+ "$", []) /\
  if validUTF8 "a.b/c/"
  then routeSized "a.b/c/" = true ->
       captureGroups "a.b/c/" = Returns 0 /\
       (forall uri queryInputName,
          tryPattern uri ("a.b/c/"%string, queryInputName) = Returns None)
  else captureGroups "a.b/c/" = Panics /\
       (forall uri queryInputName,
          tryPattern uri ("a.b/c/"%string, queryInputName) = Panics).
Proof.
  apply brace_free_key_is_literal. reflexivity.
Defined.

(** X5: a key without a brace that is valid UTF-8 (and of the size of a
    route) and ends in a separator is dead: no path reaches it by lookup,
    because the path is trimmed and the key is not, nor in the loop.
    Taking the entry out of the table changes no result. *)
Theorem literal_key_with_trailing_separator_is_dead (getPattern queryInputName : string)
    (o1 o2 : list (string * string)) (uri : string) (tbl : gmap string string) :
  ContainsByte getPattern "{" = false ->
  validUTF8 getPattern = true -> routeSized getPattern = true ->
  TrimRight getPattern "/" ≠ getPattern ->
  matchURI (o1 ++ (getPattern, queryInputName) :: o2) uri tbl
  = matchURI (o1 ++ o2) uri (delete getPattern tbl).
Proof.
  intros Hliteral Hvalid _ Htrail. unfold matchURI.
  assert (Hne : getPattern ≠ TrimRight uri "/").
  { intros ->. apply Htrail. apply TrimRight_idempotent. }
  rewrite lookup_delete_ne by exact Hne.
  destruct (tbl !! TrimRight uri "/"); [reflexivity|].
  apply rangePatterns_skip.
  rewrite tryPattern_literal, validUTF8_TrimRight, Hvalid; [reflexivity|].
  unfold wildcardsOf. rewrite patternToRegex_no_brace; [reflexivity|].
  apply ContainsByte_TrimRight. exact Hliteral.
Qed.

Lemma literal_key_with_trailing_separator_is_dead_witness :
  matchURI ([("a/{x}", "T1")] ++ ("a/b/", "T2") :: []) "a/b"
    {[ "a/{x}" := "T1"; "a/b/" := "T2" ]}
  = matchURI ([("a/{x}", "T1")] ++ []) "a/b"
      (delete "a/b/" {[ "a/{x}" := "T1"; "a/b/" := "T2" ]}).
Proof.
  apply literal_key_with_trailing_separator_is_dead.
  - reflexivity.
  - reflexivity.
  - reflexivity.
  - vm_compute. discriminate.
Defined.

(** ** More on the builders *)

Lemma find_unique_perm {A} (P : A -> bool) (l1 l2 : list A) :
  l1 ≡ₚ l2 ->
  (forall x y, x ∈ l1 -> y ∈ l1 -> P x = true -> P y = true -> x = y) ->
  List.find P l1 = List.find P l2.
Proof.
  intros Hperm Hunique.
  destruct (List.find P l1) as [x|] eqn:H1; destruct (List.find P l2) as [y|] eqn:H2.
  - apply find_some in H1 as [Hx HPx]. apply find_some in H2 as [Hy HPy].
    apply list_elem_of_In in Hx, Hy. rewrite <- Hperm in Hy.
    f_equal. apply Hunique; assumption.
  - apply find_some in H1 as [Hx HPx]. apply list_elem_of_In in Hx.
    rewrite Hperm in Hx. apply list_elem_of_In in Hx.
    rewrite (find_none _ _ H2 _ Hx) in HPx. discriminate.
  - apply find_some in H2 as [Hy HPy]. apply list_elem_of_In in Hy.
    rewrite <- Hperm in Hy. apply list_elem_of_In in Hy.
    rewrite (find_none _ _ H1 _ Hy) in HPy. discriminate.
  - reflexivity.
Qed.

Lemma rangeParams_order_irrelevant (fields : list StructField)
    (o1 o2 : list (string * string)) :
  NoDup (Name <$> fields) -> NoDup (o1.*1) -> o1 ≡ₚ o2 ->
  rangeParams fields o1 ∅ = rangeParams fields o2 ∅.
Proof.
  intros Hfields Hkeys Hperm.
  assert (Hkeys2 : NoDup (o2.*1)) by (rewrite <- Hperm; exact Hkeys).
  destruct (rangeParams_lookup fields o1 Hfields Hkeys ∅) as (fm1 & -> & Hl1).
  destruct (rangeParams_lookup fields o2 Hfields Hkeys2 ∅) as (fm2 & -> & Hl2).
  f_equal. apply map_eq. intros name. rewrite Hl1, Hl2.
  rewrite (find_unique_perm _ o1 o2 Hperm); [reflexivity|].
  intros [k1 v1] [k2 v2] Hin1 Hin2 HP1 HP2.
  apply bool_decide_eq_true in HP1, HP2. cbn [fst] in HP1, HP2.
  destruct (fieldNamed fields k1) as [f1|] eqn:Hf1; [|discriminate].
  destruct (fieldNamed fields k2) as [f2|] eqn:Hf2; [|discriminate].
  injection HP1 as HP1. injection HP2 as HP2.
  assert (k1 = k2).
  { eapply fieldNamed_inj; [exact Hfields | exact Hf1 | exact Hf2 | congruence]. }
  subst k2.
  apply (NoDup_fmap_elem fst o1 (k1, v1) (k1, v2) Hkeys Hin1 Hin2). reflexivity.
Qed.

Section BuilderMore.
Variable Message : Type.
Variable rtype : Type.
Variable MessageType : string -> option rtype.
Variable New : rtype -> option Message.
Variable Unmarshal : Message -> reading (string + Message).
Variable fieldsOf : Message -> list StructField.
Variable NewDecoder : Message -> option string.
Variable Decode : Message -> gmap string string -> string + Message.

Local Abbreviation fromJSON := (createMessageFromJSON Message rtype MessageType New Unmarshal).
Local Abbreviation fromParams :=
  (createMessage Message rtype MessageType New fieldsOf NewDecoder Decode).

(** X6: the bytes of the body beyond the first [MaxBodySize] are
    ignored.  On two bodies that agree on their first [MaxBodySize] bytes
    [createMessageFromJSON] returns the same message or the same error,
    after reading the same number of bytes, at most [MaxBodySize], off
    each of them, and with the same number of [Close] calls. *)
Theorem bytes_past_the_cap_are_ignored (m : URIMatch) (body1 body2 : ReadCloser) :
  unread (truncated body1) = unread (truncated body2) ->
  exists (res : result Message) (n calls : nat),
    (Z.of_nat n <= MaxBodySize)%Z /\
    fromJSON (Some m) body1
    = Returns (res, {| unread := drop n (unread body1);
                       closeCalls := closeCalls body1 + calls |}) /\
    fromJSON (Some m) body2
    = Returns (res, {| unread := drop n (unread body2);
                       closeCalls := closeCalls body2 + calls |}).
Proof.
  intros Hsame.
  destruct (MessageType (QueryInputName m) ≫= New) as [msg|] eqn:Hmsg.
  - destruct (createMessageFromJSON_reads Message rtype MessageType New Unmarshal
                m body1 msg Hmsg) as (read1 & rest1 & Hrun1 & Hread1 & Hcalls1 & Hcut1 & Hlen).
    destruct (createMessageFromJSON_reads Message rtype MessageType New Unmarshal
                m body2 msg Hmsg) as (read2 & rest2 & Hrun2 & Hread2 & Hcalls2 & Hcut2 & _).
    remember (truncated body1) as t1 eqn:E1. remember (truncated body2) as t2 eqn:E2.
    clear E1 E2. destruct t1 as [u c1], t2 as [u2 c2].
    cbn [unread] in Hsame, Hcut1, Hcut2. subst u2.
    destruct (readFromBody_closeCalls (Unmarshal msg) u c1 c2) as [Hres Hrest].
    rewrite Hres in Hrun1. rewrite Hrest in Hcut1.
    assert (Heq : read1 = read2).
    { eapply app_inv_tail. rewrite <- Hcut1. exact Hcut2. }
    subst read2.
    exists (bodyResult (readFromBody (Unmarshal msg) {| unread := u; closeCalls := c2 |}).1),
      (length read1), 1.
    split; [exact Hlen|].
    rewrite Hrun1, Hrun2, Hread1, Hread2, !drop_app_length. unfold Close.
    rewrite Hcalls1, Hcalls2, !Nat.add_1_r. split; reflexivity.
  - assert (Hearly : forall body,
              exists e, fromJSON (Some m) body = Returns (Err e, body)).
    { intros body. unfold createMessageFromJSON. cbn [deref]. rewrite bind_Returns.
      destruct (MessageType (QueryInputName m)) as [requestType|];
        [|eexists; reflexivity].
      cbn [mbind option_bind] in Hmsg. rewrite Hmsg. eexists. reflexivity. }
    assert (Herr : forall body1 body2 e1 e2,
              fromJSON (Some m) body1 = Returns (Err e1, body1) ->
              fromJSON (Some m) body2 = Returns (Err e2, body2) -> e1 = e2).
    { intros b1 b2 e1 e2. unfold createMessageFromJSON. cbn [deref]. rewrite !bind_Returns.
      destruct (MessageType (QueryInputName m)) as [requestType|];
        [|intros [= <-] [= <-]; reflexivity].
      cbn [mbind option_bind] in Hmsg. rewrite Hmsg.
      intros [= <-] [= <-]. reflexivity. }
    destruct (Hearly body1) as [e1 H1]. destruct (Hearly body2) as [e2 H2].
    pose proof (Herr _ _ _ _ H1 H2) as ->.
    exists (Err e2), 0, 0. split; [discriminate|].
    rewrite H1, H2. destruct body1, body2. cbn [unread closeCalls drop].
    rewrite !Nat.add_0_r. split; reflexivity.
Qed.

(** X7: unlike the loop of [matchURI], the loop of [createMessage] over
    the params is insensitive to the order in which the map is visited:
    with the distinct field names of a struct, every order of the same
    params gives the same result. *)
Theorem createMessage_order_irrelevant (m : URIMatch) (o1 o2 : list (string * string)) :
  rangeOrder (Params m) o1 -> rangeOrder (Params m) o2 ->
  (forall requestType msg,
     MessageType (QueryInputName m) = Some requestType -> New requestType = Some msg ->
     NoDup (Name <$> fieldsOf msg)) ->
  fromParams o1 (Some m) = fromParams o2 (Some m).
Proof.
  intros Ho1 Ho2 Hfields. unfold createMessage. cbn [deref]. rewrite !bind_Returns.
  destruct (MessageType (QueryInputName m)) as [requestType|] eqn:Htype; [|reflexivity].
  destruct (New requestType) as [msg|] eqn:Hnew; [|reflexivity].
  destruct (HasParams m); [|reflexivity].
  rewrite (rangeParams_order_irrelevant (fieldsOf msg) o1 o2); [reflexivity | | |].
  - exact (Hfields _ _ eq_refl Hnew).
  - exact (rangeOrder_NoDup_keys _ _ Ho1).
  - unfold rangeOrder in Ho1, Ho2. rewrite Ho1, Ho2. reflexivity.
Qed.

(** X8: a path found by the lookup builds the freshly constructed
    message: the match has no params, so that neither the fields nor the
    decoder are consulted. *)
Theorem exact_match_builds_fresh_message (order porder : list (string * string))
    (uri : string) (tbl : gmap string string) (inputName : string)
    (requestType : rtype) (msg : Message) :
  tbl !! TrimRight uri "/" = Some inputName ->
  MessageType inputName = Some requestType ->
  New requestType = Some msg ->
  (r ← matchURI order uri tbl; fromParams porder r) = Returns (Ok msg).
Proof.
  intros Hkey Htype Hnew. unfold matchURI. rewrite Hkey, bind_Returns.
  unfold createMessage. cbn [deref]. rewrite bind_Returns. cbn [QueryInputName].
  rewrite Htype, Hnew. reflexivity.
Qed.
End BuilderMore.

(** Two bodies of [MaxBodySize] blanks that differ in the byte that
    follows. *)
Lemma bytes_past_the_cap_are_ignored_witness :
  exists (res : result bank.Message) (n calls : nat),
    (Z.of_nat n <= MaxBodySize)%Z /\
    bank.createMessageFromJSON
      (Some {| QueryInputName := "cosmos.bank.v1beta1.QueryBalanceRequest"; Params := ∅ |})
      {| unread := replicate (Z.to_nat MaxBodySize) Byte.x20 ++ [Byte.x7b];
           closeCalls := 0 |}
    = Returns
        (res,
         {| unread :=
              drop n
                (unread
                   {| unread := replicate (Z.to_nat MaxBodySize) Byte.x20 ++ [Byte.x7b];
           closeCalls := 0 |});
            closeCalls :=
              closeCalls
                {| unread := replicate (Z.to_nat MaxBodySize) Byte.x20 ++ [Byte.x7b];
           closeCalls := 0 |}
              + calls |}) /\
    bank.createMessageFromJSON
      (Some {| QueryInputName := "cosmos.bank.v1beta1.QueryBalanceRequest"; Params := ∅ |})
      {| unread := replicate (Z.to_nat MaxBodySize) Byte.x20 ++ [Byte.x7d];
           closeCalls := 0 |}
    = Returns
        (res,
         {| unread :=
              drop n
                (unread
                   {| unread := replicate (Z.to_nat MaxBodySize) Byte.x20 ++ [Byte.x7d];
           closeCalls := 0 |});
            closeCalls :=
              closeCalls
                {| unread := replicate (Z.to_nat MaxBodySize) Byte.x20 ++ [Byte.x7d];
           closeCalls := 0 |}
              + calls |}).
Proof.
  unfold bank.createMessageFromJSON.
  apply (bytes_past_the_cap_are_ignored bank.Message (list StructField) bank.MessageType
           bank.New bank.Unmarshal).
  unfold truncated, cut. cbn [io.LimitReader io.N io.R unread].
  rewrite !take_app_length' by (symmetry; apply length_replicate). reflexivity.
Defined.

Lemma createMessage_order_irrelevant_witness :
  bank.createMessage [("address", "cosmos1xyz"); ("denom", "stake")]
    (Some {| QueryInputName := "cosmos.bank.v1beta1.QueryBalanceRequest";
             Params := {[ "address" := "cosmos1xyz"; "denom" := "stake" ]} |})
  = bank.createMessage [("denom", "stake"); ("address", "cosmos1xyz")]
      (Some {| QueryInputName := "cosmos.bank.v1beta1.QueryBalanceRequest";
               Params := {[ "address" := "cosmos1xyz"; "denom" := "stake" ]} |}).
Proof.
  assert (Hlist : map_to_list ({[ "address" := "cosmos1xyz"; "denom" := "stake" ]}
                                 : gmap string string)
                  ≡ₚ [("address", "cosmos1xyz"); ("denom", "stake")]).
  { rewrite map_to_list_insert by (vm_compute; reflexivity).
    rewrite map_to_list_singleton. reflexivity. }
  unfold bank.createMessage. apply createMessage_order_irrelevant.
  - unfold rangeOrder. cbn [Params]. rewrite Hlist. reflexivity.
  - unfold rangeOrder. cbn [Params]. rewrite Hlist. apply perm_swap.
  - intros requestType msg _ _. apply (bool_decide_unpack _). vm_compute. reflexivity.
Defined.

Lemma exact_match_builds_fresh_message_witness :
  (r ← matchURI [("cosmos/bank/v1beta1/balances", "cosmos.bank.v1beta1.QueryBalanceRequest")]
         "cosmos/bank/v1beta1/balances/"
         {[ "cosmos/bank/v1beta1/balances" := "cosmos.bank.v1beta1.QueryBalanceRequest" ]};
   bank.createMessage [] r) = Returns (Ok ∅).
Proof.
  unfold bank.createMessage.
  apply (exact_match_builds_fresh_message bank.Message (list StructField) bank.MessageType
           bank.New bank.fieldsOf bank.NewDecoder bank.Decode _ _ _ _
           "cosmos.bank.v1beta1.QueryBalanceRequest" bank.QueryBalanceRequest).
  - vm_compute. reflexivity.
  - reflexivity.
  - reflexivity.
Defined.

(** * Templates by their parts *)

(** ** Strings and scanning *)

Lemma substring_prefix (m s : string) : substring 0 (String.length m) (m +:+ s) = m.
Proof.
  induction m as [|c m IH]; [destruct s; reflexivity|].
  change (String c m +:+ s) with (String c (m +:+ s)).
  cbn [String.length substring]. rewrite IH. reflexivity.
Qed.

Lemma slice_middle (pre m s : string) :
  regexp.slice (pre +:+ m +:+ s) (String.length pre) (String.length pre + String.length m)
  = m.
Proof.
  unfold regexp.slice.
  replace (String.length pre + String.length m - String.length pre)
    with (String.length m) by lia.
  induction pre as [|c pre IH]; [exact (substring_prefix m s) | exact IH].
Qed.

Section Scan.
Context {St : Type}.
Variable re : regexp.Regexp.
Variable repl : string -> St -> outcome (string * St).
Variable src : string.

Lemma replaceAll_silent (a s : string) : forall pos st,
  silent re a s ->
  regexp.replaceAll re repl src (a +:+ s) pos 0 st
  = ('(out, st') ← regexp.replaceAll re repl src s (pos + String.length a) 0 st;
     Returns (a +:+ out, st')).
Proof.
  induction a as [|c a IH]; intros pos st Hsilent.
  - change ("" +:+ s) with s. cbn [String.length]. rewrite Nat.add_0_r.
    destruct (regexp.replaceAll re repl src s pos 0 st) as [[out st']|]; reflexivity.
  - destruct Hsilent as [Hhere Hrest].
    change (String c a +:+ s) with (String c (a +:+ s)).
    cbn [regexp.replaceAll String.length]. rewrite Hhere, (IH _ _ Hrest).
    replace (pos + S (String.length a)) with (S pos + String.length a) by lia.
    destruct (regexp.replaceAll re repl src s (S pos + String.length a) 0 st)
      as [[out st']|]; reflexivity.
Qed.

Lemma replaceAll_skip (a s : string) : forall pos st,
  regexp.replaceAll re repl src (a +:+ s) pos (String.length a) st
  = regexp.replaceAll re repl src s (pos + String.length a) 0 st.
Proof.
  induction a as [|c a IH]; intros pos st.
  - change ("" +:+ s) with s. cbn [String.length]. rewrite Nat.add_0_r. reflexivity.
  - change (String c a +:+ s) with (String c (a +:+ s)).
    cbn [regexp.replaceAll String.length]. rewrite IH.
    replace (pos + S (String.length a)) with (S pos + String.length a) by lia.
    reflexivity.
Qed.

Lemma replaceAll_match (m s : string) (pos : nat) (st st1 : St) (g : string)
    (caps : regexp.captures) :
  m ≠ EmptyString ->
  regexp.matchAt re (m +:+ s) pos = Some (pos + String.length m, caps) ->
  regexp.slice src pos (pos + String.length m) = m ->
  repl m st = Returns (g, st1) ->
  regexp.replaceAll re repl src (m +:+ s) pos 0 st
  = ('(out, st2) ← regexp.replaceAll re repl src s (pos + String.length m) 0 st1;
     Returns (g +:+ out, st2)).
Proof.
  intros Hne Hmatch Hslice Hrepl. destruct m as [|c m]; [congruence|].
  change (String c m +:+ s) with (String c (m +:+ s)) in *.
  cbn [regexp.replaceAll]. rewrite Hmatch.
  assert (Hlt : (pos + String.length (String c m) <=? pos) = false).
  { apply Nat.leb_gt. cbn [String.length]. lia. }
  rewrite Hlt, Hslice, Hrepl, bind_Returns. cbv beta iota.
  replace (pos + String.length (String c m) - pos - 1) with (String.length m)
    by (cbn [String.length]; lia).
  rewrite replaceAll_skip. cbn [String.length].
  replace (pos + S (String.length m)) with (S pos + String.length m) by lia.
  reflexivity.
Qed.
End Scan.

(** ** Escaping *)

Lemma QuoteMeta_append (a b : string) :
  regexp.QuoteMeta (a +:+ b) = regexp.QuoteMeta a +:+ regexp.QuoteMeta b.
Proof.
  induction a as [|c a IH]; [reflexivity|].
  change (String c a +:+ b) with (String c (a +:+ b)).
  cbn [regexp.QuoteMeta]. rewrite IH. destruct (regexp.special c); reflexivity.
Qed.

Lemma isword_facts (c : ascii) :
  regexp.isword c = true ->
  regexp.special c = false /\ Ascii.eqb c "=" = false /\ Ascii.eqb c "}" = false /\
  Ascii.eqb c "\" = false /\ Ascii.eqb c "010" = false /\ Ascii.eqb c "{" = false.
Proof.
  destruct c as [[] [] [] [] [] [] [] []]; intros H; vm_compute in H;
    try discriminate H; repeat split; reflexivity.
Qed.

Lemma QuoteMeta_word (n : string) : allWord n = true -> regexp.QuoteMeta n = n.
Proof.
  induction n as [|c n IH]; intros H; [reflexivity|].
  cbn [allWord] in H. apply andb_true_iff in H as [Hc Hn].
  cbn [regexp.QuoteMeta]. rewrite (proj1 (isword_facts c Hc)), (IH Hn). reflexivity.
Qed.

Lemma QuoteMeta_render (seg : segment) :
  wellFormed seg = true -> regexp.QuoteMeta (render seg) = escaped seg.
Proof.
  destruct seg as [text|name|name]; cbn [wellFormed render escaped]; intros H.
  - reflexivity.
  - apply andb_true_iff in H as [_ H].
    rewrite !QuoteMeta_append, (QuoteMeta_word name H). reflexivity.
  - apply andb_true_iff in H as [_ H].
    rewrite !QuoteMeta_append, (QuoteMeta_word name H). reflexivity.
Qed.

Lemma QuoteMeta_joined (segs : list segment) :
  forallb wellFormed segs = true ->
  regexp.QuoteMeta (joined render segs) = joined escaped segs.
Proof.
  induction segs as [|seg segs IH]; intros H; [reflexivity|].
  cbn [forallb] in H. apply andb_true_iff in H as [Hseg Hsegs].
  cbn [joined foldr]. rewrite QuoteMeta_append, (QuoteMeta_render seg Hseg).
  f_equal. exact (IH Hsegs).
Qed.

(** ** Runs of word bytes under repetition *)

Lemma repeat_lazy_word {R} (c : regexp.class) (n s : string)
    (k : string -> nat -> option R) :
  allWord n = true ->
  (forall a, regexp.isword a = true -> regexp.accepts c a = true) ->
  (forall a x p, regexp.isword a = true -> k (String a x) p = None) ->
  forall min pos,
    regexp.repeat c false min (n +:+ s) pos k
    = regexp.repeat c false (min - String.length n) s (pos + String.length n) k.
Proof.
  intros Hn Hc Hk. induction n as [|a n IH]; intros min pos.
  - change ("" +:+ s) with s. cbn [String.length].
    rewrite Nat.sub_0_r, Nat.add_0_r. reflexivity.
  - cbn [allWord] in Hn. apply andb_true_iff in Hn as [Ha Hn].
    change (String a n +:+ s) with (String a (n +:+ s)).
    cbn [regexp.repeat String.length]. rewrite (Hc a Ha), (Hk a _ _ Ha), (IH Hn).
    replace (Nat.pred min - String.length n) with (min - S (String.length n)) by lia.
    replace (S pos + String.length n) with (pos + S (String.length n)) by lia.
    destruct min; reflexivity.
Qed.

Lemma repeat_greedy_word {R} (c : regexp.class) (n s : string)
    (k : string -> nat -> option R) (r : R) :
  allWord n = true ->
  (forall a, regexp.isword a = true -> regexp.accepts c a = true) ->
  forall min pos,
    regexp.repeat c true (min - String.length n) s (pos + String.length n) k = Some r ->
    regexp.repeat c true min (n +:+ s) pos k = Some r.
Proof.
  intros Hn Hc. induction n as [|a n IH]; intros min pos H.
  - change ("" +:+ s) with s. cbn [String.length] in H.
    rewrite Nat.sub_0_r, Nat.add_0_r in H. exact H.
  - cbn [allWord] in Hn. apply andb_true_iff in Hn as [Ha Hn].
    change (String a n +:+ s) with (String a (n +:+ s)).
    cbn [regexp.repeat]. rewrite (Hc a Ha), (IH Hn (Nat.pred min) (S pos)); [reflexivity|].
    cbn [String.length] in H.
    replace (Nat.pred min - String.length n) with (min - S (String.length n)) by lia.
    replace (S pos + String.length n) with (pos + S (String.length n)) by lia.
    exact H.
Qed.

Lemma word_not_brace_class (a : ascii) :
  regexp.isword a = true -> regexp.accepts (regexp.NotChar "}") a = true.
Proof.
  intros H. cbn [regexp.accepts].
  destruct (isword_facts a H) as (_ & _ & -> & _). reflexivity.
Qed.

Lemma word_any_class (a : ascii) :
  regexp.isword a = true -> regexp.accepts regexp.AnyCharNotNL a = true.
Proof.
  intros H. cbn [regexp.accepts].
  destruct (isword_facts a H) as (_ & _ & _ & _ & -> & _). reflexivity.
Qed.

(** ** The four patterns of [patternToRegex] on a wildcard *)

Lemma multi_pattern :
  regexp.MustCompile "\\\{([^}]+?)=\\\*\\\*\\}"
  = Returns (regexp.concat
               [regexp.Char (regexp.Literal "\"); regexp.Char (regexp.Literal "{");
                regexp.Capture 1
                  (regexp.concat [regexp.Repeat (regexp.NotChar "}") 1 false]);
                regexp.Char (regexp.Literal "="); regexp.Char (regexp.Literal "\");
                regexp.Char (regexp.Literal "*"); regexp.Char (regexp.Literal "\");
                regexp.Char (regexp.Literal "*"); regexp.Char (regexp.Literal "\");
                regexp.Char (regexp.Literal "}")]).
Proof. vm_compute. reflexivity. Qed.

Lemma matchAt_multi (n s : string) (pos : nat) :
  allWord n = true -> n ≠ EmptyString ->
  regexp.matchAt
    (regexp.concat
       [regexp.Char (regexp.Literal "\"); regexp.Char (regexp.Literal "{");
        regexp.Capture 1
          (regexp.concat [regexp.Repeat (regexp.NotChar "}") 1 false]);
        regexp.Char (regexp.Literal "="); regexp.Char (regexp.Literal "\");
        regexp.Char (regexp.Literal "*"); regexp.Char (regexp.Literal "\");
        regexp.Char (regexp.Literal "*"); regexp.Char (regexp.Literal "\");
        regexp.Char (regexp.Literal "}")])
    ("\{" +:+ n +:+ "=\*\*\}" +:+ s) pos
  = Some (pos + String.length ("\{" +:+ n +:+ "=\*\*\}"),
          [(1, (S (S pos), S (S pos) + String.length n))]).
Proof.
  intros Hn Hne. unfold regexp.matchAt, regexp.concat.
  change ("\{" +:+ n +:+ "=\*\*\}" +:+ s)
    with (String "\" (String "{" (n +:+ "=\*\*\}" +:+ s))).
  cbn [foldr regexp.backtrack regexp.accepts Ascii.eqb Bool.eqb].
  erewrite repeat_lazy_word; [ | exact Hn | exact word_not_brace_class | ].
  2: { intros a x p Ha. cbv beta.
       destruct (isword_facts a Ha) as (_ & -> & _). reflexivity. }
  replace (1 - String.length n) with 0 by (destruct n; [congruence | cbn; lia]).
  change ("=\*\*\}" +:+ s)
    with (String "=" (String "\" (String "*" (String "\" (String "*"
            (String "\" (String "}" s))))))).
  cbn [regexp.repeat regexp.accepts Ascii.eqb Bool.eqb].
  f_equal. f_equal. rewrite !append_length. cbn [String.length]. lia.
Qed.

Lemma matchAt_multi_on_single (n s : string) (pos : nat) :
  allWord n = true ->
  regexp.matchAt
    (regexp.concat
       [regexp.Char (regexp.Literal "\"); regexp.Char (regexp.Literal "{");
        regexp.Capture 1
          (regexp.concat [regexp.Repeat (regexp.NotChar "}") 1 false]);
        regexp.Char (regexp.Literal "="); regexp.Char (regexp.Literal "\");
        regexp.Char (regexp.Literal "*"); regexp.Char (regexp.Literal "\");
        regexp.Char (regexp.Literal "*"); regexp.Char (regexp.Literal "\");
        regexp.Char (regexp.Literal "}")])
    ("\{" +:+ n +:+ "\}" +:+ s) pos
  = None.
Proof.
  intros Hn. unfold regexp.matchAt, regexp.concat.
  change ("\{" +:+ n +:+ "\}" +:+ s) with (String "\" (String "{" (n +:+ "\}" +:+ s))).
  cbn [foldr regexp.backtrack regexp.accepts Ascii.eqb Bool.eqb].
  erewrite repeat_lazy_word; [ | exact Hn | exact word_not_brace_class | ].
  2: { intros a x p Ha. cbv beta.
       destruct (isword_facts a Ha) as (_ & -> & _). reflexivity. }
  change ("\}" +:+ s) with (String "\" (String "}" s)).
  destruct (1 - String.length n) as [|[|m]]; reflexivity.
Qed.

Lemma multi_name_pattern :
  regexp.MustCompile "\\\{(.+?)="
  = Returns (regexp.concat
               [regexp.Char (regexp.Literal "\"); regexp.Char (regexp.Literal "{");
                regexp.Capture 1
                  (regexp.concat [regexp.Repeat regexp.AnyCharNotNL 1 false]);
                regexp.Char (regexp.Literal "=")]).
Proof. vm_compute. reflexivity. Qed.

Lemma multi_callback (n : string) (names : list string) :
  allWord n = true -> n ≠ EmptyString ->
  (re ← regexp.MustCompile "\\\{(.+?)=";
   name ← index (regexp.FindStringSubmatch re ("\{" +:+ n +:+ "=\*\*\}")) 1;
   mret ("(.+)", names ++ [name]))
  = Returns ("(.+)", names ++ [n]).
Proof.
  intros Hn Hne. rewrite multi_name_pattern, bind_Returns.
  unfold regexp.FindStringSubmatch. rewrite search_unfold.
  assert (Hmatch :
    regexp.matchAt
      (regexp.concat
         [regexp.Char (regexp.Literal "\"); regexp.Char (regexp.Literal "{");
          regexp.Capture 1
            (regexp.concat [regexp.Repeat regexp.AnyCharNotNL 1 false]);
          regexp.Char (regexp.Literal "=")])
      ("\{" +:+ n +:+ "=\*\*\}") 0
    = Some (S (2 + String.length n), [(1, (2, 2 + String.length n))])).
  { unfold regexp.matchAt, regexp.concat.
    change ("\{" +:+ n +:+ "=\*\*\}") with (String "\" (String "{" (n +:+ "=\*\*\}"))).
    cbn [foldr regexp.backtrack regexp.accepts Ascii.eqb Bool.eqb].
    erewrite repeat_lazy_word; [ | exact Hn | exact word_any_class | ].
    2: { intros a x p Ha. cbv beta.
         destruct (isword_facts a Ha) as (_ & -> & _). reflexivity. }
    replace (1 - String.length n) with 0 by (destruct n; [congruence | cbn; lia]).
    reflexivity. }
  rewrite Hmatch.
  change (regexp.NumSubexp _) with 1.
  cbn [seq map regexp.cap_lookup Nat.eqb index lookup list_lookup].
  rewrite bind_Returns.
  change (regexp.slice ("\{" +:+ n +:+ "=\*\*\}") 2 (2 + String.length n))
    with (regexp.slice ("\{" +:+ n +:+ "=\*\*\}") (String.length "\{")
            (String.length "\{" + String.length n)).
  rewrite slice_middle. reflexivity.
Qed.

Lemma single_pattern :
  regexp.MustCompile "\\\{([^}]+)\\}"
  = Returns (regexp.concat
               [regexp.Char (regexp.Literal "\"); regexp.Char (regexp.Literal "{");
                regexp.Capture 1
                  (regexp.concat [regexp.Repeat (regexp.NotChar "}") 1 true]);
                regexp.Char (regexp.Literal "\"); regexp.Char (regexp.Literal "}")]).
Proof. vm_compute. reflexivity. Qed.

Lemma matchAt_single (n s : string) (pos : nat) :
  allWord n = true -> n ≠ EmptyString ->
  regexp.matchAt
    (regexp.concat
       [regexp.Char (regexp.Literal "\"); regexp.Char (regexp.Literal "{");
        regexp.Capture 1
          (regexp.concat [regexp.Repeat (regexp.NotChar "}") 1 true]);
        regexp.Char (regexp.Literal "\"); regexp.Char (regexp.Literal "}")])
    ("\{" +:+ n +:+ "\}" +:+ s) pos
  = Some (pos + String.length ("\{" +:+ n +:+ "\}"),
          [(1, (S (S pos), S (S pos) + String.length n))]).
Proof.
  intros Hn Hne. unfold regexp.matchAt, regexp.concat.
  change ("\{" +:+ n +:+ "\}" +:+ s) with (String "\" (String "{" (n +:+ "\}" +:+ s))).
  cbn [foldr regexp.backtrack regexp.accepts Ascii.eqb Bool.eqb].
  apply repeat_greedy_word; [exact Hn | exact word_not_brace_class |].
  replace (1 - String.length n) with 0 by (destruct n; [congruence | cbn; lia]).
  change ("\}" +:+ s) with (String "\" (String "}" s)).
  cbn [regexp.repeat regexp.accepts Ascii.eqb Bool.eqb negb Nat.pred].
  f_equal. f_equal. rewrite !append_length. cbn [String.length]. lia.
Qed.

Lemma single_name_pattern :
  regexp.MustCompile "\\\{(.*?)\\}"
  = Returns (regexp.concat
               [regexp.Char (regexp.Literal "\"); regexp.Char (regexp.Literal "{");
                regexp.Capture 1
                  (regexp.concat [regexp.Repeat regexp.AnyCharNotNL 0 false]);
                regexp.Char (regexp.Literal "\"); regexp.Char (regexp.Literal "}")]).
Proof. vm_compute. reflexivity. Qed.

Lemma single_callback (n : string) (names : list string) :
  allWord n = true ->
  (re ← regexp.MustCompile "\\\{(.*?)\\}";
   name ← index (regexp.FindStringSubmatch re ("\{" +:+ n +:+ "\}")) 1;
   mret ("([^/]+)", names ++ [name]))
  = Returns ("([^/]+)", names ++ [n]).
Proof.
  intros Hn. rewrite single_name_pattern, bind_Returns.
  unfold regexp.FindStringSubmatch. rewrite search_unfold.
  assert (Hmatch :
    regexp.matchAt
      (regexp.concat
         [regexp.Char (regexp.Literal "\"); regexp.Char (regexp.Literal "{");
          regexp.Capture 1
            (regexp.concat [regexp.Repeat regexp.AnyCharNotNL 0 false]);
          regexp.Char (regexp.Literal "\"); regexp.Char (regexp.Literal "}")])
      ("\{" +:+ n +:+ "\}") 0
    = Some (S (S (2 + String.length n)), [(1, (2, 2 + String.length n))])).
  { unfold regexp.matchAt, regexp.concat.
    change ("\{" +:+ n +:+ "\}") with (String "\" (String "{" (n +:+ "\}"))).
    cbn [foldr regexp.backtrack regexp.accepts Ascii.eqb Bool.eqb].
    erewrite repeat_lazy_word; [ | exact Hn | exact word_any_class | ].
    2: { intros a x p Ha. cbv beta.
         destruct (isword_facts a Ha) as (_ & _ & _ & -> & _). reflexivity. }
    reflexivity. }
  rewrite Hmatch.
  change (regexp.NumSubexp _) with 1.
  cbn [seq map regexp.cap_lookup Nat.eqb index lookup list_lookup].
  rewrite bind_Returns.
  change (regexp.slice ("\{" +:+ n +:+ "\}") 2 (2 + String.length n))
    with (regexp.slice ("\{" +:+ n +:+ "\}") (String.length "\{")
            (String.length "\{" + String.length n)).
  rewrite slice_middle. reflexivity.
Qed.

(** ** Where the wildcard patterns cannot begin *)

Lemma matchAt_not_wild (r : regexp.Regexp) (x : string) (pos : nat) :
  startsWild x = false ->
  regexp.matchAt
    (regexp.Concat (regexp.Char (regexp.Literal "\"))
       (regexp.Concat (regexp.Char (regexp.Literal "{")) r)) x pos = None.
Proof.
  intros H. unfold regexp.matchAt. cbn [regexp.backtrack regexp.accepts].
  destruct x as [|c x]; [reflexivity|].
  cbn [startsWild] in H. destruct (Ascii.eqb c "\"); [|reflexivity].
  destruct x as [|d x]; [reflexivity|].
  cbn [andb] in H. rewrite H. reflexivity.
Qed.

Lemma silent_of_quiet (r : regexp.Regexp) (a s : string) :
  quiet a s = true ->
  silent (regexp.Concat (regexp.Char (regexp.Literal "\"))
            (regexp.Concat (regexp.Char (regexp.Literal "{")) r)) a s.
Proof.
  induction a as [|c a IH]; intros H; [exact I|].
  cbn [quiet] in H. apply andb_true_iff in H as [Hhere Hrest].
  apply negb_true_iff in Hhere.
  split; [intros pos; apply matchAt_not_wild; exact Hhere | exact (IH Hrest)].
Qed.

Lemma startsWild_head (c : ascii) (x : string) :
  headNotBrace x = true -> startsWild (String c x) = false.
Proof.
  intros H. cbn [startsWild]. destruct x as [|d x]; [apply andb_false_r|].
  cbn [headNotBrace] in H. apply negb_true_iff in H. rewrite H. apply andb_false_r.
Qed.

Lemma quiet_word (n s : string) : allWord n = true -> quiet n s = true.
Proof.
  induction n as [|a n IH]; intros H; [reflexivity|].
  cbn [allWord] in H. apply andb_true_iff in H as [Ha Hn].
  cbn [quiet startsWild].
  destruct (isword_facts a Ha) as (_ & _ & _ & -> & _).
  cbn [andb negb]. exact (IH Hn).
Qed.

Lemma quiet_append (a b s : string) :
  quiet (a +:+ b) s = quiet a (b +:+ s) && quiet b s.
Proof.
  induction a as [|c a IH]; [reflexivity|].
  change (String c a +:+ b) with (String c (a +:+ b)).
  cbn [quiet]. rewrite IH, append_assoc, andb_assoc. reflexivity.
Qed.

Lemma head_QuoteMeta (p s : string) :
  ContainsByte p "{" = false -> headNotBrace s = true ->
  headNotBrace (regexp.QuoteMeta p +:+ s) = true.
Proof.
  intros Hp Hs. destruct p as [|c p]; [exact Hs|].
  cbn [ContainsByte] in Hp. apply orb_false_iff in Hp as [Hc _].
  cbn [regexp.QuoteMeta]. destruct (regexp.special c); [reflexivity|].
  change (String c (regexp.QuoteMeta p) +:+ s) with (String c (regexp.QuoteMeta p +:+ s)).
  cbn [headNotBrace]. rewrite Hc. reflexivity.
Qed.

Lemma quiet_QuoteMeta (p s : string) :
  ContainsByte p "{" = false -> headNotBrace s = true ->
  quiet (regexp.QuoteMeta p) s = true.
Proof.
  intros Hp Hs. induction p as [|c p IH]; [reflexivity|].
  cbn [ContainsByte] in Hp. apply orb_false_iff in Hp as [Hc Hp].
  pose proof (head_QuoteMeta p s Hp Hs) as Hhead.
  cbn [regexp.QuoteMeta]. destruct (regexp.special c).
  - change (quiet (String "\" (String c (regexp.QuoteMeta p))) s)
      with (negb (startsWild (String "\" (String c (regexp.QuoteMeta p +:+ s))))
            && (negb (startsWild (String c (regexp.QuoteMeta p +:+ s)))
                && quiet (regexp.QuoteMeta p) s)).
    rewrite (startsWild_head c _ Hhead), (IH Hp).
    cbn [startsWild]. rewrite Hc. reflexivity.
  - cbn [quiet]. rewrite (startsWild_head c _ Hhead), (IH Hp). reflexivity.
Qed.

Lemma head_escaped (segs : list segment) :
  forallb wellFormed segs = true -> headNotBrace (joined escaped segs) = true.
Proof.
  induction segs as [|seg segs IH]; intros H; [reflexivity|].
  cbn [forallb] in H. apply andb_true_iff in H as [Hseg Hsegs].
  cbn [joined foldr]. destruct seg as [text|name|name]; cbn [escaped];
    [|reflexivity|reflexivity].
  apply head_QuoteMeta; [|exact (IH Hsegs)].
  cbn [wellFormed] in Hseg. apply negb_true_iff in Hseg. exact Hseg.
Qed.

Lemma head_afterMulti (segs : list segment) :
  forallb wellFormed segs = true -> headNotBrace (joined afterMulti segs) = true.
Proof.
  induction segs as [|seg segs IH]; intros H; [reflexivity|].
  cbn [forallb] in H. apply andb_true_iff in H as [Hseg Hsegs].
  cbn [joined foldr]. destruct seg as [text|name|name]; cbn [afterMulti];
    [|reflexivity|reflexivity].
  apply head_QuoteMeta; [|exact (IH Hsegs)].
  cbn [wellFormed] in Hseg. apply negb_true_iff in Hseg. exact Hseg.
Qed.

Lemma wellFormed_name (name : string) :
  (0 <? String.length name) && allWord name = true ->
  allWord name = true /\ name ≠ EmptyString.
Proof.
  intros H. apply andb_true_iff in H as [Hlen Hword].
  split; [exact Hword|]. intros ->. discriminate Hlen.
Qed.

(** ** The two passes of [patternToRegex] *)

Lemma pass_multi (segs : list segment) :
  forallb wellFormed segs = true ->
  forall (pre : string) (names : list string),
    regexp.replaceAll
      (regexp.concat
         [regexp.Char (regexp.Literal "\"); regexp.Char (regexp.Literal "{");
          regexp.Capture 1
            (regexp.concat [regexp.Repeat (regexp.NotChar "}") 1 false]);
          regexp.Char (regexp.Literal "="); regexp.Char (regexp.Literal "\");
          regexp.Char (regexp.Literal "*"); regexp.Char (regexp.Literal "\");
          regexp.Char (regexp.Literal "*"); regexp.Char (regexp.Literal "\");
          regexp.Char (regexp.Literal "}")])
      (fun matched wildcardNames =>
         re ← regexp.MustCompile "\\\{(.+?)=";
         name ← index (regexp.FindStringSubmatch re matched) 1;
         mret ("(.+)", wildcardNames ++ [name]))
      (pre +:+ joined escaped segs) (joined escaped segs) (String.length pre) 0 names
    = Returns (joined afterMulti segs, names ++ multiNames segs).
Proof.
  induction segs as [|seg segs IH]; intros H pre names.
  - cbn. rewrite app_nil_r. reflexivity.
  - cbn [forallb] in H. apply andb_true_iff in H as [Hseg Hsegs].
    cbn [joined foldr]. fold (joined escaped segs). fold (joined afterMulti segs).
    destruct seg as [text|name|name]; cbn [escaped afterMulti wellFormed] in *.
    + (* a literal text is scanned without a match *)
      apply negb_true_iff in Hseg.
      rewrite replaceAll_silent.
      2: { apply silent_of_quiet. apply quiet_QuoteMeta;
             [exact Hseg | exact (head_escaped segs Hsegs)]. }
      rewrite <- append_length,
        <- (append_assoc pre (regexp.QuoteMeta text) (joined escaped segs)), (IH Hsegs).
      reflexivity.
    + (* a single-segment wildcard is not matched in this pass *)
      apply wellFormed_name in Hseg as [Hword Hne].
      rewrite replaceAll_silent.
      2: { change ("\{" +:+ name +:+ "\}") with (String "\" (String "{" (name +:+ "\}"))).
           split.
           - intros pos.
             change (String "\" (String "{" (name +:+ "\}") +:+ joined escaped segs))
               with ("\{" +:+ ((name +:+ "\}") +:+ joined escaped segs)).
             rewrite append_assoc. apply matchAt_multi_on_single. exact Hword.
           - apply silent_of_quiet.
             change (String "{" (name +:+ "\}")) with ("{" +:+ (name +:+ "\}")).
             rewrite (quiet_append "{"), (quiet_append name), (quiet_word name _ Hword).
             reflexivity. }
      rewrite <- append_length,
        <- (append_assoc pre ("\{" +:+ name +:+ "\}") (joined escaped segs)), (IH Hsegs).
      reflexivity.
    + (* a multi-segment wildcard is replaced and its name recorded *)
      apply wellFormed_name in Hseg as [Hword Hne].
      erewrite replaceAll_match.
      2: { intros Heq. discriminate Heq. }
      2: { rewrite !append_assoc. apply matchAt_multi; assumption. }
      2: { apply slice_middle. }
      2: { apply multi_callback; assumption. }
      rewrite <- append_length,
        <- (append_assoc pre ("\{" +:+ name +:+ "=\*\*\}") (joined escaped segs)),
        (IH Hsegs).
      cbn [omap multiNames]. rewrite bind_Returns. cbv beta iota.
      rewrite <- app_assoc. reflexivity.
Qed.

Lemma pass_single (segs : list segment) :
  forallb wellFormed segs = true ->
  forall (pre : string) (names : list string),
    regexp.replaceAll
      (regexp.concat
         [regexp.Char (regexp.Literal "\"); regexp.Char (regexp.Literal "{");
          regexp.Capture 1
            (regexp.concat [regexp.Repeat (regexp.NotChar "}") 1 true]);
          regexp.Char (regexp.Literal "\"); regexp.Char (regexp.Literal "}")])
      (fun matched wildcardNames =>
         re ← regexp.MustCompile "\\\{(.*?)\\}";
         name ← index (regexp.FindStringSubmatch re matched) 1;
         mret ("([^/]+)", wildcardNames ++ [name]))
      (pre +:+ joined afterMulti segs) (joined afterMulti segs) (String.length pre) 0 names
    = Returns (joined afterSingle segs, names ++ singleNames segs).
Proof.
  induction segs as [|seg segs IH]; intros H pre names.
  - cbn. rewrite app_nil_r. reflexivity.
  - cbn [forallb] in H. apply andb_true_iff in H as [Hseg Hsegs].
    cbn [joined foldr]. fold (joined afterMulti segs). fold (joined afterSingle segs).
    destruct seg as [text|name|name]; cbn [afterMulti afterSingle wellFormed] in *.
    + (* a literal text is scanned without a match *)
      apply negb_true_iff in Hseg.
      rewrite replaceAll_silent.
      2: { apply silent_of_quiet. apply quiet_QuoteMeta;
             [exact Hseg | exact (head_afterMulti segs Hsegs)]. }
      rewrite <- append_length,
        <- (append_assoc pre (regexp.QuoteMeta text) (joined afterMulti segs)), (IH Hsegs).
      reflexivity.
    + (* a single-segment wildcard is replaced and its name recorded *)
      apply wellFormed_name in Hseg as [Hword Hne].
      erewrite replaceAll_match.
      2: { intros Heq. discriminate Heq. }
      2: { rewrite !append_assoc. apply matchAt_single; assumption. }
      2: { apply slice_middle. }
      2: { apply single_callback; assumption. }
      rewrite <- append_length,
        <- (append_assoc pre ("\{" +:+ name +:+ "\}") (joined afterMulti segs)),
        (IH Hsegs).
      cbn [omap singleNames]. rewrite bind_Returns. cbv beta iota.
      rewrite <- app_assoc. reflexivity.
    + (* the group of a multi-segment wildcard is scanned without a match *)
      rewrite replaceAll_silent by (apply silent_of_quiet; reflexivity).
      rewrite <- append_length,
        <- (append_assoc pre "(.+)" (joined afterMulti segs)), (IH Hsegs).
      reflexivity.
Qed.

Lemma patternToRegex_joined (segs : list segment) :
  forallb wellFormed segs = true ->
  patternToRegex (joined render segs)
  = Returns ("^" +:+ joined afterSingle segs +:+ "$",
             multiNames segs ++ singleNames segs).
Proof.
  intros H. unfold patternToRegex.
  rewrite multi_pattern, bind_Returns. unfold regexp.ReplaceAllStringFunc.
  rewrite (QuoteMeta_joined segs H).
  pose proof (pass_multi segs H "" []) as Hmulti.
  change ("" +:+ joined escaped segs) with (joined escaped segs) in Hmulti.
  change (String.length "") with 0 in Hmulti.
  rewrite Hmulti, bind_Returns. cbv beta iota.
  rewrite single_pattern, bind_Returns.
  pose proof (pass_single segs H "" ([] ++ multiNames segs)) as Hsingle.
  change ("" +:+ joined afterMulti segs) with (joined afterMulti segs) in Hsingle.
  change (String.length "") with 0 in Hsingle.
  rewrite Hsingle, bind_Returns. reflexivity.
Qed.

(** X9: for a template made of literal texts without an opening brace and
    of wildcards named by word bytes, [patternToRegex] returns, without
    panic, the pattern that has one group per wildcard in the order of the
    template, and the names of the multi-segment wildcards followed by the
    names of the single-segment ones. *)
Theorem patternToRegex_by_parts (segs : list segment) :
  forallb wellFormed segs = true ->
  patternToRegex (joined render segs)
  = Returns ("^" +:+ joined afterSingle segs +:+ "$",
             multiNames segs ++ singleNames segs).
Proof.
  exact (patternToRegex_joined segs).
Qed.

Lemma patternToRegex_by_parts_witness :
  patternToRegex (joined render [Lit "a/"; Single "x"; Lit "/"; Multi "rest"; Single "y"])
  = Returns ("^" +:+ joined afterSingle
                       [Lit "a/"; Single "x"; Lit "/"; Multi "rest"; Single "y"] +:+ "$",
             multiNames [Lit "a/"; Single "x"; Lit "/"; Multi "rest"; Single "y"]
             ++ singleNames [Lit "a/"; Single "x"; Lit "/"; Multi "rest"; Single "y"]).
Proof.
  apply patternToRegex_by_parts. reflexivity.
Defined.

(** ** Compiling the pattern of a template *)

Lemma lex_group_single (x : string) :
  regexp.lex ("([^/]+)" +:+ x) = app (groupTokens (regexp.NotChar "/")) <$> regexp.lex x.
Proof.
  change (regexp.lex ("([^/]+)" +:+ x))
    with (cons regexp.TOpen
            <$> (cons (regexp.TChar (regexp.NotChar "/"))
                   <$> (cons regexp.TPlus <$> (cons regexp.TClose <$> regexp.lex x)))).
  destruct (regexp.lex x); reflexivity.
Qed.

Lemma lex_group_multi (x : string) :
  regexp.lex ("(.+)" +:+ x) = app (groupTokens regexp.AnyCharNotNL) <$> regexp.lex x.
Proof.
  change (regexp.lex ("(.+)" +:+ x))
    with (cons regexp.TOpen
            <$> (cons (regexp.TChar regexp.AnyCharNotNL)
                   <$> (cons regexp.TPlus <$> (cons regexp.TClose <$> regexp.lex x)))).
  destruct (regexp.lex x); reflexivity.
Qed.

Lemma lex_joined (segs : list segment) (rest : string) :
  regexp.lex (joined afterSingle segs +:+ rest)
  = app (concat (partTokens <$> segs)) <$> regexp.lex rest.
Proof.
  induction segs as [|seg segs IH].
  - change (joined afterSingle [] +:+ rest) with rest.
    destruct (regexp.lex rest); reflexivity.
  - cbn [joined foldr]. fold (joined afterSingle segs).
    rewrite append_assoc. cbn [fmap list_fmap concat].
    destruct seg as [text|name|name]; cbn [afterSingle partTokens].
    + rewrite lex_QuoteMeta, IH. destruct (regexp.lex rest); cbn; [|reflexivity].
      rewrite app_assoc. reflexivity.
    + rewrite lex_group_single, IH. destruct (regexp.lex rest); reflexivity.
    + rewrite lex_group_multi, IH. destruct (regexp.lex rest); reflexivity.
Qed.

Lemma parse_literal_prefix (cs : list ascii) (ts : list regexp.token)
    (stack : list (nat * list regexp.Regexp)) (ncap : nat) :
  noQuantifier ts = true ->
  forall cur,
    regexp.parse (map (fun c => regexp.TChar (regexp.Literal c)) cs ++ ts) stack cur ncap
    = regexp.parse ts stack
        (rev (map (fun c => regexp.Char (regexp.Literal c)) cs) ++ cur) ncap.
Proof.
  intros Hts. induction cs as [|c cs IH]; intros cur; [reflexivity|].
  cbn [map rev]. rewrite <- app_assoc. cbn [app]. rewrite <- IH.
  destruct cs as [|c' cs'].
  - cbn [map app]. destruct ts as [|[] ts']; try reflexivity; discriminate Hts.
  - reflexivity.
Qed.

Lemma noQuantifier_parts (segs : list segment) (ts : list regexp.token) :
  noQuantifier ts = true ->
  noQuantifier (concat (partTokens <$> segs) ++ ts) = true.
Proof.
  intros Hts. induction segs as [|seg segs IH]; [exact Hts|].
  cbn [fmap list_fmap concat]. rewrite <- app_assoc.
  destruct seg as [text|name|name]; [|reflexivity|reflexivity].
  cbn [partTokens]. unfold literalTokens.
  destruct (list_ascii_of_string text); [exact IH | reflexivity].
Qed.

Lemma parse_parts (segs : list segment) : forall cur ncap,
  regexp.parse (concat (partTokens <$> segs) ++ [regexp.TEol]) [] cur ncap
  = Some (regexp.concat (rev cur ++ partItems segs ncap ++ [regexp.EndText])).
Proof.
  induction segs as [|seg segs IH]; intros cur ncap.
  - reflexivity.
  - cbn [fmap list_fmap concat]. rewrite <- app_assoc.
    destruct seg as [text|name|name]; cbn [partTokens partItems].
    + unfold literalTokens.
      rewrite parse_literal_prefix by (apply noQuantifier_parts; reflexivity).
      rewrite IH, rev_app_distr, rev_involutive, <- !app_assoc. reflexivity.
    + change (regexp.parse (groupTokens (regexp.NotChar "/")
                             ++ concat (partTokens <$> segs) ++ [regexp.TEol]) [] cur ncap)
        with (regexp.parse (concat (partTokens <$> segs) ++ [regexp.TEol]) []
                (group (S ncap) (regexp.NotChar "/") :: cur) (S ncap)).
      rewrite IH. cbn [rev]. rewrite <- app_assoc. reflexivity.
    + change (regexp.parse (groupTokens regexp.AnyCharNotNL
                             ++ concat (partTokens <$> segs) ++ [regexp.TEol]) [] cur ncap)
        with (regexp.parse (concat (partTokens <$> segs) ++ [regexp.TEol]) []
                (group (S ncap) regexp.AnyCharNotNL :: cur) (S ncap)).
      rewrite IH. cbn [rev]. rewrite <- app_assoc. reflexivity.
Qed.

Lemma isword_ascii (c : ascii) : regexp.isword c = true -> (utf8.byte c <? 128)%N = true.
Proof.
  destruct c as [[] [] [] [] [] [] [] []]; intros H; vm_compute in H;
    try discriminate H; reflexivity.
Qed.

Lemma allWord_ascii (n : string) : allWord n = true -> isASCII n = true.
Proof.
  induction n as [|c n IH]; [reflexivity|]. cbn [allWord isASCII]. intros H.
  apply andb_true_iff in H as [Hc H]. rewrite (isword_ascii c Hc), (IH H). reflexivity.
Qed.

Lemma isASCII_append (a b : string) : isASCII (a +:+ b) = isASCII a && isASCII b.
Proof.
  induction a as [|c a IH]; [reflexivity|].
  change (String c a +:+ b) with (String c (a +:+ b)). cbn [isASCII].
  rewrite IH, andb_assoc. reflexivity.
Qed.

(** The pattern of a template is valid UTF-8 exactly when the template
    is: escaping and the two passes put bytes below 128 in the place of
    bytes below 128. *)
Lemma validUTF8_after (segs : list segment) :
  forallb wellFormed segs = true ->
  forall h,
    validUTF8 (regexp.QuoteMeta h +:+ joined afterSingle segs +:+ "$")
    = validUTF8 (h +:+ joined render segs).
Proof.
  induction segs as [|seg segs IH]; intros H h.
  - cbn [joined foldr]. change ("" +:+ "$") with "$".
    rewrite validUTF8_append by reflexivity.
    rewrite validUTF8_QuoteMeta, append_empty_r. apply andb_true_r.
  - cbn [forallb] in H. apply andb_true_iff in H as [Hseg Hsegs].
    cbn [joined foldr]. fold (joined afterSingle segs). fold (joined render segs).
    assert (Hgroup : forall (c : ascii) (g name : string),
              isASCII (String c g) = true ->
              (0 <? String.length name) && allWord name = true ->
              forall tail : string,
                isASCII tail = true ->
                validUTF8 (regexp.QuoteMeta h +:+ (String c g +:+ joined afterSingle segs)
                           +:+ "$")
                = validUTF8 (h +:+ ("{" +:+ name +:+ tail) +:+ joined render segs)).
    { intros c g name Hg Hname tail Htail.
      apply andb_true_iff in Hname as [_ Hname].
      rewrite (append_assoc (String c g)), (validUTF8_append (regexp.QuoteMeta h)).
      2: { change (String c g +:+ joined afterSingle segs +:+ "$")
             with (String c (g +:+ joined afterSingle segs +:+ "$")).
           cbn [headASCII]. cbn [isASCII] in Hg.
           apply andb_true_iff in Hg as [Hc _]. exact Hc. }
      rewrite (validUTF8_append h) by reflexivity.
      rewrite validUTF8_QuoteMeta. f_equal.
      unfold validUTF8. rewrite (checkUTF8_ascii (String c g)) by exact Hg.
      rewrite (checkUTF8_ascii ("{" +:+ name +:+ tail)).
      2: { change ("{" +:+ name +:+ tail) with (String "{" (name +:+ tail)).
           cbn [isASCII]. rewrite isASCII_append, (allWord_ascii name Hname), Htail.
           reflexivity. }
      exact (IH Hsegs EmptyString). }
    destruct seg as [text|name|name]; cbn [afterSingle render wellFormed] in *.
    + rewrite (append_assoc (regexp.QuoteMeta text)).
      rewrite <- (append_assoc (regexp.QuoteMeta h)), <- QuoteMeta_append.
      rewrite <- (append_assoc h). apply IH. exact Hsegs.
    + exact (Hgroup "("%char "[^/]+)" name eq_refl Hseg "}" eq_refl).
    + exact (Hgroup "("%char ".+)" name eq_refl Hseg "=**}" eq_refl).
Qed.

Lemma validUTF8_pattern (segs : list segment) :
  forallb wellFormed segs = true ->
  validUTF8 ("^" +:+ joined afterSingle segs +:+ "$") = validUTF8 (joined render segs).
Proof.
  intros H. unfold validUTF8 at 1. rewrite (checkUTF8_ascii "^") by reflexivity.
  exact (validUTF8_after segs H EmptyString).
Qed.

Lemma MustCompile_by_parts (segs : list segment) :
  forallb wellFormed segs = true ->
  regexp.MustCompile ("^" +:+ joined afterSingle segs +:+ "$")
  = if validUTF8 (joined render segs) then Returns (compiled segs) else Panics.
Proof.
  intros Hsegs. rewrite <- (validUTF8_pattern segs Hsegs).
  unfold regexp.MustCompile, validUTF8.
  destruct (regexp.checkUTF8 ("^" +:+ joined afterSingle segs +:+ "$") 0); [|reflexivity].
  change ("^" +:+ joined afterSingle segs +:+ "$")
    with (String "^" (joined afterSingle segs +:+ "$")).
  change (regexp.lex (String "^" (joined afterSingle segs +:+ "$")))
    with (cons regexp.TBol <$> regexp.lex (joined afterSingle segs +:+ "$")).
  rewrite lex_joined.
  change (regexp.lex "$") with (Some [regexp.TEol]).
  cbn [fmap option_fmap option_map mbind option_bind].
  change (regexp.parse (regexp.TBol :: concat (partTokens <$> segs) ++ [regexp.TEol]) [] [] 0)
    with (regexp.parse (concat (partTokens <$> segs) ++ [regexp.TEol]) []
            [regexp.BeginText] 0).
  rewrite parse_parts. reflexivity.
Qed.

Lemma NumSubexp_foldr (rs : list regexp.Regexp) :
  regexp.NumSubexp (regexp.concat rs) = foldr (fun r n => regexp.NumSubexp r + n) 0 rs.
Proof.
  induction rs as [|r rs IH]; [reflexivity|].
  cbn [regexp.concat foldr regexp.NumSubexp]. fold (regexp.concat rs).
  rewrite IH. reflexivity.
Qed.

Lemma NumSubexp_partItems (segs : list segment) (ncap : nat) :
  regexp.NumSubexp (regexp.concat (partItems segs ncap ++ [regexp.EndText]))
  = length (templateNames segs).
Proof.
  revert ncap. induction segs as [|seg segs IH]; intros ncap; [reflexivity|].
  destruct seg as [text|name|name]; cbn [partItems].
  - change (templateNames (Lit text :: segs)) with (templateNames segs).
    rewrite <- (IH ncap), !NumSubexp_foldr.
    rewrite <- app_assoc, foldr_app.
    generalize (foldr (fun r n => regexp.NumSubexp r + n) 0
                  (partItems segs ncap ++ [regexp.EndText])).
    unfold literalItems. induction (list_ascii_of_string text) as [|c cs IHcs];
      intros n; [reflexivity | exact (IHcs n)].
  - change (templateNames (Single name :: segs)) with (name :: templateNames segs).
    cbn [length]. rewrite <- (IH (S ncap)). reflexivity.
  - change (templateNames (Multi name :: segs)) with (name :: templateNames segs).
    cbn [length]. rewrite <- (IH (S ncap)). reflexivity.
Qed.

Lemma templateNames_length (segs : list segment) :
  length (multiNames segs ++ singleNames segs) = length (templateNames segs).
Proof.
  rewrite length_app.
  induction segs as [|[text|name|name] segs IH]; [reflexivity | exact IH | |].
  - change (length (multiNames segs) + S (length (singleNames segs))
            = S (length (templateNames segs))). lia.
  - change (S (length (multiNames segs)) + length (singleNames segs)
            = S (length (templateNames segs))). lia.
Qed.

Lemma NumSubexp_compiled (segs : list segment) :
  regexp.NumSubexp (compiled segs) = length (multiNames segs ++ singleNames segs).
Proof.
  rewrite templateNames_length, <- (NumSubexp_partItems segs 0). reflexivity.
Qed.

(** ** Trimming a template *)

Lemma TrimRight_append (a b cutset : string) :
  TrimRight (a +:+ b) cutset
  = match TrimRight b cutset with
    | EmptyString => TrimRight a cutset
    | String x t => a +:+ String x t
    end.
Proof.
  induction a as [|c a IH].
  - change ("" +:+ b) with b. destruct (TrimRight b cutset); reflexivity.
  - change (String c a +:+ b) with (String c (a +:+ b)).
    cbn [TrimRight]. rewrite IH.
    destruct (TrimRight b cutset) as [|x t]; [reflexivity|].
    destruct a; reflexivity.
Qed.

Lemma render_trimmed (segs : list segment) :
  forallb wellFormed segs = true ->
  exists segs', forallb wellFormed segs' = true /\
                TrimRight (joined render segs) "/" = joined render segs'.
Proof.
  induction segs as [|seg segs IH]; intros H.
  - exists []. split; reflexivity.
  - cbn [forallb] in H. apply andb_true_iff in H as [Hseg Hsegs].
    destruct (IH Hsegs) as (rest & Hrest & Htrim).
    cbn [joined foldr]. fold (joined render segs).
    rewrite TrimRight_append, Htrim.
    destruct (joined render rest) as [|x t] eqn:Hjoined.
    + destruct seg as [text|name|name]; cbn [render wellFormed] in *.
      * exists [Lit (TrimRight text "/")]. split.
        -- cbn [forallb wellFormed]. rewrite andb_true_r.
           apply negb_true_iff in Hseg. apply negb_true_iff.
           apply ContainsByte_TrimRight. exact Hseg.
        -- cbn [joined foldr render]. rewrite append_empty_r. reflexivity.
      * exists [Single name]. split; [cbn [forallb wellFormed]; rewrite Hseg; reflexivity|].
        cbn [joined foldr render]. rewrite append_empty_r, <- append_assoc.
        apply TrimRight_after_prefix; [discriminate | reflexivity].
      * exists [Multi name]. split; [cbn [forallb wellFormed]; rewrite Hseg; reflexivity|].
        cbn [joined foldr render]. rewrite append_empty_r, <- append_assoc.
        apply TrimRight_after_prefix; [discriminate | reflexivity].
    + exists (seg :: rest). split.
      * cbn [forallb]. rewrite Hseg, Hrest. reflexivity.
      * cbn [joined foldr]. fold (joined render rest). rewrite Hjoined. reflexivity.
Qed.

Lemma fillParams_returns (wildcardNames : list string) (matches : list string) :
  forall i params,
    i + length wildcardNames < length matches ->
    exists params', fillParams wildcardNames i matches params = Returns params'.
Proof.
  induction wildcardNames as [|name rest IH]; intros i params Hlen.
  - exists params. reflexivity.
  - cbn [length] in Hlen. cbn [fillParams index].
    destruct (lookup_lt_is_Some_2 matches (i + 1)) as [v Hv]; [lia|].
    rewrite Hv, bind_Returns. apply IH. lia.
Qed.

Lemma tryPattern_returns_by_parts (segs : list segment) (uri queryInputName : string) :
  forallb wellFormed segs = true ->
  validUTF8 (joined render segs) = true ->
  exists r, tryPattern uri (joined render segs, queryInputName) = Returns r.
Proof.
  intros H Hvalid. unfold tryPattern.
  rewrite <- validUTF8_TrimRight in Hvalid.
  destruct (render_trimmed segs H) as (segs' & H' & Htrim). rewrite Htrim in *.
  rewrite (patternToRegex_joined segs' H'), bind_Returns. cbv beta iota.
  rewrite (MustCompile_by_parts segs' H'), Hvalid, bind_Returns.
  destruct (regexp.FindStringSubmatch (compiled segs') uri) as [matches|] eqn:Hfind.
  - destruct (1 <? length matches); [|eexists; reflexivity].
    apply FindStringSubmatch_length in Hfind.
    destruct (fillParams_returns (multiNames segs' ++ singleNames segs') matches 0 ∅)
      as [params ->].
    + rewrite Hfind, NumSubexp_compiled. lia.
    + eexists. reflexivity.
  - eexists. reflexivity.
Qed.

Lemma tryPattern_panics_by_parts (segs : list segment) (uri queryInputName : string) :
  forallb wellFormed segs = true ->
  validUTF8 (joined render segs) = false ->
  tryPattern uri (joined render segs, queryInputName) = Panics.
Proof.
  intros H Hvalid. unfold tryPattern.
  rewrite <- validUTF8_TrimRight in Hvalid.
  destruct (render_trimmed segs H) as (segs' & H' & Htrim). rewrite Htrim in *.
  rewrite (patternToRegex_joined segs' H'), bind_Returns. cbv beta iota.
  rewrite (MustCompile_by_parts segs' H'), Hvalid. reflexivity.
Qed.

(** X10: the pattern of a well-formed template that is valid UTF-8 (and
    of the size of a route) compiles, to an expression with exactly as
    many capture groups as there are wildcard names, so that no index of
    the loop is out of range: the turn of the loop on such a key returns,
    for every path, and never panics.  When the template is not valid
    UTF-8, [regexp.MustCompile] panics on its pattern and the turn of the
    loop panics for every path. *)
Theorem wellformed_template_never_panics (segs : list segment) :
  forallb wellFormed segs = true ->
  regexp.NumSubexp (compiled segs) = length (multiNames segs ++ singleNames segs) /\
  if validUTF8 (joined render segs)
  then routeSized (joined render segs) = true ->
       regexp.MustCompile ("^" +:+ joined afterSingle segs +:+ "$")
       = Returns (compiled segs) /\
       (forall uri queryInputName,
          exists r, tryPattern uri (joined render segs, queryInputName) = Returns r)
  else regexp.MustCompile ("^" +:+ joined afterSingle segs +:+ "$") = Panics /\
       (forall uri queryInputName,
          tryPattern uri (joined render segs, queryInputName) = Panics).
Proof.
  intros H. split; [apply NumSubexp_compiled|].
  pose proof (MustCompile_by_parts segs H) as Hcompile.
  destruct (validUTF8 (joined render segs)) eqn:Hvalid.
  - intros _. split; [exact Hcompile|]. intros uri queryInputName.
    apply tryPattern_returns_by_parts; assumption.
  - split; [exact Hcompile|]. intros uri queryInputName.
    apply tryPattern_panics_by_parts; assumption.
Qed.

Lemma wellformed_template_never_panics_witness :
  regexp.NumSubexp (compiled [Lit "a."; Single "x"; Lit "/"; Multi "rest"])
  = length (multiNames [Lit "a."; Single "x"; Lit "/"; Multi "rest"]
            ++ singleNames [Lit "a."; Single "x"; Lit "/"; Multi "rest"]) /\
  if validUTF8 (joined render [Lit "a."; Single "x"; Lit "/"; Multi "rest"])
  then routeSized (joined render [Lit "a."; Single "x"; Lit "/"; Multi "rest"]) = true ->
       regexp.MustCompile
         ("^" +:+ joined afterSingle [Lit "a."; Single "x"; Lit "/"; Multi "rest"] +:+ "$")
       = Returns (compiled [Lit "a."; Single "x"; Lit "/"; Multi "rest"]) /\
       (forall uri queryInputName,
          exists r,
            tryPattern uri (joined render [Lit "a."; Single "x"; Lit "/"; Multi "rest"],
                            queryInputName) = Returns r)
  else regexp.MustCompile
         ("^" +:+ joined afterSingle [Lit "a."; Single "x"; Lit "/"; Multi "rest"] +:+ "$")
       = Panics /\
       (forall uri queryInputName,
          tryPattern uri (joined render [Lit "a."; Single "x"; Lit "/"; Multi "rest"],
                          queryInputName) = Panics).
Proof.
  apply wellformed_template_never_panics. reflexivity.
Defined.

(** A well-formed template with the byte 0xFF in its literal text. *)
Example template_not_valid_UTF8_panics :
  forallb wellFormed [Lit ("a/" +:+ String "255" "/"); Single "x"] = true /\
  matchURI [("a/" +:+ String "255" "/{x}", "T"%string)] "a/b"
    {[ "a/" +:+ String "255" "/{x}" := "T"%string ]} = Panics.
Proof. split; vm_compute; reflexivity. Qed.

(** X11: [matchURI] never panics on a table whose keys are all
    well-formed templates, valid UTF-8 and of the size of a route: it
    returns a match or nil for every path. *)
Theorem matchURI_never_panics (order : list (string * string)) (uri : string)
    (tbl : gmap string string) :
  (forall e, e ∈ order ->
     validUTF8 e.1 = true /\ routeSized e.1 = true /\
     exists segs, forallb wellFormed segs = true /\ e.1 = joined render segs) ->
  exists r, matchURI order uri tbl = Returns r.
Proof.
  intros Hall. unfold matchURI.
  destruct (tbl !! TrimRight uri "/"); [eexists; reflexivity|].
  induction order as [|[getPattern queryInputName] rest IH];
    [eexists; reflexivity|].
  cbn [rangePatterns].
  destruct (Hall (getPattern, queryInputName)) as (Hvalid & _ & segs & Hsegs & Hkey); [left|].
  cbn [fst] in Hkey, Hvalid. subst getPattern.
  destruct (tryPattern_returns_by_parts segs (TrimRight uri "/") queryInputName Hsegs Hvalid)
    as [[m|] ->]; rewrite bind_Returns.
  - eexists. reflexivity.
  - apply IH. intros e He. apply Hall. right. exact He.
Qed.

Lemma matchURI_never_panics_witness :
  exists r,
    matchURI [("a/{x}", "T1"); ("b/{y=**}/c", "T2")] "b/1/2/c"
      {[ "a/{x}" := "T1"; "b/{y=**}/c" := "T2" ]} = Returns r.
Proof.
  apply matchURI_never_panics. intros e He.
  apply elem_of_cons in He as [->|He].
  - split; [reflexivity|]. split; [reflexivity|].
    exists [Lit "a/"; Single "x"]. split; reflexivity.
  - apply list_elem_of_singleton in He. subst e.
    split; [reflexivity|]. split; [reflexivity|].
    exists [Lit "b/"; Multi "y"; Lit "/c"]. split; reflexivity.
Defined.

(** ** The order of the names *)

Lemma multiNames_in_template (segs : list segment) (name : string) :
  name ∈ multiNames segs -> name ∈ templateNames segs.
Proof.
  induction segs as [|[text|n|n] segs IH]; intros H.
  - exact H.
  - exact (IH H).
  - change (templateNames (Single n :: segs)) with (n :: templateNames segs).
    right. exact (IH H).
  - change (templateNames (Multi n :: segs)) with (n :: templateNames segs).
    change (multiNames (Multi n :: segs)) with (n :: multiNames segs) in H.
    apply elem_of_cons in H as [->|H]; [left | right; exact (IH H)].
Qed.

Lemma singleNames_without_multi (segs : list segment) :
  multiNames segs = [] -> singleNames segs = templateNames segs.
Proof.
  induction segs as [|[text|n|n] segs IH]; intros H.
  - reflexivity.
  - exact (IH H).
  - change (singleNames (Single n :: segs)) with (n :: singleNames segs).
    change (templateNames (Single n :: segs)) with (n :: templateNames segs).
    rewrite (IH H). reflexivity.
  - discriminate H.
Qed.

Lemma multiFirst_names (segs : list segment) :
  multiFirst segs = true ->
  multiNames segs ++ singleNames segs = templateNames segs.
Proof.
  induction segs as [|[text|n|n] segs IH]; intros H.
  - reflexivity.
  - exact (IH H).
  - cbn [multiFirst] in H.
    change (multiNames (Single n :: segs)) with (multiNames segs).
    change (singleNames (Single n :: segs)) with (n :: singleNames segs).
    change (templateNames (Single n :: segs)) with (n :: templateNames segs).
    destruct (multiNames segs) eqn:Hmulti; [|discriminate H].
    rewrite (singleNames_without_multi segs Hmulti). reflexivity.
  - change (multiNames (Multi n :: segs)) with (n :: multiNames segs).
    change (singleNames (Multi n :: segs)) with (singleNames segs).
    change (templateNames (Multi n :: segs)) with (n :: templateNames segs).
    cbn [app]. rewrite (IH H). reflexivity.
Qed.

Lemma names_multiFirst (segs : list segment) :
  NoDup (templateNames segs) ->
  multiNames segs ++ singleNames segs = templateNames segs ->
  multiFirst segs = true.
Proof.
  induction segs as [|[text|n|n] segs IH]; intros Hnodup H.
  - reflexivity.
  - exact (IH Hnodup H).
  - change (multiNames (Single n :: segs)) with (multiNames segs) in H.
    change (singleNames (Single n :: segs)) with (n :: singleNames segs) in H.
    change (templateNames (Single n :: segs)) with (n :: templateNames segs) in *.
    apply NoDup_cons in Hnodup as [Hfresh _].
    cbn [multiFirst]. destruct (multiNames segs) as [|b ms] eqn:Hmulti; [reflexivity|].
    exfalso. apply Hfresh. injection H as -> _.
    apply multiNames_in_template. rewrite Hmulti. left.
  - change (multiNames (Multi n :: segs)) with (n :: multiNames segs) in H.
    change (singleNames (Multi n :: segs)) with (singleNames segs) in H.
    change (templateNames (Multi n :: segs)) with (n :: templateNames segs) in *.
    apply NoDup_cons in Hnodup as [_ Hnodup].
    injection H as H. exact (IH Hnodup H).
Qed.

(** X12: with distinct wildcard names, the names that [patternToRegex]
    returns are in the order of the template, and so line up with the
    capture groups, exactly when no single-segment wildcard comes before
    a multi-segment one. *)
Theorem names_line_up_iff_multi_first (segs : list segment) :
  forallb wellFormed segs = true ->
  NoDup (templateNames segs) ->
  patternToRegex (joined render segs)
  = Returns ("^" +:+ joined afterSingle segs +:+ "$", templateNames segs)
  <-> multiFirst segs = true.
Proof.
  intros H Hnodup. rewrite (patternToRegex_joined segs H). split.
  - intros [= Hnames]. apply names_multiFirst; assumption.
  - intros Hfirst. rewrite (multiFirst_names segs Hfirst). reflexivity.
Qed.

Lemma names_line_up_iff_multi_first_witness :
  patternToRegex (joined render [Lit "v1/"; Multi "b"; Lit "/"; Single "a"])
  = Returns ("^" +:+ joined afterSingle [Lit "v1/"; Multi "b"; Lit "/"; Single "a"] +:+ "$",
             templateNames [Lit "v1/"; Multi "b"; Lit "/"; Single "a"])
  <-> multiFirst [Lit "v1/"; Multi "b"; Lit "/"; Single "a"] = true.
Proof.
  apply names_line_up_iff_multi_first.
  - reflexivity.
  - apply (bool_decide_unpack _). vm_compute. reflexivity.
Defined.

(** ** A literal prefix followed by one wildcard *)

Lemma repeat_until_end_class {R} (c : regexp.class) (d : ascii) (s : string)
    (f : nat -> R) (k : string -> nat -> option R) :
  (forall a, regexp.accepts c a = negb (Ascii.eqb a d)) ->
  (forall s' p', k s' p' = match s' with
                           | EmptyString => Some (f p')
                           | String _ _ => None
                           end) ->
  forall min pos,
    regexp.repeat c true min s pos k
    = if negb (ContainsByte s d) && (min <=? String.length s)
      then Some (f (pos + String.length s)) else None.
Proof.
  intros Hc Hk. induction s as [|a s IH]; intros min pos.
  - cbn [regexp.repeat ContainsByte String.length negb andb].
    rewrite Nat.add_0_r. destruct min; [apply Hk | reflexivity].
  - cbn [regexp.repeat ContainsByte String.length].
    rewrite Hk, IH, Hc.
    replace (match min with 0 => None | S _ => None end) with (@None R)
      by (destruct min; reflexivity).
    destruct (Ascii.eqb a d); simpl; [destruct min; reflexivity|].
    rewrite Nat.add_succ_r.
    replace (Nat.pred min <=? String.length s) with (min <=? S (String.length s))
      by (destruct min; reflexivity).
    destruct (negb (ContainsByte s d) && (min <=? S (String.length s))); reflexivity.
Qed.

Lemma find_prefix_group (p : string) (c : regexp.class) (d : ascii) (path : string) :
  (forall a, regexp.accepts c a = negb (Ascii.eqb a d)) ->
  regexp.FindStringSubmatch
    (regexp.concat (regexp.BeginText :: (literalItems p ++ [group 1 c]) ++ [regexp.EndText]))
    path
  = match CutPrefix path p with
    | Some seg =>
        if negb (ContainsByte seg d) && (1 <=? String.length seg)
        then Some [path; seg] else None
    | None => None
    end.
Proof.
  intros Hc. unfold regexp.FindStringSubmatch. rewrite search_unfold.
  unfold regexp.matchAt at 1. unfold regexp.concat at 1.
  cbn [foldr regexp.backtrack Nat.eqb].
  rewrite <- app_assoc, foldr_app, backtrack_literal_prefix.
  destruct (CutPrefix path p) as [seg|] eqn:Hcut.
  - cbn [app foldr group regexp.concat regexp.backtrack].
    erewrite (repeat_until_end_class c d seg
                (fun p' => (p', [(1, (0 + String.length p, p'))])));
      [|exact Hc | intros [|a s'] p'; reflexivity].
    destruct (negb (ContainsByte seg d) && (1 <=? String.length seg)).
    + apply CutPrefix_Some in Hcut. subst path.
      match goal with
      | |- context [regexp.NumSubexp ?r] =>
          replace (regexp.NumSubexp r) with 1
      end.
      * cbn [seq map regexp.cap_lookup Nat.eqb]. unfold regexp.slice.
        replace (0 + String.length p + String.length seg - 0)
          with (String.length (p +:+ seg)) by (rewrite append_length; lia).
        replace (0 + String.length p + String.length seg - (0 + String.length p))
          with (String.length seg) by lia.
        rewrite substring_all.
        change (0 + String.length p) with (String.length p).
        rewrite substring_after_prefix. reflexivity.
      * change (1 = regexp.NumSubexp
                      (regexp.concat (literalItems p ++ [group 1 c; regexp.EndText]))).
        rewrite NumSubexp_foldr, foldr_app. cbn [app foldr].
        unfold literalItems. induction (list_ascii_of_string p) as [|x xs IHxs];
          [reflexivity | exact IHxs].
    + destruct path as [|a path]; [reflexivity|].
      unfold regexp.concat. cbn [foldr].
      rewrite search_anchored by lia. reflexivity.
  - destruct path as [|a path]; [reflexivity|].
    unfold regexp.concat. cbn [foldr].
    rewrite search_anchored by lia. reflexivity.
Qed.

Lemma TrimRight_closing_brace (x : string) : TrimRight (x +:+ "}") "/" = x +:+ "}".
Proof. apply TrimRight_after_prefix; [discriminate | reflexivity]. Qed.

Lemma validUTF8_followed (p rest : string) :
  validUTF8 p = true -> isASCII rest = true -> validUTF8 (p +:+ rest) = true.
Proof.
  intros Hp Hrest. rewrite validUTF8_append by (apply isASCII_head; exact Hrest).
  rewrite Hp, (isASCII_valid rest Hrest). reflexivity.
Qed.

Lemma validUTF8_wildcard (p n tail : string) :
  validUTF8 p = true -> allWord n = true -> isASCII tail = true ->
  validUTF8 (p +:+ "{" +:+ n +:+ tail) = true.
Proof.
  intros Hp Hn Htail. apply validUTF8_followed; [exact Hp|].
  change ("{" +:+ n +:+ tail) with (String "{" (n +:+ tail)). cbn [isASCII].
  rewrite isASCII_append, (allWord_ascii n Hn), Htail. reflexivity.
Qed.

Lemma tryPattern_prefix_single (p n path queryInputName : string) :
  ContainsByte p "{" = false -> validUTF8 p = true ->
  allWord n = true -> n ≠ EmptyString ->
  tryPattern path (p +:+ "{" +:+ n +:+ "}", queryInputName)
  = Returns match CutPrefix path p with
            | Some seg =>
                if negb (ContainsByte seg "/") && (1 <=? String.length seg)
                then Some {| QueryInputName := queryInputName; Params := {[ n := seg ]} |}
                else None
            | None => None
            end.
Proof.
  intros Hp Hvalid Hn Hne. unfold tryPattern.
  assert (Hsegs : forallb wellFormed [Lit p; Single n] = true).
  { cbn [forallb wellFormed]. rewrite Hp, Hn. destruct n; [congruence | reflexivity]. }
  assert (Hkey : joined render [Lit p; Single n] = p +:+ "{" +:+ n +:+ "}").
  { cbn [joined foldr render]. rewrite append_empty_r. reflexivity. }
  replace (TrimRight (p +:+ "{" +:+ n +:+ "}") "/") with (joined render [Lit p; Single n]).
  2: { rewrite Hkey.
       rewrite <- (append_assoc "{" n "}"), <- (append_assoc p ("{" +:+ n) "}").
       symmetry. apply TrimRight_closing_brace. }
  rewrite (patternToRegex_joined _ Hsegs), bind_Returns.
  cbv beta iota. rewrite (MustCompile_by_parts _ Hsegs), Hkey.
  rewrite (validUTF8_wildcard p n "}" Hvalid Hn eq_refl), bind_Returns.
  change (compiled [Lit p; Single n])
    with (regexp.concat
            (regexp.BeginText :: (literalItems p ++ [group 1 (regexp.NotChar "/")])
                                 ++ [regexp.EndText])).
  rewrite (find_prefix_group p (regexp.NotChar "/") "/") by reflexivity.
  destruct (CutPrefix path p) as [seg|]; [|reflexivity].
  destruct (negb (ContainsByte seg "/") && (1 <=? String.length seg)); reflexivity.
Qed.

Lemma tryPattern_prefix_multi (p n path queryInputName : string) :
  ContainsByte p "{" = false -> validUTF8 p = true ->
  allWord n = true -> n ≠ EmptyString ->
  tryPattern path (p +:+ "{" +:+ n +:+ "=**}", queryInputName)
  = Returns match CutPrefix path p with
            | Some seg =>
                if negb (ContainsByte seg "010") && (1 <=? String.length seg)
                then Some {| QueryInputName := queryInputName; Params := {[ n := seg ]} |}
                else None
            | None => None
            end.
Proof.
  intros Hp Hvalid Hn Hne. unfold tryPattern.
  assert (Hsegs : forallb wellFormed [Lit p; Multi n] = true).
  { cbn [forallb wellFormed]. rewrite Hp, Hn. destruct n; [congruence | reflexivity]. }
  assert (Hkey : joined render [Lit p; Multi n] = p +:+ "{" +:+ n +:+ "=**}").
  { cbn [joined foldr render]. rewrite append_empty_r. reflexivity. }
  replace (TrimRight (p +:+ "{" +:+ n +:+ "=**}") "/") with (joined render [Lit p; Multi n]).
  2: { rewrite Hkey. change "=**}" with ("=**" +:+ "}").
       rewrite <- (append_assoc n "=**" "}"), <- (append_assoc "{" (n +:+ "=**") "}"),
         <- (append_assoc p ("{" +:+ n +:+ "=**") "}").
       symmetry. apply TrimRight_closing_brace. }
  rewrite (patternToRegex_joined _ Hsegs), bind_Returns.
  cbv beta iota. rewrite (MustCompile_by_parts _ Hsegs), Hkey.
  rewrite (validUTF8_wildcard p n "=**}" Hvalid Hn eq_refl), bind_Returns.
  change (compiled [Lit p; Multi n])
    with (regexp.concat
            (regexp.BeginText :: (literalItems p ++ [group 1 regexp.AnyCharNotNL])
                                 ++ [regexp.EndText])).
  rewrite (find_prefix_group p regexp.AnyCharNotNL "010") by reflexivity.
  destruct (CutPrefix path p) as [seg|]; [|reflexivity].
  destruct (negb (ContainsByte seg "010") && (1 <=? String.length seg)); reflexivity.
Qed.

Lemma matchURI_singleton (getPattern queryInputName : string)
    (order : list (string * string)) (uri : string) :
  rangeOrder {[ getPattern := queryInputName ]} order ->
  matchURI order uri {[ getPattern := queryInputName ]}
  = if decide (TrimRight uri "/" = getPattern)
    then Returns (Some {| QueryInputName := queryInputName; Params := ∅ |})
    else tryPattern (TrimRight uri "/") (getPattern, queryInputName).
Proof.
  intros Horder. apply rangeOrder_singleton in Horder. subst order.
  unfold matchURI. destruct (decide (TrimRight uri "/" = getPattern)) as [->|Hne].
  - rewrite lookup_singleton_eq. reflexivity.
  - rewrite lookup_singleton_ne by congruence. cbn [rangePatterns].
    destruct (tryPattern (TrimRight uri "/") (getPattern, queryInputName)) as [[m|]|];
      reflexivity.
Qed.

(** X13: a template that is a brace-free ASCII text, of the size of a
    route, followed by one
    single-segment wildcard, alone in its table, matches exactly the paths
    that continue the text with one non-empty segment; the segment is the
    value of the wildcard.  The path that spells the template itself is
    found by the lookup and has no params. *)
Theorem prefix_single_template (p n queryInputName : string)
    (order : list (string * string)) (uri : string) :
  ContainsByte p "{" = false -> isASCII p = true -> routeSized p = true ->
  allWord n = true -> n ≠ EmptyString ->
  rangeOrder {[ p +:+ "{" +:+ n +:+ "}" := queryInputName ]} order ->
  matchURI order uri {[ p +:+ "{" +:+ n +:+ "}" := queryInputName ]}
  = Returns
      (if decide (TrimRight uri "/" = p +:+ "{" +:+ n +:+ "}")
       then Some {| QueryInputName := queryInputName; Params := ∅ |}
       else match CutPrefix (TrimRight uri "/") p with
            | Some seg =>
                if negb (ContainsByte seg "/") && (1 <=? String.length seg)
                then Some {| QueryInputName := queryInputName; Params := {[ n := seg ]} |}
                else None
            | None => None
            end).
Proof.
  intros Hp Hascii _ Hn Hne Horder. rewrite (matchURI_singleton _ _ _ _ Horder).
  destruct (decide (TrimRight uri "/" = p +:+ "{" +:+ n +:+ "}")); [reflexivity|].
  apply tryPattern_prefix_single; [exact Hp | apply isASCII_valid | | ]; assumption.
Qed.

Lemma prefix_single_template_witness :
  matchURI [("cosmos/bank/v1beta1/balances/{address}", "QueryAllBalancesRequest")]
    "cosmos/bank/v1beta1/balances/cosmos1xyz/"
    {[ "cosmos/bank/v1beta1/balances/" +:+ "{" +:+ "address" +:+ "}"
       := "QueryAllBalancesRequest" ]}
  = Returns
      (if decide (TrimRight "cosmos/bank/v1beta1/balances/cosmos1xyz/" "/"
                  = "cosmos/bank/v1beta1/balances/" +:+ "{" +:+ "address" +:+ "}")
       then Some {| QueryInputName := "QueryAllBalancesRequest"; Params := ∅ |}
       else match CutPrefix (TrimRight "cosmos/bank/v1beta1/balances/cosmos1xyz/" "/")
                    "cosmos/bank/v1beta1/balances/" with
            | Some seg =>
                if negb (ContainsByte seg "/") && (1 <=? String.length seg)
                then Some {| QueryInputName := "QueryAllBalancesRequest";
                             Params := {[ "address" := seg ]} |}
                else None
            | None => None
            end).
Proof.
  apply prefix_single_template.
  - reflexivity.
  - reflexivity.
  - reflexivity.
  - reflexivity.
  - discriminate.
  - unfold rangeOrder. rewrite map_to_list_singleton. reflexivity.
Defined.

(** X14: a template that is a brace-free ASCII text, of the size of a
    route, followed by one
    multi-segment wildcard, alone in its table, matches exactly the paths
    that continue the text with a non-empty rest free of line breaks; the
    rest, separators included, is the value of the wildcard. *)
Theorem prefix_multi_template (p n queryInputName : string)
    (order : list (string * string)) (uri : string) :
  ContainsByte p "{" = false -> isASCII p = true -> routeSized p = true ->
  allWord n = true -> n ≠ EmptyString ->
  rangeOrder {[ p +:+ "{" +:+ n +:+ "=**}" := queryInputName ]} order ->
  matchURI order uri {[ p +:+ "{" +:+ n +:+ "=**}" := queryInputName ]}
  = Returns
      (if decide (TrimRight uri "/" = p +:+ "{" +:+ n +:+ "=**}")
       then Some {| QueryInputName := queryInputName; Params := ∅ |}
       else match CutPrefix (TrimRight uri "/") p with
            | Some seg =>
                if negb (ContainsByte seg "010") && (1 <=? String.length seg)
                then Some {| QueryInputName := queryInputName; Params := {[ n := seg ]} |}
                else None
            | None => None
            end).
Proof.
  intros Hp Hascii _ Hn Hne Horder. rewrite (matchURI_singleton _ _ _ _ Horder).
  destruct (decide (TrimRight uri "/" = p +:+ "{" +:+ n +:+ "=**}")); [reflexivity|].
  apply tryPattern_prefix_multi; [exact Hp | apply isASCII_valid | | ]; assumption.
Qed.

Lemma prefix_multi_template_witness :
  matchURI [("ibc/denom_traces/{hash=**}", "QueryDenomTraceRequest")]
    "ibc/denom_traces/transfer/channel-0/uatom"
    {[ "ibc/denom_traces/" +:+ "{" +:+ "hash" +:+ "=**}" := "QueryDenomTraceRequest" ]}
  = Returns
      (if decide (TrimRight "ibc/denom_traces/transfer/channel-0/uatom" "/"
                  = "ibc/denom_traces/" +:+ "{" +:+ "hash" +:+ "=**}")
       then Some {| QueryInputName := "QueryDenomTraceRequest"; Params := ∅ |}
       else match CutPrefix (TrimRight "ibc/denom_traces/transfer/channel-0/uatom" "/")
                    "ibc/denom_traces/" with
            | Some seg =>
                if negb (ContainsByte seg "010") && (1 <=? String.length seg)
                then Some {| QueryInputName := "QueryDenomTraceRequest";
                             Params := {[ "hash" := seg ]} |}
                else None
            | None => None
            end).
Proof.
  apply prefix_multi_template.
  - reflexivity.
  - reflexivity.
  - reflexivity.
  - reflexivity.
  - discriminate.
  - unfold rangeOrder. rewrite map_to_list_singleton. reflexivity.
Defined.

(** * Names with metacharacters, and names with a line break *)

(** ** Repetition over a run without the excluded byte *)

Lemma ContainsByte_QuoteMeta (t : string) (d : ascii) :
  Ascii.eqb "\" d = false ->
  ContainsByte (regexp.QuoteMeta t) d = ContainsByte t d.
Proof.
  intros Hd. induction t as [|c t IH]; [reflexivity|].
  cbn [regexp.QuoteMeta]. destruct (regexp.special c); cbn [ContainsByte];
    rewrite IH, ?Hd; reflexivity.
Qed.

Lemma repeat_lazy_char {R} (c : regexp.class) (d e : ascii) (n s : string)
    (k : string -> nat -> option R) :
  (forall a, regexp.accepts c a = negb (Ascii.eqb a d)) ->
  (forall a x p, Ascii.eqb a e = false -> k (String a x) p = None) ->
  ContainsByte n d = false -> ContainsByte n e = false ->
  forall min pos,
    regexp.repeat c false min (n +:+ s) pos k
    = regexp.repeat c false (min - String.length n) s (pos + String.length n) k.
Proof.
  intros Hc Hk. induction n as [|a n IH]; intros Hd He min pos.
  - change ("" +:+ s) with s. cbn [String.length].
    rewrite Nat.sub_0_r, Nat.add_0_r. reflexivity.
  - cbn [ContainsByte] in Hd, He.
    apply orb_false_iff in Hd as [Had Hd]. apply orb_false_iff in He as [Hae He].
    change (String a n +:+ s) with (String a (n +:+ s)).
    cbn [regexp.repeat String.length]. rewrite Hc, Had, (Hk a _ _ Hae), (IH Hd He).
    replace (Nat.pred min - String.length n) with (min - S (String.length n)) by lia.
    replace (S pos + String.length n) with (pos + S (String.length n)) by lia.
    destruct min; reflexivity.
Qed.

Lemma repeat_lazy_closing {R} (c : regexp.class) (d : ascii) (n s : string)
    (k : string -> nat -> option R) :
  (forall a, regexp.accepts c a = negb (Ascii.eqb a d)) ->
  (forall a b x p, Ascii.eqb b "}" = false -> k (String a (String b x)) p = None) ->
  ContainsByte n d = false -> ContainsByte n "}" = false ->
  forall min pos,
    regexp.repeat c false min (n +:+ String "\" s) pos k
    = regexp.repeat c false (min - String.length n) (String "\" s)
        (pos + String.length n) k.
Proof.
  intros Hc Hk. induction n as [|a n IH]; intros Hd He min pos.
  - change ("" +:+ String "\" s) with (String "\" s). cbn [String.length].
    rewrite Nat.sub_0_r, Nat.add_0_r. reflexivity.
  - cbn [ContainsByte] in Hd, He.
    apply orb_false_iff in Hd as [Had Hd]. apply orb_false_iff in He as [Hae He].
    change (String a n +:+ String "\" s) with (String a (n +:+ String "\" s)).
    cbn [regexp.repeat String.length]. rewrite Hc, Had, (IH Hd He).
    replace (Nat.pred min - String.length n) with (min - S (String.length n)) by lia.
    replace (S pos + String.length n) with (pos + S (String.length n)) by lia.
    assert (Hfail : k (String a (n +:+ String "\" s)) pos = None).
    { destruct n as [|b n'].
      - apply Hk. reflexivity.
      - change (String b n' +:+ String "\" s) with (String b (n' +:+ String "\" s)).
        apply Hk. cbn [ContainsByte] in He.
        apply orb_false_iff in He as [Hb _]. exact Hb. }
    rewrite Hfail. destruct min; reflexivity.
Qed.

Lemma repeat_greedy_char {R} (c : regexp.class) (d : ascii) (n s : string)
    (k : string -> nat -> option R) (r : R) :
  (forall a, regexp.accepts c a = negb (Ascii.eqb a d)) ->
  ContainsByte n d = false ->
  forall min pos,
    regexp.repeat c true (min - String.length n) s (pos + String.length n) k = Some r ->
    regexp.repeat c true min (n +:+ s) pos k = Some r.
Proof.
  intros Hc. induction n as [|a n IH]; intros Hd min pos H.
  - change ("" +:+ s) with s. cbn [String.length] in H.
    rewrite Nat.sub_0_r, Nat.add_0_r in H. exact H.
  - cbn [ContainsByte] in Hd. apply orb_false_iff in Hd as [Had Hd].
    change (String a n +:+ s) with (String a (n +:+ s)).
    cbn [regexp.repeat]. rewrite Hc, Had. cbn [negb].
    rewrite (IH Hd (Nat.pred min) (S pos)); [reflexivity|].
    cbn [String.length] in H.
    replace (Nat.pred min - String.length n) with (min - S (String.length n)) by lia.
    replace (S pos + String.length n) with (pos + S (String.length n)) by lia.
    exact H.
Qed.

Lemma silent_append (re : regexp.Regexp) (a b s : string) :
  silent re a (b +:+ s) -> silent re b s -> silent re (a +:+ b) s.
Proof.
  intros Ha Hb. induction a as [|c a IH]; [exact Hb|].
  destruct Ha as [Hhere Hrest].
  change (String c a +:+ b) with (String c (a +:+ b)).
  split; [|exact (IH Hrest)].
  intros pos. rewrite append_assoc. apply Hhere.
Qed.

Lemma plainName_facts (n : string) :
  plainName n = true ->
  n ≠ EmptyString /\ ContainsByte n "{" = false /\ ContainsByte n "}" = false /\
  ContainsByte n "=" = false.
Proof.
  unfold plainName. intros H.
  repeat (apply andb_true_iff in H as [H ?]).
  repeat match goal with Hn : negb _ = true |- _ => apply negb_true_iff in Hn end.
  repeat split; try assumption.
  intros ->. discriminate H.
Qed.

Lemma freeName_facts (n : string) :
  freeName n = true ->
  n ≠ EmptyString /\ ContainsByte n "{" = false /\ ContainsByte n "}" = false /\
  ContainsByte n "=" = false /\ ContainsByte n "010" = false.
Proof.
  unfold freeName, plainName. intros H.
  repeat (apply andb_true_iff in H as [H ?]).
  repeat match goal with Hn : negb _ = true |- _ => apply negb_true_iff in Hn end.
  repeat split; try assumption.
  intros ->. discriminate H.
Qed.

Lemma QuoteMeta_nonempty (n : string) : n ≠ EmptyString -> regexp.QuoteMeta n ≠ EmptyString.
Proof.
  destruct n as [|c n]; [congruence|]. intros _.
  cbn [regexp.QuoteMeta]. destruct (regexp.special c); discriminate.
Qed.

(** ** The two wildcard patterns on a free name *)

Lemma matchAt_multi_on_free_single (n s : string) (pos : nat) :
  ContainsByte n "}" = false -> ContainsByte n "=" = false ->
  regexp.matchAt
    (regexp.concat
       [regexp.Char (regexp.Literal "\"); regexp.Char (regexp.Literal "{");
        regexp.Capture 1
          (regexp.concat [regexp.Repeat (regexp.NotChar "}") 1 false]);
        regexp.Char (regexp.Literal "="); regexp.Char (regexp.Literal "\");
        regexp.Char (regexp.Literal "*"); regexp.Char (regexp.Literal "\");
        regexp.Char (regexp.Literal "*"); regexp.Char (regexp.Literal "\");
        regexp.Char (regexp.Literal "}")])
    ("\{" +:+ regexp.QuoteMeta n +:+ "\}" +:+ s) pos
  = None.
Proof.
  intros Hclose Heq.
  unfold regexp.matchAt, regexp.concat.
  change ("\{" +:+ regexp.QuoteMeta n +:+ "\}" +:+ s)
    with (String "\" (String "{" (regexp.QuoteMeta n +:+ "\}" +:+ s))).
  cbn [foldr regexp.backtrack regexp.accepts Ascii.eqb Bool.eqb].
  erewrite (repeat_lazy_char (regexp.NotChar "}") "}" "=");
    [ | reflexivity | | rewrite ContainsByte_QuoteMeta by reflexivity; exact Hclose
      | rewrite ContainsByte_QuoteMeta by reflexivity; exact Heq ].
  2: { intros a x p Ha. cbv beta. rewrite Ha. reflexivity. }
  change ("\}" +:+ s) with (String "\" (String "}" s)).
  destruct (1 - String.length (regexp.QuoteMeta n)) as [|[|m]]; reflexivity.
Qed.

Lemma matchAt_single_free (n s : string) (pos : nat) :
  n ≠ EmptyString -> ContainsByte n "}" = false ->
  regexp.matchAt
    (regexp.concat
       [regexp.Char (regexp.Literal "\"); regexp.Char (regexp.Literal "{");
        regexp.Capture 1
          (regexp.concat [regexp.Repeat (regexp.NotChar "}") 1 true]);
        regexp.Char (regexp.Literal "\"); regexp.Char (regexp.Literal "}")])
    ("\{" +:+ regexp.QuoteMeta n +:+ "\}" +:+ s) pos
  = Some (pos + String.length ("\{" +:+ regexp.QuoteMeta n +:+ "\}"),
          [(1, (S (S pos), S (S pos) + String.length (regexp.QuoteMeta n)))]).
Proof.
  intros Hne Hclose.
  unfold regexp.matchAt, regexp.concat.
  change ("\{" +:+ regexp.QuoteMeta n +:+ "\}" +:+ s)
    with (String "\" (String "{" (regexp.QuoteMeta n +:+ "\}" +:+ s))).
  cbn [foldr regexp.backtrack regexp.accepts Ascii.eqb Bool.eqb].
  apply (repeat_greedy_char (regexp.NotChar "}") "}");
    [reflexivity | rewrite ContainsByte_QuoteMeta by reflexivity; exact Hclose |].
  replace (1 - String.length (regexp.QuoteMeta n)) with 0.
  2: { pose proof (QuoteMeta_nonempty n Hne) as Hq.
       destruct (regexp.QuoteMeta n); [congruence | cbn; lia]. }
  change ("\}" +:+ s) with (String "\" (String "}" s)).
  cbn [regexp.repeat regexp.accepts Ascii.eqb Bool.eqb negb Nat.pred].
  f_equal. f_equal. rewrite !append_length. cbn [String.length]. lia.
Qed.

Lemma single_callback_free (n : string) (names : list string) :
  freeName n = true ->
  (re ← regexp.MustCompile "\\\{(.*?)\\}";
   name ← index (regexp.FindStringSubmatch re ("\{" +:+ regexp.QuoteMeta n +:+ "\}")) 1;
   mret ("([^/]+)", names ++ [name]))
  = Returns ("([^/]+)", names ++ [regexp.QuoteMeta n]).
Proof.
  intros Hn. destruct (freeName_facts n Hn) as (_ & _ & Hclose & _ & Hnl).
  rewrite single_name_pattern, bind_Returns.
  unfold regexp.FindStringSubmatch. rewrite search_unfold.
  assert (Hmatch :
    regexp.matchAt
      (regexp.concat
         [regexp.Char (regexp.Literal "\"); regexp.Char (regexp.Literal "{");
          regexp.Capture 1
            (regexp.concat [regexp.Repeat regexp.AnyCharNotNL 0 false]);
          regexp.Char (regexp.Literal "\"); regexp.Char (regexp.Literal "}")])
      ("\{" +:+ regexp.QuoteMeta n +:+ "\}") 0
    = Some (S (S (2 + String.length (regexp.QuoteMeta n))),
            [(1, (2, 2 + String.length (regexp.QuoteMeta n)))])).
  { unfold regexp.matchAt, regexp.concat.
    change ("\{" +:+ regexp.QuoteMeta n +:+ "\}")
      with (String "\" (String "{" (regexp.QuoteMeta n +:+ String "\" "}"))).
    cbn [foldr regexp.backtrack regexp.accepts Ascii.eqb Bool.eqb].
    erewrite (repeat_lazy_closing regexp.AnyCharNotNL "010");
      [ | reflexivity | | rewrite ContainsByte_QuoteMeta by reflexivity; exact Hnl
        | rewrite ContainsByte_QuoteMeta by reflexivity; exact Hclose ].
    2: { intros a b x p Hb. cbv beta. rewrite Hb.
         destruct (Ascii.eqb a "\"); reflexivity. }
    reflexivity. }
  rewrite Hmatch.
  change (regexp.NumSubexp _) with 1.
  cbn [seq map regexp.cap_lookup Nat.eqb index lookup list_lookup].
  rewrite bind_Returns.
  change (regexp.slice ("\{" +:+ regexp.QuoteMeta n +:+ "\}") 2
            (2 + String.length (regexp.QuoteMeta n)))
    with (regexp.slice ("\{" +:+ regexp.QuoteMeta n +:+ "\}") (String.length "\{")
            (String.length "\{" + String.length (regexp.QuoteMeta n))).
  rewrite slice_middle. reflexivity.
Qed.

Lemma replaceAll_silent_all {St} (re : regexp.Regexp)
    (repl : string -> St -> outcome (string * St)) (src a : string) (pos : nat) (st : St) :
  silent re a "" ->
  regexp.replaceAll re repl src a pos 0 st = Returns (a, st).
Proof.
  intros H. pose proof (replaceAll_silent re repl src a "" pos st H) as Hscan.
  rewrite append_empty_r in Hscan. rewrite Hscan. cbn [regexp.replaceAll].
  rewrite bind_Returns, append_empty_r. reflexivity.
Qed.

Lemma quiet_free_wildcard (n : string) :
  ContainsByte n "{" = false -> quiet (String "{" (regexp.QuoteMeta n +:+ "\}")) "" = true.
Proof.
  intros Hopen.
  change (String "{" (regexp.QuoteMeta n +:+ "\}"))
    with ("{" +:+ (regexp.QuoteMeta n +:+ "\}")).
  rewrite (quiet_append "{"), (quiet_append (regexp.QuoteMeta n)).
  rewrite (quiet_QuoteMeta n _ Hopen) by reflexivity. reflexivity.
Qed.

(** The name of a wildcard is taken from the escaped template: it comes
    back with a backslash before each of its metacharacters. *)
Lemma first_pass_plain_single {St} (p n : string)
    (repl : string -> St -> outcome (string * St)) (src : string) (st : St) :
  ContainsByte p "{" = false -> plainName n = true ->
  regexp.replaceAll
    (regexp.concat
       [regexp.Char (regexp.Literal "\"); regexp.Char (regexp.Literal "{");
        regexp.Capture 1
          (regexp.concat [regexp.Repeat (regexp.NotChar "}") 1 false]);
        regexp.Char (regexp.Literal "="); regexp.Char (regexp.Literal "\");
        regexp.Char (regexp.Literal "*"); regexp.Char (regexp.Literal "\");
        regexp.Char (regexp.Literal "*"); regexp.Char (regexp.Literal "\");
        regexp.Char (regexp.Literal "}")])
    repl src
    (regexp.QuoteMeta p +:+ ("\{" +:+ regexp.QuoteMeta n +:+ "\}") +:+ "") 0 0 st
  = Returns (regexp.QuoteMeta p +:+ ("\{" +:+ regexp.QuoteMeta n +:+ "\}") +:+ "", st).
Proof.
  intros Hp Hn. destruct (plainName_facts n Hn) as (_ & Hopen & Hclose & Heq).
  rewrite (append_empty_r ("\{" +:+ regexp.QuoteMeta n +:+ "\}")).
  apply replaceAll_silent_all.
  apply silent_append.
  - apply silent_of_quiet. apply quiet_QuoteMeta; [exact Hp | reflexivity].
  - change ("\{" +:+ regexp.QuoteMeta n +:+ "\}")
      with (String "\" (String "{" (regexp.QuoteMeta n +:+ "\}"))).
    split.
    + intros pos. rewrite append_empty_r.
      apply (matchAt_multi_on_free_single n "" pos Hclose Heq).
    + apply silent_of_quiet. apply quiet_free_wildcard. exact Hopen.
Qed.

Lemma freeName_plain (n : string) : freeName n = true -> plainName n = true.
Proof. unfold freeName. intros H. apply andb_true_iff in H as [H _]. exact H. Qed.

Lemma patternToRegex_free_single (p n : string) :
  ContainsByte p "{" = false -> freeName n = true ->
  patternToRegex (p +:+ "{" +:+ n +:+ "}")
  = Returns ("^" +:+ joined afterSingle [Lit p; Single n] +:+ "$", [regexp.QuoteMeta n]).
Proof.
  intros Hp Hn. pose proof (freeName_facts n Hn) as (Hne & _ & Hclose & _ & _).
  unfold patternToRegex.
  rewrite multi_pattern, bind_Returns. unfold regexp.ReplaceAllStringFunc.
  assert (Hescaped : regexp.QuoteMeta (p +:+ "{" +:+ n +:+ "}")
                     = regexp.QuoteMeta p +:+ ("\{" +:+ regexp.QuoteMeta n +:+ "\}") +:+ "").
  { rewrite !QuoteMeta_append, append_empty_r. reflexivity. }
  rewrite Hescaped.
  (* first pass: nothing is replaced *)
  rewrite (first_pass_plain_single p n _ _ _ Hp (freeName_plain n Hn)).
  rewrite bind_Returns. cbv beta iota. rewrite single_pattern, bind_Returns.
  (* second pass: the wildcard is replaced *)
  pose proof (replaceAll_silent
                (regexp.concat
                   [regexp.Char (regexp.Literal "\"); regexp.Char (regexp.Literal "{");
                    regexp.Capture 1
                      (regexp.concat [regexp.Repeat (regexp.NotChar "}") 1 true]);
                    regexp.Char (regexp.Literal "\"); regexp.Char (regexp.Literal "}")])
                (fun matched wildcardNames =>
                   re ← regexp.MustCompile "\\\{(.*?)\\}";
                   name ← index (regexp.FindStringSubmatch re matched) 1;
                   mret ("([^/]+)", wildcardNames ++ [name]))
                (regexp.QuoteMeta p +:+ ("\{" +:+ regexp.QuoteMeta n +:+ "\}") +:+ "")
                (regexp.QuoteMeta p) (("\{" +:+ regexp.QuoteMeta n +:+ "\}") +:+ "") 0 [])
    as Hscan.
  rewrite Hscan; clear Hscan.
  2: { apply silent_of_quiet. apply quiet_QuoteMeta; [exact Hp | reflexivity]. }
  erewrite replaceAll_match.
  2: { intros Heq. discriminate Heq. }
  2: { rewrite !append_assoc. apply matchAt_single_free; assumption. }
  2: { change (0 + String.length (regexp.QuoteMeta p))
         with (String.length (regexp.QuoteMeta p)).
       apply slice_middle. }
  2: { apply single_callback_free. exact Hn. }
  reflexivity.
Qed.

Lemma tryPattern_free_single (p n path queryInputName : string) :
  ContainsByte p "{" = false -> validUTF8 p = true -> freeName n = true ->
  tryPattern path (p +:+ "{" +:+ n +:+ "}", queryInputName)
  = Returns match CutPrefix path p with
            | Some seg =>
                if negb (ContainsByte seg "/") && (1 <=? String.length seg)
                then Some {| QueryInputName := queryInputName;
                             Params := {[ regexp.QuoteMeta n := seg ]} |}
                else None
            | None => None
            end.
Proof.
  intros Hp Hvalid Hn. unfold tryPattern.
  replace (TrimRight (p +:+ "{" +:+ n +:+ "}") "/") with (p +:+ "{" +:+ n +:+ "}").
  2: { rewrite <- (append_assoc "{" n "}"), <- (append_assoc p ("{" +:+ n) "}").
       symmetry. apply TrimRight_closing_brace. }
  rewrite (patternToRegex_free_single p n Hp Hn), bind_Returns.
  cbv beta iota.
  (* the pattern does not depend on the name *)
  change (joined afterSingle [Lit p; Single n])
    with (joined afterSingle [Lit p; Single "x"]).
  rewrite MustCompile_by_parts by (cbn [forallb wellFormed]; rewrite Hp; reflexivity).
  replace (validUTF8 (joined render [Lit p; Single "x"])) with true.
  2: { symmetry. cbn [joined foldr render].
       exact (validUTF8_followed p "{x}" Hvalid eq_refl). }
  rewrite bind_Returns.
  change (compiled [Lit p; Single "x"])
    with (regexp.concat
            (regexp.BeginText :: (literalItems p ++ [group 1 (regexp.NotChar "/")])
                                 ++ [regexp.EndText])).
  rewrite (find_prefix_group p (regexp.NotChar "/") "/") by reflexivity.
  destruct (CutPrefix path p) as [seg|]; [|reflexivity].
  destruct (negb (ContainsByte seg "/") && (1 <=? String.length seg)); reflexivity.
Qed.

(** X15: the name under which [matchURI] reports the value of a wildcard
    is read from the escaped template: for a template that is a brace-free
    ASCII text, of the size of a route, followed by [{n}], alone in its
    table, the param is keyed by [QuoteMeta n], the name with a backslash
    before each metacharacter. *)
Theorem wildcard_name_is_escaped (p n queryInputName : string)
    (order : list (string * string)) (uri : string) :
  ContainsByte p "{" = false -> isASCII p = true -> routeSized p = true ->
  freeName n = true ->
  rangeOrder {[ p +:+ "{" +:+ n +:+ "}" := queryInputName ]} order ->
  matchURI order uri {[ p +:+ "{" +:+ n +:+ "}" := queryInputName ]}
  = Returns
      (if decide (TrimRight uri "/" = p +:+ "{" +:+ n +:+ "}")
       then Some {| QueryInputName := queryInputName; Params := ∅ |}
       else match CutPrefix (TrimRight uri "/") p with
            | Some seg =>
                if negb (ContainsByte seg "/") && (1 <=? String.length seg)
                then Some {| QueryInputName := queryInputName;
                             Params := {[ regexp.QuoteMeta n := seg ]} |}
                else None
            | None => None
            end).
Proof.
  intros Hp Hascii _ Hn Horder. rewrite (matchURI_singleton _ _ _ _ Horder).
  destruct (decide (TrimRight uri "/" = p +:+ "{" +:+ n +:+ "}")); [reflexivity|].
  apply tryPattern_free_single; [exact Hp | apply isASCII_valid; exact Hascii | exact Hn].
Qed.

Lemma wildcard_name_is_escaped_witness :
  matchURI [("v1/txs/{pagination.key}", "QueryTxsRequest")] "v1/txs/abc"
    {[ "v1/txs/" +:+ "{" +:+ "pagination.key" +:+ "}" := "QueryTxsRequest" ]}
  = Returns
      (if decide (TrimRight "v1/txs/abc" "/" = "v1/txs/" +:+ "{" +:+ "pagination.key" +:+ "}")
       then Some {| QueryInputName := "QueryTxsRequest"; Params := ∅ |}
       else match CutPrefix (TrimRight "v1/txs/abc" "/") "v1/txs/" with
            | Some seg =>
                if negb (ContainsByte seg "/") && (1 <=? String.length seg)
                then Some {| QueryInputName := "QueryTxsRequest";
                             Params := {[ regexp.QuoteMeta "pagination.key" := seg ]} |}
                else None
            | None => None
            end).
Proof.
  apply wildcard_name_is_escaped.
  - reflexivity.
  - reflexivity.
  - reflexivity.
  - reflexivity.
  - unfold rangeOrder. rewrite map_to_list_singleton. reflexivity.
Defined.

Example nested_field_name_comes_back_escaped :
  matchURI [("v1/txs/{pagination.key}", "QueryTxsRequest")] "v1/txs/abc"
    {[ "v1/txs/{pagination.key}" := "QueryTxsRequest" ]}
  = Returns (Some {| QueryInputName := "QueryTxsRequest";
                     Params := {[ "pagination\.key" := "abc" ]} |}).
Proof. vm_compute. reflexivity. Qed.

(** ** The params of a match made in the loop *)

Lemma fillParams_dom (wildcardNames matches : list string) :
  forall i params params',
    fillParams wildcardNames i matches params = Returns params' ->
    dom params' = dom params ∪ list_to_set wildcardNames.
Proof.
  induction wildcardNames as [|name rest IH]; intros i params params' H.
  - injection H as <-. cbn. set_solver.
  - cbn [fillParams] in H. apply bind_Returns_inv in H as (v & _ & H).
    apply IH in H. rewrite H, dom_insert_L. cbn [list_to_set]. set_solver.
Qed.

Lemma names_as_set (segs : list segment) :
  (list_to_set (multiNames segs ++ singleNames segs) : gset string)
  = list_to_set (templateNames segs).
Proof.
  rewrite list_to_set_app_L.
  induction segs as [|[text|n|n] segs IH]; [set_solver | exact IH | |].
  - change (singleNames (Single n :: segs)) with (n :: singleNames segs).
    change (multiNames (Single n :: segs)) with (multiNames segs).
    change (templateNames (Single n :: segs)) with (n :: templateNames segs).
    cbn [list_to_set]. rewrite <- IH. set_solver.
  - change (singleNames (Multi n :: segs)) with (singleNames segs).
    change (multiNames (Multi n :: segs)) with (n :: multiNames segs).
    change (templateNames (Multi n :: segs)) with (n :: templateNames segs).
    cbn [list_to_set]. rewrite <- IH. set_solver.
Qed.

(** X16: a match made in the loop, on a well-formed template that does
    not end in a separator, carries the type name of its key and params
    keyed by exactly the wildcard names of the template; it always has
    params, so that only the matches found by lookup have none. *)
Theorem loop_match_params (segs : list segment) (uri queryInputName : string)
    (r : URIMatch) :
  forallb wellFormed segs = true ->
  TrimRight (joined render segs) "/" = joined render segs ->
  tryPattern uri (joined render segs, queryInputName) = Returns (Some r) ->
  QueryInputName r = queryInputName /\
  dom (Params r) = list_to_set (templateNames segs) /\
  HasParams r = true.
Proof.
  intros H Htrim Htry. split; [exact (tryPattern_name _ _ _ _ Htry)|].
  unfold tryPattern in Htry. rewrite Htrim in Htry.
  rewrite (patternToRegex_joined segs H), bind_Returns in Htry. cbv beta iota in Htry.
  rewrite (MustCompile_by_parts segs H) in Htry.
  destruct (validUTF8 (joined render segs)); [|discriminate].
  rewrite bind_Returns in Htry.
  destruct (regexp.FindStringSubmatch (compiled segs) uri) as [matches|] eqn:Hfind;
    [|discriminate].
  destruct (1 <? length matches) eqn:Hlen; [|discriminate].
  apply bind_Returns_inv in Htry as (params & Hfill & Hret).
  injection Hret as <-. cbn [Params].
  apply fillParams_dom in Hfill.
  rewrite dom_empty_L, (left_id_L (∅ : gset string) (∪)), names_as_set in Hfill.
  split; [exact Hfill|].
  apply FindStringSubmatch_length in Hfind.
  rewrite Hfind, NumSubexp_compiled, templateNames_length in Hlen.
  apply Nat.ltb_lt in Hlen.
  unfold HasParams. cbn [Params]. apply Nat.ltb_lt.
  destruct (templateNames segs) as [|name names] eqn:Hnames; [cbn in Hlen; lia|].
  assert (Hin : name ∈ dom params) by (rewrite Hfill; set_solver).
  apply elem_of_dom in Hin as [v Hv].
  destruct (decide (size params = 0)) as [Hzero|Hpos]; [|lia].
  apply map_size_empty_inv in Hzero. subst params. rewrite lookup_empty in Hv.
  discriminate.
Qed.

Lemma loop_match_params_witness :
  QueryInputName {| QueryInputName := "T"; Params := {[ "a" := "y/z"; "b" := "x" ]} |} = "T" /\
  dom (Params {| QueryInputName := "T"; Params := {[ "a" := "y/z"; "b" := "x" ]} |})
  = list_to_set (templateNames [Single "a"; Lit "/"; Multi "b"]) /\
  HasParams {| QueryInputName := "T"; Params := {[ "a" := "y/z"; "b" := "x" ]} |} = true.
Proof.
  apply (loop_match_params [Single "a"; Lit "/"; Multi "b"] "x/y/z" "T").
  - reflexivity.
  - vm_compute. reflexivity.
  - vm_compute. reflexivity.
Defined.

(** ** Serialization names are words *)

Lemma repeat_word_result {R} (f : nat -> R) (k : string -> nat -> option R) (s : string) :
  (forall s' p', k s' p' = Some (f p')) ->
  forall min pos r,
    regexp.repeat regexp.WordChar true min s pos k = Some r ->
    exists w s', s = w +:+ s' /\ allWord w = true /\ r = f (pos + String.length w).
Proof.
  intros Hk. induction s as [|a s IH]; intros min pos r H.
  - cbn [regexp.repeat] in H. destruct min; [|discriminate].
    rewrite Hk in H. injection H as <-.
    exists EmptyString, EmptyString. cbn [String.length]. rewrite Nat.add_0_r.
    repeat split.
  - cbn [regexp.repeat regexp.accepts] in H.
    destruct (regexp.isword a) eqn:Ha.
    + destruct (regexp.repeat regexp.WordChar true (Nat.pred min) s (S pos) k)
        as [r'|] eqn:Hmore.
      * injection H as <-. destruct (IH _ _ _ Hmore) as (w & s' & -> & Hw & ->).
        exists (String a w), s'. cbn [allWord String.length]. rewrite Ha, Hw.
        repeat split. f_equal. lia.
      * destruct min; [|discriminate]. rewrite Hk in H. injection H as <-.
        exists EmptyString, (String a s). cbn [String.length]. rewrite Nat.add_0_r.
        repeat split.
    + destruct min; [|discriminate]. rewrite Hk in H. injection H as <-.
      exists EmptyString, (String a s). cbn [String.length]. rewrite Nat.add_0_r.
      repeat split.
Qed.

Lemma search_suffix (re : regexp.Regexp) (s : string) : forall pos b e caps,
  regexp.search re s pos = Some (b, e, caps) ->
  exists skipped s', s = skipped +:+ s' /\ b = pos + String.length skipped /\
                     regexp.matchAt re s' b = Some (e, caps).
Proof.
  induction s as [|c s IH]; intros pos b e caps H; rewrite search_unfold in H.
  - destruct (regexp.matchAt re "" pos) as [[e' caps']|] eqn:Hm; [|discriminate].
    injection H as <- <- <-. exists EmptyString, EmptyString.
    cbn [String.length]. rewrite Nat.add_0_r. repeat split. exact Hm.
  - destruct (regexp.matchAt re (String c s) pos) as [[e' caps']|] eqn:Hm.
    + injection H as <- <- <-. exists EmptyString, (String c s).
      cbn [String.length]. rewrite Nat.add_0_r. repeat split. exact Hm.
    + destruct (IH _ _ _ _ H) as (skipped & s' & -> & -> & Hmatch).
      exists (String c skipped), s'. cbn [String.length].
      repeat split; [lia|]. exact Hmatch.
Qed.

Lemma name_pattern :
  regexp.MustCompile "name=(\w+)"
  = Returns (foldr regexp.Concat
               (regexp.Concat
                  (regexp.Capture 1 (regexp.concat [regexp.Repeat regexp.WordChar 1 true]))
                  regexp.EmptyMatch)
               (literalItems "name=")).
Proof. vm_compute. reflexivity. Qed.

Lemma serializationName_word (field : StructField) (name : string) :
  serializationName field = Some name -> allWord name = true.
Proof.
  unfold serializationName. rewrite name_pattern.
  unfold regexp.FindStringSubmatch.
  destruct (regexp.search _ (Get (Tag field) "protobuf") 0) as [[[b e] caps]|] eqn:Hsearch;
    [|discriminate].
  apply search_suffix in Hsearch as (skipped & s' & Htag & -> & Hmatch).
  unfold regexp.matchAt in Hmatch. rewrite backtrack_literal_prefix in Hmatch.
  destruct (CutPrefix s' "name=") as [rest|] eqn:Hcut; [|discriminate].
  apply CutPrefix_Some in Hcut. subst s'.
  cbn [regexp.backtrack regexp.concat foldr] in Hmatch.
  eapply (repeat_word_result
            (fun p' => (p', [(1, (0 + String.length skipped + String.length "name=", p'))])))
    in Hmatch; [|reflexivity].
  destruct Hmatch as (w & t & -> & Hw & Hresult).
  injection Hresult as -> ->.
  match goal with
  | |- context [regexp.NumSubexp ?r] => change (regexp.NumSubexp r) with 1
  end.
  cbn [seq map regexp.cap_lookup Nat.eqb].
  intros [= <-]. rewrite Htag.
  replace (skipped +:+ "name=" +:+ w +:+ t) with ((skipped +:+ "name=") +:+ w +:+ t)
    by (rewrite append_assoc; reflexivity).
  assert (Hpre : String.length skipped + 5 = String.length (skipped +:+ "name="))
    by (rewrite append_length; reflexivity).
  rewrite Hpre, slice_middle. exact Hw.
Qed.

(** X17: [createMessage] can only apply a param whose key is made of word
    bytes: a key with any other byte, such as the backslash or the dot of
    an escaped wildcard name, is the serialization name of no field of any
    struct, and the param is left out. *)
Theorem non_word_key_is_dropped (fields : list StructField) (key value : string)
    (fieldMap : gmap string string) :
  allWord key = false ->
  fieldNamed fields key = None /\
  matchField fields key value fieldMap = Returns fieldMap.
Proof.
  intros Hkey.
  assert (Hnone : fieldNamed fields key = None).
  { destruct (fieldNamed fields key) as [field|] eqn:Hfield; [|reflexivity].
    apply fieldNamed_spec in Hfield as [_ Hname].
    apply serializationName_word in Hname. congruence. }
  split; [exact Hnone|]. rewrite matchField_fieldNamed, Hnone. reflexivity.
Qed.

Lemma non_word_key_is_dropped_witness :
  fieldNamed bank.QueryBalanceRequest "pagination\.key" = None /\
  matchField bank.QueryBalanceRequest "pagination\.key" "abc" ∅ = Returns ∅.
Proof.
  apply non_word_key_is_dropped. reflexivity.
Defined.

(** ** A line feed in a wildcard name *)

Lemma repeat_lazy_blocked {R} (c : regexp.class) (d : ascii) (n s : string)
    (k : string -> nat -> option R) :
  (forall a, regexp.accepts c a = negb (Ascii.eqb a d)) ->
  (forall a b x p, Ascii.eqb b "}" = false -> k (String a (String b x)) p = None) ->
  (forall x p, k (String d x) p = None) ->
  Ascii.eqb d "}" = false ->
  ContainsByte n d = true -> ContainsByte n "}" = false ->
  forall pos, regexp.repeat c false 0 (n +:+ s) pos k = None.
Proof.
  intros Hc Hk Hkd Hd. induction n as [|a n IH]; intros Hin Hclose pos; [discriminate|].
  cbn [ContainsByte] in Hin, Hclose. apply orb_false_iff in Hclose as [_ Hclose].
  change (String a n +:+ s) with (String a (n +:+ s)).
  cbn [regexp.repeat Nat.pred]. rewrite Hc.
  destruct (Ascii.eqb a d) eqn:Had.
  - apply Ascii.eqb_eq in Had. subst a. rewrite Hkd. reflexivity.
  - cbn [orb] in Hin. cbn [negb]. rewrite (IH Hin Hclose).
    destruct n as [|b n']; [discriminate|].
    change (String b n' +:+ s) with (String b (n' +:+ s)).
    cbn [ContainsByte] in Hclose. apply orb_false_iff in Hclose as [Hb _].
    rewrite (Hk a b _ _ Hb). reflexivity.
Qed.

Lemma search_silent (re : regexp.Regexp) (a : string) :
  (forall pos, regexp.matchAt re "" pos = None) ->
  silent re a "" -> forall pos, regexp.search re a pos = None.
Proof.
  intros Hend. induction a as [|c a IH]; intros Hsilent pos; rewrite search_unfold.
  - rewrite Hend. reflexivity.
  - destruct Hsilent as [Hhere Hrest]. rewrite append_empty_r in Hhere.
    rewrite Hhere. apply IH. exact Hrest.
Qed.

(** The pattern that reads the name back, [\\\{(.*?)\\}], finds nothing
    in a wildcard whose name has a line feed, and the callback indexes
    the nil slice. *)
Lemma single_callback_line_feed (n : string) (names : list string) :
  ContainsByte n "{" = false -> ContainsByte n "}" = false ->
  ContainsByte n "010" = true ->
  (re ← regexp.MustCompile "\\\{(.*?)\\}";
   name ← index (regexp.FindStringSubmatch re ("\{" +:+ regexp.QuoteMeta n +:+ "\}")) 1;
   mret ("([^/]+)", names ++ [name]))
  = Panics.
Proof.
  intros Hopen Hclose Hnl.
  rewrite single_name_pattern, bind_Returns.
  unfold regexp.FindStringSubmatch. rewrite search_unfold.
  assert (Hmatch :
    regexp.matchAt
      (regexp.concat
         [regexp.Char (regexp.Literal "\"); regexp.Char (regexp.Literal "{");
          regexp.Capture 1
            (regexp.concat [regexp.Repeat regexp.AnyCharNotNL 0 false]);
          regexp.Char (regexp.Literal "\"); regexp.Char (regexp.Literal "}")])
      ("\{" +:+ regexp.QuoteMeta n +:+ "\}") 0
    = None).
  { unfold regexp.matchAt, regexp.concat.
    change ("\{" +:+ regexp.QuoteMeta n +:+ "\}")
      with (String "\" (String "{" (regexp.QuoteMeta n +:+ String "\" "}"))).
    cbn [foldr regexp.backtrack regexp.accepts Ascii.eqb Bool.eqb].
    apply (repeat_lazy_blocked regexp.AnyCharNotNL "010").
    - reflexivity.
    - intros a b x p Hb. cbv beta. rewrite Hb.
      destruct (Ascii.eqb a "\"); reflexivity.
    - reflexivity.
    - reflexivity.
    - rewrite ContainsByte_QuoteMeta by reflexivity. exact Hnl.
    - rewrite ContainsByte_QuoteMeta by reflexivity. exact Hclose. }
  rewrite Hmatch.
  change ("\{" +:+ regexp.QuoteMeta n +:+ "\}")
    with (String "\" (String "{" (regexp.QuoteMeta n +:+ "\}"))).
  cbv beta iota.
  rewrite search_silent; [reflexivity | reflexivity |].
  apply silent_of_quiet. apply quiet_free_wildcard. exact Hopen.
Qed.

Lemma replaceAll_match_panics {St} (re : regexp.Regexp)
    (repl : string -> St -> outcome (string * St)) (src m s : string) (pos : nat)
    (st : St) (caps : regexp.captures) :
  m ≠ EmptyString ->
  regexp.matchAt re (m +:+ s) pos = Some (pos + String.length m, caps) ->
  regexp.slice src pos (pos + String.length m) = m ->
  repl m st = Panics ->
  regexp.replaceAll re repl src (m +:+ s) pos 0 st = Panics.
Proof.
  intros Hne Hmatch Hslice Hrepl. destruct m as [|c m]; [congruence|].
  change (String c m +:+ s) with (String c (m +:+ s)) in *.
  cbn [regexp.replaceAll]. rewrite Hmatch.
  assert (Hlt : (pos + String.length (String c m) <=? pos) = false).
  { apply Nat.leb_gt. cbn [String.length]. lia. }
  rewrite Hlt, Hslice, Hrepl. reflexivity.
Qed.

Lemma patternToRegex_line_feed (p n : string) :
  ContainsByte p "{" = false -> plainName n = true -> ContainsByte n "010" = true ->
  patternToRegex (p +:+ "{" +:+ n +:+ "}") = Panics.
Proof.
  intros Hp Hn Hnl. pose proof (plainName_facts n Hn) as (Hne & Hopen & Hclose & _).
  unfold patternToRegex.
  rewrite multi_pattern, bind_Returns. unfold regexp.ReplaceAllStringFunc.
  assert (Hescaped : regexp.QuoteMeta (p +:+ "{" +:+ n +:+ "}")
                     = regexp.QuoteMeta p +:+ ("\{" +:+ regexp.QuoteMeta n +:+ "\}") +:+ "").
  { rewrite !QuoteMeta_append, append_empty_r. reflexivity. }
  rewrite Hescaped.
  rewrite (first_pass_plain_single p n _ _ _ Hp Hn).
  rewrite bind_Returns. cbv beta iota. rewrite single_pattern, bind_Returns.
  pose proof (replaceAll_silent
                (regexp.concat
                   [regexp.Char (regexp.Literal "\"); regexp.Char (regexp.Literal "{");
                    regexp.Capture 1
                      (regexp.concat [regexp.Repeat (regexp.NotChar "}") 1 true]);
                    regexp.Char (regexp.Literal "\"); regexp.Char (regexp.Literal "}")])
                (fun matched wildcardNames =>
                   re ← regexp.MustCompile "\\\{(.*?)\\}";
                   name ← index (regexp.FindStringSubmatch re matched) 1;
                   mret ("([^/]+)", wildcardNames ++ [name]))
                (regexp.QuoteMeta p +:+ ("\{" +:+ regexp.QuoteMeta n +:+ "\}") +:+ "")
                (regexp.QuoteMeta p) (("\{" +:+ regexp.QuoteMeta n +:+ "\}") +:+ "") 0 [])
    as Hscan.
  rewrite Hscan; clear Hscan.
  2: { apply silent_of_quiet. apply quiet_QuoteMeta; [exact Hp | reflexivity]. }
  erewrite replaceAll_match_panics; [reflexivity | | | | ].
  - intros Heq. discriminate Heq.
  - rewrite !append_assoc. apply matchAt_single_free; assumption.
  - change (0 + String.length (regexp.QuoteMeta p))
      with (String.length (regexp.QuoteMeta p)).
    apply slice_middle.
  - apply single_callback_line_feed; assumption.
Qed.

(** X18: a template with a line feed inside the name of its wildcard
    brings [matchURI] down: the pattern [[^}]+] finds the wildcard, the
    pattern that reads its name back, whose [.] leaves the line feed out,
    does not, and the callback indexes a nil slice.  With such a template
    alone in the table, every path other than the template itself makes
    [matchURI] panic. *)
Theorem line_feed_in_name_panics (p n queryInputName : string)
    (order : list (string * string)) (uri : string) :
  ContainsByte p "{" = false -> plainName n = true -> ContainsByte n "010" = true ->
  rangeOrder {[ p +:+ "{" +:+ n +:+ "}" := queryInputName ]} order ->
  TrimRight uri "/" ≠ p +:+ "{" +:+ n +:+ "}" ->
  matchURI order uri {[ p +:+ "{" +:+ n +:+ "}" := queryInputName ]} = Panics.
Proof.
  intros Hp Hn Hnl Horder Hne. rewrite (matchURI_singleton _ _ _ _ Horder).
  destruct (decide (TrimRight uri "/" = p +:+ "{" +:+ n +:+ "}")); [contradiction|].
  unfold tryPattern.
  replace (TrimRight (p +:+ "{" +:+ n +:+ "}") "/") with (p +:+ "{" +:+ n +:+ "}").
  2: { rewrite <- (append_assoc "{" n "}"), <- (append_assoc p ("{" +:+ n) "}").
       symmetry. apply TrimRight_closing_brace. }
  rewrite (patternToRegex_line_feed p n Hp Hn Hnl). reflexivity.
Qed.

Lemma line_feed_in_name_panics_witness :
  matchURI [("v1/" +:+ "{" +:+ String "a" (String "010" "b") +:+ "}", "T")] "v1/x"
    {[ "v1/" +:+ "{" +:+ String "a" (String "010" "b") +:+ "}" := "T" ]}
  = Panics.
Proof.
  apply line_feed_in_name_panics.
  - reflexivity.
  - reflexivity.
  - reflexivity.
  - unfold rangeOrder. rewrite map_to_list_singleton. reflexivity.
  - vm_compute. discriminate.
Defined.
